(** * Caide C++ inliner, second stage: removal of unused declarations

    A shallow embedding of [optimizer.cpp] and of the interface declared in
    [SmartRewriter.h].  Pointers to AST nodes are positive numbers, a null
    pointer is [None]; the compiler front-end (AST, types, source manager)
    is a record of accessor functions that the embedded code queries exactly
    where the C++ code calls the corresponding member function. *)

From stdpp Require Import base option list gmap sets strings sorting.
From Stdlib Require Import ZArith Lia Ascii.
From Stdlib Require String.

Set Warnings "-register-all,-clear-no-such-hyp".

Open Scope N_scope.
Open Scope nat_scope.
Open Scope list_scope.

(** ** Source locations and ranges *)

(** A [clang::SourceLocation] is its raw encoding; the encoding 0 is the
    invalid location. *)
Definition SourceLocation := N.
Bind Scope N_scope with SourceLocation.

Definition isValid (loc : SourceLocation) : bool := negb (N.eqb loc 0).

Record SourceRange := mkSourceRange {
  getBegin : SourceLocation;
  getEnd : SourceLocation
}.

#[global] Instance SourceRange_eq_dec : EqDecision SourceRange.
Proof. solve_decision. Defined.

(** [clang::Rewriter::RewriteOptions] with the defaults of its constructor. *)
Record RewriteOptions := mkRewriteOptions {
  IncludeInsertsAtBeginOfRange : bool;
  IncludeInsertsAtEndOfRange : bool;
  RemoveLineIfEmpty : bool
}.

#[global] Instance RewriteOptions_eq_dec : EqDecision RewriteOptions.
Proof. solve_decision. Defined.

Definition defaultRewriteOptions : RewriteOptions :=
  {| IncludeInsertsAtBeginOfRange := true;
     IncludeInsertsAtEndOfRange := true;
     RemoveLineIfEmpty := false |}.

Definition setRemoveLineIfEmpty (b : bool) (o : RewriteOptions) : RewriteOptions :=
  {| IncludeInsertsAtBeginOfRange := IncludeInsertsAtBeginOfRange o;
     IncludeInsertsAtEndOfRange := IncludeInsertsAtEndOfRange o;
     RemoveLineIfEmpty := b |}.

(** [struct RewriteItem] of SmartRewriter.h. *)
Record RewriteItem := mkRewriteItem {
  range : SourceRange;
  opts : RewriteOptions
}.

#[global] Instance RewriteItem_eq_dec : EqDecision RewriteItem.
Proof. solve_decision. Defined.

(** ** Declarations and types of the AST *)

Definition Decl := positive.
Definition TypePtr := positive.
Bind Scope positive_scope with Decl TypePtr.

(** The classes of the [clang::Decl] hierarchy that the optimizer tests with
    [isa], [dyn_cast] or through the [Visit*] hooks.  [ValueDecl] and
    [TypedefNameDecl] are abstract bases; [OtherVarDecl] and
    [OtherValueDecl] stand for the variable and value classes that have no
    hook of their own, [OtherDecl] for the remaining classes. *)
Inductive DeclClass :=
  | TranslationUnitDecl | NamespaceDecl | UsingDirectiveDecl | EmptyDecl
  | TypedefNameDecl | TypedefDecl | TypeAliasDecl | TypeAliasTemplateDecl
  | ValueDecl | FunctionDecl | CXXMethodDecl | CXXConstructorDecl
  | CXXDestructorDecl | CXXConversionDecl | FunctionTemplateDecl
  | CXXRecordDecl | ClassTemplateSpecializationDecl
  | ClassTemplatePartialSpecializationDecl | ClassTemplateDecl
  | VarDecl | ParmVarDecl | OtherVarDecl | FieldDecl | EnumConstantDecl
  | OtherValueDecl | TemplateTypeParmDecl | OtherDecl.

#[global] Instance DeclClass_eq_dec : EqDecision DeclClass.
Proof. solve_decision. Defined.

(** Direct base class inside the hierarchy above. *)
Definition baseClass (c : DeclClass) : option DeclClass :=
  match c with
  | TypedefDecl | TypeAliasDecl => Some TypedefNameDecl
  | FunctionDecl | VarDecl | FieldDecl | EnumConstantDecl | OtherValueDecl =>
      Some ValueDecl
  | CXXMethodDecl => Some FunctionDecl
  | CXXConstructorDecl | CXXDestructorDecl | CXXConversionDecl => Some CXXMethodDecl
  | ClassTemplateSpecializationDecl => Some CXXRecordDecl
  | ClassTemplatePartialSpecializationDecl => Some ClassTemplateSpecializationDecl
  | ParmVarDecl | OtherVarDecl => Some VarDecl
  | _ => None
  end.

Fixpoint derivesWithin (depth : nat) (cls k : DeclClass) : bool :=
  bool_decide (k = cls) ||
  match depth with
  | O => false
  | S depth =>
      match baseClass k with
      | Some b => derivesWithin depth cls b
      | None => false
      end
  end.

(** [classof]: a node of dynamic class [k] is an instance of [cls].  The
    hierarchy is at most four levels deep. *)
Definition classof (cls k : DeclClass) : bool := derivesWithin 4 cls k.

Inductive TemplatedKind :=
  | TK_NonTemplate | TK_FunctionTemplate | TK_MemberSpecialization
  | TK_FunctionTemplateSpecialization
  | TK_DependentFunctionTemplateSpecialization.

#[global] Instance TemplatedKind_eq_dec : EqDecision TemplatedKind.
Proof. solve_decision. Defined.

Inductive TemplateSpecializationKind :=
  | TSK_Undeclared | TSK_ImplicitInstantiation | TSK_ExplicitSpecialization
  | TSK_ExplicitInstantiationDeclaration | TSK_ExplicitInstantiationDefinition.

#[global] Instance TemplateSpecializationKind_eq_dec :
  EqDecision TemplateSpecializationKind.
Proof. solve_decision. Defined.

(** What the code reads from a [FunctionDecl] (and [CXXMethodDecl]). *)
Record FunctionInfo := {
  isMain : bool;
  isLateTemplateParsed : bool;
  getTemplatedKind : TemplatedKind;
  (* getTemplateSpecializationInfo(), followed to
     getTemplate()->getTemplatedDecl() *)
  getTemplateSpecializationInfo : option Decl;
  getReturnType : option TypePtr;
  getInstantiatedFromMemberFunction : option Decl;
  doesThisDeclarationHaveABody : bool;
  isExplicitlyDefaulted : bool;
  isDeleted : bool;
  isVirtual : bool;
  getParent : option Decl
}.

(** What the code reads from a [CXXRecordDecl]. *)
Record RecordInfo := {
  getDescribedClassTemplate : option Decl;
  getDestructor : option Decl;
  getDefinition : option Decl;
  getTemplateSpecializationKind : TemplateSpecializationKind;
  bases : list (option TypePtr);
  isCompleteDefinition : bool;
  getSpecializedTemplateOrPartial : option Decl
}.

(** Templates, values, typedefs and template type parameters. *)
Record TemplateInfo := {
  getTemplatedDecl : option Decl;
  getInstantiatedFromMemberTemplate : option Decl;
  isThisDeclarationADefinition : bool
}.

Record ValueInfo := {
  getType : option TypePtr;
  isLocalVarDeclOrParm : bool;
  getFieldParent : option Decl
}.

Record TypedefInfo := {
  getUnderlyingType : option TypePtr;
  getDescribedAliasTemplate : option Decl
}.

Record TypeParmInfo := {
  hasDefaultArgument : bool;
  getDefaultArgument : option TypePtr
}.

(** [clang::RawComment]: the two ends of its source range. *)
Record RawComment := {
  commentLocStart : SourceLocation;
  commentLocEnd : SourceLocation
}.

Definition getSourceRange (c : RawComment) : SourceRange :=
  mkSourceRange (commentLocStart c) (commentLocEnd c).

Record DeclInfo := {
  getKind : DeclClass;
  getCanonicalDecl : Decl;
  getDeclContext : option Decl;
  getLexicalDeclContext : option Decl;
  getLocStart : SourceLocation;
  getLocation : SourceLocation;
  (* util.h: getExpansionStart(sourceManager, decl) and getExpansionEnd *)
  getExpansionStart : SourceLocation;
  getExpansionEnd : SourceLocation;
  getRawCommentForDeclNoCache : option RawComment;
  getNominatedNamespace : option Decl;
  asFunction : FunctionInfo;
  asRecord : RecordInfo;
  asTemplate : TemplateInfo;
  asValue : ValueInfo;
  asTypedef : TypedefInfo;
  asTypeParm : TypeParmInfo
}.

(** Template arguments and the type classes that [insertReferenceToType]
    tells apart with [dyn_cast]. *)
Inductive TemplateArgument :=
  | TypeArgument (t : option TypePtr)
  | OtherArgument.

Inductive TypeClass :=
  | ElaboratedType (named : option TypePtr)
  | ParenType (inner : option TypePtr)
  | ArrayType (element : option TypePtr)
  | PointerType (pointee : option TypePtr)
  | ReferenceType (pointee : option TypePtr)
  | TypedefType (decl : option Decl)
  | TemplateSpecializationType (template : option Decl)
                               (args : list TemplateArgument)
  | OtherType.

Record TypeInfo := {
  getTypeClass : TypeClass;
  getAsTagDecl : option Decl;
  getAsCXXRecordDecl : option Decl
}.

Inductive TokenKind := tok_comma | tok_semi.

(** The AST context: the nodes, the types, and the two lexing helpers of
    util.h, which take the context as an argument. *)
Record ASTContext := {
  declInfo : Decl → DeclInfo;
  typeInfo : TypePtr → TypeInfo;
  (* ASTContext::getTypes().size(): how many type nodes exist *)
  numTypes : nat;
  (* the location of the semicolon that follows [loc], or the invalid one *)
  findSemiAfterLocation : SourceLocation → SourceLocation;
  (* the location of the next token if it has this kind, or the invalid one *)
  findTokenAfterLocation : SourceLocation → TokenKind → SourceLocation
}.

(** The result of [SourceManager::getCharacterData(loc, &invalid)]: a pointer
    into the character store (null is [None]) and the [invalid] flag. *)
Record CharacterData := {
  dataPtr : option nat;
  dataInvalid : bool
}.

(** The result of [SourceManager::getBuffer(fid, &invalid)]. *)
Record MemoryBuffer := {
  bufferContents : option string;
  bufferInvalid : bool
}.

Record SourceManager := {
  isInMainFile : SourceLocation → bool;
  isBeforeInTranslationUnit : SourceLocation → SourceLocation → bool;
  getCharacterData : SourceLocation → CharacterData;
  (* the characters that the pointers of getCharacterData point into *)
  charAt : nat → ascii;
  (* getBuffer(getMainFileID(), &invalid) *)
  getMainFileBuffer : MemoryBuffer
}.

Section Accessors.
Context (ctx : ASTContext).

Definition kindOf (d : Decl) : DeclClass := getKind (declInfo ctx d).

(** [isa<C>(d)] *)
Definition isa (cls : DeclClass) (d : Decl) : bool := classof cls (kindOf d).

(** [dyn_cast_or_null<C>(d)] *)
Definition dyn_cast_or_null (cls : DeclClass) (d : option Decl) : option Decl :=
  match d with
  | Some p => if isa cls p then Some p else None
  | None => None
  end.

(** [decl->getCanonicalDecl()] *)
Definition canonical (d : Decl) : Decl := getCanonicalDecl (declInfo ctx d).

(** util.h: [getExpansionRange(sourceManager, decl)] *)
Definition getExpansionRange (d : Decl) : SourceRange :=
  mkSourceRange (getExpansionStart (declInfo ctx d))
                (getExpansionEnd (declInfo ctx d)).
End Accessors.

(** ** SmartRewriter *)

Module SmartRewriter.

(** Modelled from the spec: SmartRewriter.cpp is not part of the sources,
    only the class declaration in SmartRewriter.h is.  The members are
    those of the header ([removed], [changesApplied]); [requested] is a
    history of every range handed to [removeRange], accepted or not, kept
    so that callers' submissions can be stated. *)
Record t := mk {
  removed : list RewriteItem;
  changesApplied : bool;
  requested : list RewriteItem
}.

Definition create : t :=
  {| removed := []; changesApplied := false; requested := [] |}.

Section WithSourceManager.
Context (sm : SourceManager).

(** Modelled from the spec: two ranges overlap unless one of them ends
    before the other begins, in translation-unit order. *)
Definition overlaps (a b : SourceRange) : bool :=
  negb (isBeforeInTranslationUnit sm (getEnd a) (getBegin b)) &&
  negb (isBeforeInTranslationUnit sm (getEnd b) (getBegin a)).

(** Modelled from the spec: "true iff no previously accepted range
    overlaps r". *)
Definition canRemoveRange (rw : t) (r : SourceRange) : bool :=
  forallb (fun it => negb (overlaps (range it) r)) (removed rw).

(** Modelled from the spec: "if canRemoveRange(r), record (r, opts) in
    the accepted set and return true; otherwise return false (no-op)". *)
Definition removeRange (rw : t) (r : SourceRange) (o : RewriteOptions)
  : bool * t :=
  let it := mkRewriteItem r o in
  if canRemoveRange rw r
  then (true, {| removed := removed rw ++ [it];
                 changesApplied := changesApplied rw;
                 requested := requested rw ++ [it] |})
  else (false, {| removed := removed rw;
                  changesApplied := changesApplied rw;
                  requested := requested rw ++ [it] |}).

(** A sequence of [removeRange] calls on one instance. *)
Definition removeRanges (rw : t) (reqs : list RewriteItem) : t :=
  fold_left (fun rw it => snd (removeRange rw (range it) (opts it))) reqs rw.

(** No two accepted ranges overlap. *)
Fixpoint pairwiseDisjoint (l : list RewriteItem) : Prop :=
  match l with
  | [] => True
  | it :: l' =>
      Forall (fun it' => overlaps (range it) (range it') = false) l'
      ∧ pairwiseDisjoint l'
  end.
End WithSourceManager.

End SmartRewriter.

(** ** SourceInfo: what the dependencies collector hands to the next stage *)

Record SourceInfo := mkSourceInfo {
  (* key: Decl, value: what the key uses *)
  uses : gmap Decl (gset Decl);
  (* roots of the dependency tree *)
  declsToKeep : gset Decl;
  delayedParsedFunctions : list Decl;
  (* static variables grouped by their start location *)
  staticVariables : gmap SourceLocation (list Decl)
}.

Definition emptySourceInfo : SourceInfo :=
  mkSourceInfo ∅ ∅ [] ∅.

(** ** The syntax tree as the visitors walk it *)

Inductive CalleeClass :=
  | UnresolvedMemberExpr | CXXDependentScopeMemberExpr | OtherCallee.

(** The statements that the collector has a [Visit*] hook for, with what the
    hook reads.  A [TypeSourceInfo*] that may be null is an outer option. *)
Inductive Stmt :=
  | CallExpr (callee : option CalleeClass) (calleeDecl : option Decl)
  | CXXConstructExpr (constructor : option Decl)
  | CXXTemporaryObjectExpr (constructor : option Decl)
                           (typeSourceInfo : option (option TypePtr))
  | CXXNewExpr (allocatedType : option TypePtr)
  | DeclRefExpr (decl : option Decl) (qualifier : list (option TypePtr))
  | CXXScalarValueInitExpr (typeSourceInfo : option (option TypePtr))
  | ExplicitCastExpr (typeAsWritten : option TypePtr)
  | MemberExpr (memberDecl : option Decl)
  | LambdaExpr (callOperator : option Decl)
  | UnaryExprOrTypeTraitExpr (isArgumentType : bool)
                             (argumentType : option TypePtr)
  | OtherStmt.

(** The nodes in the order [RecursiveASTVisitor] reaches them: a declaration
    or a statement, with the nodes traversed below it. *)
Inductive Node :=
  | DeclNode (d : Decl) (children : list Node)
  | StmtNode (s : Stmt) (children : list Node).

(** The declarations of a tree in the order the traversal visits them. *)
Fixpoint visitOrder (n : Node) : list Decl :=
  match n with
  | DeclNode decl children => decl :: flat_map visitOrder children
  | StmtNode _ children => flat_map visitOrder children
  end.

(** ** llvm::StringRef *)

Fixpoint startsWith (prefix s : list ascii) : bool :=
  match prefix, s with
  | [], _ => true
  | _ :: _, [] => false
  | a :: prefix', b :: s' => bool_decide (a = b) && startsWith prefix' s'
  end.

(** [StringRef::find(needle)] from position [pos]: the index of the first
    occurrence; [npos] is [None]. *)
Fixpoint findFrom (needle s : list ascii) (pos : nat) : option nat :=
  if startsWith needle s then Some pos
  else match s with
       | [] => None
       | _ :: s' => findFrom needle s' (S pos)
       end.

Definition find (haystack needle : list ascii) : option nat :=
  findFrom needle haystack 0.

(** ** DependenciesCollector *)

Module DependenciesCollector.

Record t := mk {
  srcInfo : SourceInfo;
  (* inner-most active Decl at the head *)
  declStack : list Decl
}.

Definition onSrcInfo (f : SourceInfo → SourceInfo) (c : t) : t :=
  {| srcInfo := f (srcInfo c); declStack := declStack c |}.

Definition caideKeepComment : list ascii :=
  String.list_ascii_of_string "caide keep".

Section WithFrontEnd.
Context (sourceManager : SourceManager) (ctx : ASTContext).

Definition getCurrentDecl (c : t) : option Decl := head (declStack c).

Definition getCurrentFunction (decl : Decl) : option Decl :=
  dyn_cast_or_null ctx FunctionDecl
    (getLexicalDeclContext (declInfo ctx decl)).

Definition getParentDecl (decl : Decl) : option Decl :=
  getLexicalDeclContext (declInfo ctx decl).

Definition insertReference (from to : option Decl) (si : SourceInfo)
  : SourceInfo :=
  match from, to with
  | Some from, Some to =>
      let from := if isa ctx NamespaceDecl from then from
                  else canonical ctx from in
      let to := if isa ctx NamespaceDecl to then to
                else canonical ctx to in
      mkSourceInfo
        (<[from := {[to]} ∪ default ∅ (uses si !! from)]> (uses si))
        (declsToKeep si) (delayedParsedFunctions si) (staticVariables si)
  | _, _ => si
  end.

(** The type walk threads [seen] together with the source info. *)
Definition onInfo (f : SourceInfo → SourceInfo) (st : SourceInfo * gset TypePtr)
  : SourceInfo * gset TypePtr :=
  (f st.1, st.2).

(** [if (const C* x = dyn_cast<C>(to)) ...] for the type classes with one
    operand. *)
Definition ifParenType (cls : TypeClass) {A} (k : option TypePtr → A → A) (st : A) : A :=
  match cls with ParenType inner => k inner st | _ => st end.

Definition ifArrayType (cls : TypeClass) {A} (k : option TypePtr → A → A) (st : A) : A :=
  match cls with ArrayType element => k element st | _ => st end.

Definition ifPointerType (cls : TypeClass) {A} (k : option TypePtr → A → A) (st : A) : A :=
  match cls with PointerType pointee => k pointee st | _ => st end.

Definition ifReferenceType (cls : TypeClass) {A} (k : option TypePtr → A → A) (st : A) : A :=
  match cls with ReferenceType pointee => k pointee st | _ => st end.

Definition ifTypedefType (cls : TypeClass) {A} (k : option Decl → A → A) (st : A) : A :=
  match cls with TypedefType decl => k decl st | _ => st end.

Definition ifTemplateSpecializationType (cls : TypeClass) {A}
    (k : option Decl → list TemplateArgument → A → A) (st : A) : A :=
  match cls with
  | TemplateSpecializationType tempDecl args => k tempDecl args st
  | _ => st
  end.

(** The base classes of the definition of the record that [to] names,
    unless that record is the pattern of a class template. *)
Definition walkBases
    (recur : option TypePtr → SourceInfo * gset TypePtr → SourceInfo * gset TypePtr)
    (to : TypePtr) (st : SourceInfo * gset TypePtr) : SourceInfo * gset TypePtr :=
  match getAsCXXRecordDecl (typeInfo ctx to) with
  | Some recordDecl =>
      match getDefinition (asRecord (declInfo ctx recordDecl)) with
      | Some recordDecl =>
          let r := asRecord (declInfo ctx recordDecl) in
          let isTemplated := bool_decide (getDescribedClassTemplate r ≠ None) in
          let specKind := getTemplateSpecializationKind r in
          if isTemplated &&
             (bool_decide (specKind = TSK_ImplicitInstantiation)
              || bool_decide (specKind = TSK_Undeclared))
          then st
          else fold_left (fun s base => recur base s) (bases r) st
      | None => st
      end
  | None => st
  end.

(** The template named by a template specialization type, and its type
    arguments. *)
Definition walkTemplate
    (recur : option TypePtr → SourceInfo * gset TypePtr → SourceInfo * gset TypePtr)
    (from : option Decl) (tempDecl : option Decl) (args : list TemplateArgument)
    (st : SourceInfo * gset TypePtr) : SourceInfo * gset TypePtr :=
  let st := match tempDecl with
            | Some _ => onInfo (insertReference from tempDecl) st
            | None => st
            end in
  fold_left (fun s arg => match arg with
                          | TypeArgument t => recur t s
                          | OtherArgument => s
                          end) args st.

(** The body of the three-argument overload once [to] is known to be a new
    type, already added to [seen]; [recur] is the recursive call. *)
Definition insertReferenceToTypeBody
    (recur : option TypePtr → SourceInfo * gset TypePtr → SourceInfo * gset TypePtr)
    (from : option Decl) (to : TypePtr) (st : SourceInfo * gset TypePtr)
  : SourceInfo * gset TypePtr :=
  let cls := getTypeClass (typeInfo ctx to) in
  match cls with
  | ElaboratedType named => recur named st
  | _ =>
    let st := ifParenType cls recur st in
    let st := onInfo (insertReference from (getAsTagDecl (typeInfo ctx to))) st in
    let st := ifArrayType cls recur st in
    let st := ifPointerType cls recur st in
    let st := ifReferenceType cls recur st in
    let st := ifTypedefType cls (fun decl => onInfo (insertReference from decl)) st in
    let st := walkBases recur to st in
    ifTemplateSpecializationType cls (walkTemplate recur from) st
  end.

(** The three-argument overload; [depth] bounds the nesting of the
    recursion. *)
Fixpoint insertReferenceToTypeSeen (depth : nat) (from : option Decl)
    (to : option TypePtr) (st : SourceInfo * gset TypePtr)
  : SourceInfo * gset TypePtr :=
  match depth, to with
  | O, _ | _, None => st
  | S depth, Some to =>
      if bool_decide (to ∈ st.2) then st
      else insertReferenceToTypeBody (insertReferenceToTypeSeen depth from)
             from to (st.1, {[to]} ∪ st.2)
  end.

(** The two-argument overloads start from an empty [seen]; every
    recursive call adds a new type to [seen], so the nesting is at most
    the number of types of the context and the depth given here is never
    used up. *)
Definition insertReferenceToType (from : option Decl) (to : option TypePtr)
    (si : SourceInfo) : SourceInfo :=
  (insertReferenceToTypeSeen (S (numTypes ctx)) from to (si, ∅)).1.

(** [end - beg + 1] for two pointers into the characters; the end of a
    comment is not before its start. *)
Definition distance (beg end_ : nat) : nat :=
  Z.to_nat (Z.of_nat end_ - Z.of_nat beg + 1).

(** [StringRef(beg, len)] *)
Definition StringRef (beg len : nat) : list ascii :=
  map (charAt sourceManager) (seq beg len).

Definition VisitDecl (decl : Decl) (si : SourceInfo) : SourceInfo :=
  (* Mark dependence on enclosing class/namespace. *)
  let si :=
    match getDeclContext (declInfo ctx decl) with
    | Some c => if negb (isa ctx FunctionDecl c)
                then insertReference (Some decl) (Some c) si else si
    | None => si
    end in
  if negb (isInMainFile sourceManager (getLocStart (declInfo ctx decl)))
  then si
  else
    match getRawCommentForDeclNoCache (declInfo ctx decl) with
    | None => si
    | Some comment =>
        let b := getCharacterData sourceManager (commentLocStart comment) in
        match dataPtr b with
        | None => si
        | Some beg =>
            if dataInvalid b then si
            else
              let e := getCharacterData sourceManager (commentLocEnd comment) in
              match dataPtr e with
              | None => si
              | Some end_ =>
                  if dataInvalid e then si
                  else
                    let haystack := StringRef beg (distance beg end_) in
                    match find haystack caideKeepComment with
                    | Some _ =>
                        mkSourceInfo (uses si) ({[decl]} ∪ declsToKeep si)
                          (delayedParsedFunctions si) (staticVariables si)
                    | None => si
                    end
              end
        end
    end.

Definition VisitValueDecl (valueDecl : Decl) (si : SourceInfo) : SourceInfo :=
  let si := insertReference (getCurrentFunction valueDecl) (Some valueDecl) si in
  insertReferenceToType (Some valueDecl)
    (getType (asValue (declInfo ctx valueDecl))) si.

Definition VisitVarDecl (varDecl : Decl) (si : SourceInfo) : SourceInfo :=
  let start := getExpansionStart (declInfo ctx varDecl) in
  if negb (isLocalVarDeclOrParm (asValue (declInfo ctx varDecl)))
     && isInMainFile sourceManager start
  then mkSourceInfo (uses si) (declsToKeep si) (delayedParsedFunctions si)
         (<[start := default [] (staticVariables si !! start) ++ [varDecl]]>
            (staticVariables si))
  else si.

Definition VisitFieldDecl (field : Decl) (si : SourceInfo) : SourceInfo :=
  insertReference (Some field) (getFieldParent (asValue (declInfo ctx field))) si.

Definition VisitTypedefNameDecl (typedefDecl : Decl) (si : SourceInfo)
  : SourceInfo :=
  insertReferenceToType (Some typedefDecl)
    (getUnderlyingType (asTypedef (declInfo ctx typedefDecl))) si.

Definition VisitTypeAliasDecl (aliasDecl : Decl) (si : SourceInfo) : SourceInfo :=
  insertReference (Some aliasDecl)
    (getDescribedAliasTemplate (asTypedef (declInfo ctx aliasDecl))) si.

Definition VisitTypeAliasTemplateDecl (aliasTemplateDecl : Decl)
    (si : SourceInfo) : SourceInfo :=
  insertReference (Some aliasTemplateDecl)
    (getInstantiatedFromMemberTemplate
       (asTemplate (declInfo ctx aliasTemplateDecl))) si.

Definition VisitClassTemplateDecl (templateDecl : Decl) (si : SourceInfo)
  : SourceInfo :=
  insertReference (Some templateDecl)
    (getTemplatedDecl (asTemplate (declInfo ctx templateDecl))) si.

Definition VisitClassTemplateSpecializationDecl (specDecl : Decl)
    (si : SourceInfo) : SourceInfo :=
  insertReference (Some specDecl)
    (getSpecializedTemplateOrPartial (asRecord (declInfo ctx specDecl))) si.

Definition VisitFunctionDecl (f : Decl) (si : SourceInfo) : SourceInfo :=
  let fi := asFunction (declInfo ctx f) in
  let si :=
    if isMain fi
    then mkSourceInfo (uses si) ({[f]} ∪ declsToKeep si)
           (delayedParsedFunctions si) (staticVariables si)
    else si in
  let si :=
    if isInMainFile sourceManager (getLocStart (declInfo ctx f))
       && isLateTemplateParsed fi
    then mkSourceInfo (uses si) (declsToKeep si)
           (delayedParsedFunctions si ++ [f]) (staticVariables si)
    else si in
  if bool_decide (getTemplatedKind fi = TK_FunctionTemplate)
  then si (* skip non-instantiated template function *)
  else
    let si := match getTemplateSpecializationInfo fi with
              | Some templated => insertReference (Some f) (Some templated) si
              | None => si
              end in
    let si := insertReferenceToType (Some f) (getReturnType fi) si in
    insertReference (Some f) (getInstantiatedFromMemberFunction fi) si.

Definition VisitFunctionTemplateDecl (functionTemplate : Decl)
    (si : SourceInfo) : SourceInfo :=
  insertReference (Some functionTemplate)
    (getInstantiatedFromMemberTemplate
       (asTemplate (declInfo ctx functionTemplate))) si.

Definition VisitCXXMethodDecl (method : Decl) (si : SourceInfo) : SourceInfo :=
  let fi := asFunction (declInfo ctx method) in
  let si := insertReference (Some method) (getParent fi) si in
  if isVirtual fi
  then insertReference (getParent fi) (Some method) si
  else si.

Definition VisitCXXRecordDecl (recordDecl : Decl) (si : SourceInfo)
  : SourceInfo :=
  insertReference (Some recordDecl)
    (getDescribedClassTemplate (asRecord (declInfo ctx recordDecl))) si.

Definition VisitTemplateTypeParmDecl (paramDecl : Decl) (si : SourceInfo)
  : SourceInfo :=
  let p := asTypeParm (declInfo ctx paramDecl) in
  if hasDefaultArgument p
  then insertReferenceToType (getParentDecl paramDecl) (getDefaultArgument p) si
  else si.

(** Run hook [visit] when the node is an instance of [cls]. *)
Definition whenIsa (cls : DeclClass) (visit : Decl → SourceInfo → SourceInfo)
    (d : Decl) (si : SourceInfo) : SourceInfo :=
  if isa ctx cls d then visit d si else si.

(** [WalkUpFrom*]: the hooks that apply to a declaration, from the base
    class [Decl] down to its dynamic class. *)
Definition WalkUpFromDecl (d : Decl) (si : SourceInfo) : SourceInfo :=
  let si := VisitDecl d si in
  let si := whenIsa TypedefNameDecl VisitTypedefNameDecl d si in
  let si := whenIsa TypeAliasDecl VisitTypeAliasDecl d si in
  let si := whenIsa TypeAliasTemplateDecl VisitTypeAliasTemplateDecl d si in
  let si := whenIsa ValueDecl VisitValueDecl d si in
  let si := whenIsa VarDecl VisitVarDecl d si in
  let si := whenIsa FieldDecl VisitFieldDecl d si in
  let si := whenIsa FunctionDecl VisitFunctionDecl d si in
  let si := whenIsa CXXMethodDecl VisitCXXMethodDecl d si in
  let si := whenIsa FunctionTemplateDecl VisitFunctionTemplateDecl d si in
  let si := whenIsa ClassTemplateDecl VisitClassTemplateDecl d si in
  let si := whenIsa CXXRecordDecl VisitCXXRecordDecl d si in
  let si := whenIsa ClassTemplateSpecializationDecl
              VisitClassTemplateSpecializationDecl d si in
  whenIsa TemplateTypeParmDecl VisitTemplateTypeParmDecl d si.

Definition typeOfSourceInfo (tsi : option (option TypePtr))
    (current : option Decl) (si : SourceInfo) : SourceInfo :=
  match tsi with
  | Some ty => insertReferenceToType current ty si
  | None => si
  end.

(** The statement hooks; [current] is [getCurrentDecl()]. *)
Definition VisitCallExpr (callee : option CalleeClass)
    (calleeDecl : option Decl) (current : option Decl) (si : SourceInfo)
  : SourceInfo :=
  match callee, calleeDecl with
  | None, _ | _, None => si
  | Some UnresolvedMemberExpr, _ | Some CXXDependentScopeMemberExpr, _ => si
  | Some OtherCallee, Some _ => insertReference current calleeDecl si
  end.

Definition VisitDeclRefExpr (decl : option Decl)
    (qualifier : list (option TypePtr)) (parent : option Decl)
    (si : SourceInfo) : SourceInfo :=
  let si := insertReference parent decl si in
  fold_left (fun s specifier => insertReferenceToType parent specifier s)
    qualifier si.

Definition VisitStmt (s : Stmt) (current : option Decl) (si : SourceInfo)
  : SourceInfo :=
  match s with
  | CallExpr callee calleeDecl => VisitCallExpr callee calleeDecl current si
  | CXXConstructExpr constructor => insertReference current constructor si
  | CXXTemporaryObjectExpr constructor tsi =>
      typeOfSourceInfo tsi current (insertReference current constructor si)
  | CXXNewExpr allocatedType => insertReferenceToType current allocatedType si
  | DeclRefExpr decl qualifier => VisitDeclRefExpr decl qualifier current si
  | CXXScalarValueInitExpr tsi => typeOfSourceInfo tsi current si
  | ExplicitCastExpr typeAsWritten =>
      insertReferenceToType current typeAsWritten si
  | MemberExpr memberDecl => insertReference current memberDecl si
  | LambdaExpr callOperator => insertReference current callOperator si
  | UnaryExprOrTypeTraitExpr isArgumentType argumentType =>
      if isArgumentType
      then insertReferenceToType current argumentType si
      else si
  | OtherStmt => si
  end.

(** [TraverseDecl] pushes the declaration, visits it and what lies below
    it, and pops it again; statements are visited under the declaration
    on top of the stack. *)
Fixpoint Traverse (n : Node) (c : t) : t :=
  match n with
  | DeclNode decl children =>
      let c := mk (srcInfo c) (decl :: declStack c) in
      let c := onSrcInfo (WalkUpFromDecl decl) c in
      let c := fold_left (fun c child => Traverse child c) children c in
      mk (srcInfo c) (tail (declStack c))
  | StmtNode s children =>
      let c := onSrcInfo (VisitStmt s (getCurrentDecl c)) c in
      fold_left (fun c child => Traverse child c) children c
  end.

(** The collector as [HandleTranslationUnit] runs it: a fresh visitor
    over a fresh [SourceInfo], started at the translation unit. *)
Definition collect (translationUnit : Node) : SourceInfo :=
  srcInfo (Traverse translationUnit (mk emptySourceInfo [])).

End WithFrontEnd.

End DependenciesCollector.

(** ** UsageInfo *)

Module UsageInfo.

Record t := mk {
  usedDecls : gset Decl;
  (* std::set<SourceRange, SourceRangeComparer>, in insertion order *)
  locationsOfUsedDecls : list SourceRange
}.

Definition create : t := mk ∅ [].

Section WithFrontEnd.
Context (sourceManager : SourceManager) (ctx : ASTContext).

(** Modelled from the spec: the comparers are declared in SmartRewriter.h
    and defined in SmartRewriter.cpp, which is missing.  Locations are
    compared by translation-unit order, ranges by (begin, end). *)
Definition SourceLocationComparer (lhs rhs : SourceLocation) : bool :=
  isBeforeInTranslationUnit sourceManager lhs rhs.

Definition SourceRangeComparer (lhs rhs : SourceRange) : bool :=
  SourceLocationComparer (getBegin lhs) (getBegin rhs)
  || (negb (SourceLocationComparer (getBegin rhs) (getBegin lhs))
      && SourceLocationComparer (getEnd lhs) (getEnd rhs)).

(** Two keys of a [std::set] are the same key when neither is ordered
    before the other. *)
Definition sameKey (a b : SourceRange) : bool :=
  negb (SourceRangeComparer a b) && negb (SourceRangeComparer b a).

(** [locationsOfUsedDecls.find(range) != end()] *)
Definition findRange (r : SourceRange) (l : list SourceRange) : bool :=
  existsb (sameKey r) l.

Definition getSourceRange (decl : Decl) : SourceRange :=
  getExpansionRange ctx decl.

Definition isUsed (u : t) (decl : Decl) : bool :=
  if bool_decide (decl ∈ usedDecls u) then true
  else findRange (getSourceRange decl) (locationsOfUsedDecls u).

Definition addIfInMainFile (decl : Decl) (u : t) : t :=
  let range := getSourceRange decl in
  if isInMainFile sourceManager (getBegin range)
  then mk ({[decl]} ∪ usedDecls u)
          (if findRange range (locationsOfUsedDecls u)
           then locationsOfUsedDecls u
           else locationsOfUsedDecls u ++ [range])
  else u.
End WithFrontEnd.

End UsageInfo.

(** ** OptimizerVisitor *)

Module OptimizerVisitor.

Record t := mk {
  declared : gset Decl;
  usedNamespaces : gset Decl;
  rewriter : SmartRewriter.t
}.

Definition create (rw : SmartRewriter.t) : t := mk ∅ ∅ rw.

Section WithFrontEnd.
Context (sourceManager : SourceManager) (ctx : ASTContext)
        (usageInfo : UsageInfo.t).

#[local] Abbreviation isUsed := (UsageInfo.isUsed sourceManager ctx usageInfo).
#[local] Abbreviation inMainFile d :=
  (isInMainFile sourceManager (getLocStart (declInfo ctx d))).

Definition removeDecl (decl : option Decl) (v : t) : t :=
  match decl with
  | None => v
  | Some decl =>
      let start := getExpansionStart (declInfo ctx decl) in
      let end_ := getExpansionEnd (declInfo ctx decl) in
      let semicolonAfterDefinition := findSemiAfterLocation ctx end_ in
      let end_ := if isValid semicolonAfterDefinition
                  then semicolonAfterDefinition else end_ in
      let opts := setRemoveLineIfEmpty true defaultRewriteOptions in
      let rw := (SmartRewriter.removeRange sourceManager (rewriter v)
                   (mkSourceRange start end_) opts).2 in
      let rw :=
        match getRawCommentForDeclNoCache (declInfo ctx decl) with
        | Some comment =>
            (SmartRewriter.removeRange sourceManager rw
               (getSourceRange comment) opts).2
        | None => rw
        end in
      mk (declared v) (usedNamespaces v) rw
  end.

Definition declare (d : Decl) (v : t) : t :=
  mk ({[d]} ∪ declared v) (usedNamespaces v) (rewriter v).

Definition VisitEmptyDecl (decl : Decl) (v : t) : t :=
  if inMainFile decl then removeDecl (Some decl) v else v.

Definition VisitNamespaceDecl (namespaceDecl : Decl) (v : t) : t :=
  if inMainFile namespaceDecl && negb (isUsed namespaceDecl)
  then removeDecl (Some namespaceDecl) v else v.

Definition needToRemoveFunction (functionDecl : Decl) (v : t) : bool :=
  let fi := asFunction (declInfo ctx functionDecl) in
  if isExplicitlyDefaulted fi || isDeleted fi then false
  else
    let canonicalDecl := canonical ctx functionDecl in
    let funcIsUnused := negb (isUsed canonicalDecl) in
    let thisIsRedeclaration :=
      negb (doesThisDeclarationHaveABody fi)
      && bool_decide (canonicalDecl ∈ declared v) in
    funcIsUnused || thisIsRedeclaration.

Definition VisitFunctionDecl (functionDecl : Decl) (v : t) : t :=
  if negb (inMainFile functionDecl) then v
  else
    let v := if needToRemoveFunction functionDecl v
             then removeDecl (Some functionDecl) v else v in
    declare (canonical ctx functionDecl) v.

Definition VisitFunctionTemplateDecl (templateDecl : Decl) (v : t) : t :=
  if negb (inMainFile templateDecl) then v
  else
    match getTemplatedDecl (asTemplate (declInfo ctx templateDecl)) with
    | None => v (* a function template always has its templated decl *)
    | Some functionDecl =>
        let processAsCXXMethod :=
          isBeforeInTranslationUnit sourceManager
            (getExpansionStart (declInfo ctx functionDecl))
            (getExpansionStart (declInfo ctx templateDecl)) in
        if processAsCXXMethod then v
        else if needToRemoveFunction functionDecl v
             then removeDecl (Some templateDecl) v else v
    end.

Definition VisitCXXRecordDecl (recordDecl : Decl) (v : t) : t :=
  if negb (inMainFile recordDecl) then v
  else
    let r := asRecord (declInfo ctx recordDecl) in
    let isTemplated := bool_decide (getDescribedClassTemplate r ≠ None) in
    let specKind := getTemplateSpecializationKind r in
    if isTemplated && (bool_decide (specKind = TSK_ImplicitInstantiation)
                       || bool_decide (specKind = TSK_Undeclared))
    then v
    else
      let canonicalDecl := canonical ctx recordDecl in
      let classIsUnused := negb (isUsed canonicalDecl) in
      let thisIsRedeclaration :=
        negb (isCompleteDefinition r)
        && bool_decide (canonicalDecl ∈ declared v) in
      let v := if classIsUnused || thisIsRedeclaration
               then removeDecl (Some recordDecl) v else v in
      declare canonicalDecl v.

Definition VisitClassTemplateDecl (templateDecl : Decl) (v : t) : t :=
  if negb (inMainFile templateDecl) then v
  else
    let canonicalDecl := canonical ctx templateDecl in
    let classIsUnused := negb (isUsed canonicalDecl) in
    let thisIsRedeclaration :=
      negb (isThisDeclarationADefinition (asTemplate (declInfo ctx templateDecl)))
      && bool_decide (canonicalDecl ∈ declared v) in
    let v := if classIsUnused || thisIsRedeclaration
             then removeDecl (Some templateDecl) v else v in
    declare canonicalDecl v.

Definition VisitTypedefDecl (typedefDecl : Decl) (v : t) : t :=
  if negb (inMainFile typedefDecl) then v
  else if negb (isUsed (canonical ctx typedefDecl))
       then removeDecl (Some typedefDecl) v else v.

Definition VisitTypeAliasDecl (aliasDecl : Decl) (v : t) : t :=
  if negb (inMainFile aliasDecl) then v
  else
    match getDescribedAliasTemplate (asTypedef (declInfo ctx aliasDecl)) with
    | Some _ => v (* processed as TypeAliasTemplateDecl *)
    | None =>
        if negb (isUsed (canonical ctx aliasDecl))
        then removeDecl (Some aliasDecl) v else v
    end.

Definition VisitTypeAliasTemplateDecl (aliasDecl : Decl) (v : t) : t :=
  if negb (inMainFile aliasDecl) then v
  else if negb (isUsed aliasDecl)
       then removeDecl (Some aliasDecl) v else v.

Definition VisitUsingDirectiveDecl (usingDecl : Decl) (v : t) : t :=
  if negb (inMainFile usingDecl) then v
  else
    match getNominatedNamespace (declInfo ctx usingDecl) with
    | None => v
    | Some ns =>
        (* usedNamespaces.insert(ns).second is false when ns was there *)
        if bool_decide (ns ∈ usedNamespaces v)
        then removeDecl (Some usingDecl) v
        else mk (declared v) ({[ns]} ∪ usedNamespaces v) (rewriter v)
    end.

Definition whenIsa (cls : DeclClass) (visit : Decl → t → t) (d : Decl)
    (v : t) : t :=
  if isa ctx cls d then visit d v else v.

Definition WalkUpFromDecl (d : Decl) (v : t) : t :=
  let v := whenIsa EmptyDecl VisitEmptyDecl d v in
  let v := whenIsa NamespaceDecl VisitNamespaceDecl d v in
  let v := whenIsa FunctionDecl VisitFunctionDecl d v in
  let v := whenIsa FunctionTemplateDecl VisitFunctionTemplateDecl d v in
  let v := whenIsa CXXRecordDecl VisitCXXRecordDecl d v in
  let v := whenIsa ClassTemplateDecl VisitClassTemplateDecl d v in
  let v := whenIsa TypedefDecl VisitTypedefDecl d v in
  let v := whenIsa TypeAliasDecl VisitTypeAliasDecl d v in
  let v := whenIsa TypeAliasTemplateDecl VisitTypeAliasTemplateDecl d v in
  whenIsa UsingDirectiveDecl VisitUsingDirectiveDecl d v.

Fixpoint Traverse (n : Node) (v : t) : t :=
  match n with
  | DeclNode decl children =>
      fold_left (fun v child => Traverse child v) children
        (WalkUpFromDecl decl v)
  | StmtNode _ children =>
      fold_left (fun v child => Traverse child v) children v
  end.

(** The visitor's state once it has walked over the given declarations. *)
Definition visitAll (decls : list Decl) (v : t) : t :=
  fold_left (fun v d => WalkUpFromDecl d v) decls v.

End WithFrontEnd.

End OptimizerVisitor.


(** ** Sema: the part of its state that late template parsing touches *)

Module Sema.

Record t := mk {
  (* getDiagnostics().getSuppressAllDiagnostics() *)
  suppressAllDiagnostics : bool;
  (* the late-parsed templates whose bodies have been parsed *)
  parsedLateTemplates : list Decl
}.

Definition setSuppressAllDiagnostics (b : bool) (s : t) : t :=
  mk b (parsedLateTemplates s).

End Sema.

(** How a call leaves: it returns, or an exception propagates out of it.
    Either way the state it reached is the caller's state from then on. *)
Inductive Completion (A : Type) :=
  | Returns (a : A)
  | Throws (a : A).
Arguments Returns {A} a.
Arguments Throws {A} a.

Definition stateOf {A} (c : Completion A) : A :=
  match c with Returns a | Throws a => a end.

(** ** OptimizerConsumer *)

Module OptimizerConsumer.

(** The local variables of the reachability loop of
    [HandleTranslationUnit], with the two members it updates. *)
Record Search := mkSearch {
  used : gset Decl;
  queue : gset Decl;
  uses' : gmap Decl (gset Decl);
  usageInfo : UsageInfo.t
}.

(** [*queue.begin()]: the least pointer of the set. *)
Definition begin (s : gset Decl) : option Decl :=
  match elements s with
  | [] => None
  | x :: l => Some (fold_right Pos.min x l)
  end.

Section WithFrontEnd.
Context (sourceManager : SourceManager) (ctx : ASTContext).

(** The late-template forcing of [HandleTranslationUnit]: the callback
    [LateTemplateParser] is the front-end's; the loop stops where it
    throws. *)
Fixpoint forEachDelayed (LateTemplateParser : Decl → Sema.t → Completion Sema.t)
    (fs : list Decl) (sema : Sema.t) : Completion Sema.t :=
  match fs with
  | [] => Returns sema
  | f :: fs =>
      match LateTemplateParser f sema with
      | Returns sema => forEachDelayed LateTemplateParser fs sema
      | Throws sema => Throws sema
      end
  end.

Definition forceDelayedParsing
    (LateTemplateParser : Decl → Sema.t → Completion Sema.t)
    (srcInfo : SourceInfo) (sema : Sema.t) : Completion Sema.t :=
  let sema := Sema.setSuppressAllDiagnostics true sema in
  match forEachDelayed LateTemplateParser (delayedParsedFunctions srcInfo) sema with
  | Returns sema => Returns (Sema.setSuppressAllDiagnostics false sema)
  | Throws sema => Throws sema
  end.

(** The queue as it is seeded from [declsToKeep]. *)
Definition initialQueue (srcInfo : SourceInfo) : gset Decl :=
  set_map (fun decl => if isa ctx NamespaceDecl decl then decl
                       else canonical ctx decl) (declsToKeep srcInfo).

Definition startSearch (srcInfo : SourceInfo) : Search :=
  mkSearch ∅ (initialQueue srcInfo) (uses srcInfo) UsageInfo.create.

(** The body of the while loop for the declaration taken off the queue. *)
Definition visitQueued (decl : Decl) (s : Search) : Search :=
  let queue := queue s ∖ {[decl]} in
  if bool_decide (decl ∈ used s)
  then mkSearch (used s) queue (uses' s) (usageInfo s)
  else
    let used := {[decl]} ∪ used s in
    (* srcInfo.uses[decl] creates an empty entry when there is none *)
    let successors := default ∅ (uses' s !! decl) in
    let uses := <[decl := successors]> (uses' s) in
    let queue := queue ∪ successors in
    let usageInfo := UsageInfo.addIfInMainFile sourceManager ctx decl (usageInfo s) in
    let queue :=
      match dyn_cast_or_null ctx CXXRecordDecl (Some decl) with
      | Some record =>
          match getDestructor (asRecord (declInfo ctx record)) with
          | Some destructor => {[destructor]} ∪ queue
          | None => queue
          end
      | None => queue
      end in
    mkSearch used queue uses usageInfo.

(** The while loop, run for at most [fuel] iterations; [None] when the
    queue is not empty by then. *)
Fixpoint searchLoop (fuel : nat) (s : Search) : option Search :=
  match begin (queue s) with
  | None => Some s
  | Some decl =>
      match fuel with
      | O => None
      | S fuel => searchLoop fuel (visitQueued decl s)
      end
  end.

Definition findUsedDecls (fuel : nat) (srcInfo : SourceInfo) : option Search :=
  searchLoop fuel (startSearch srcInfo).

(** The declarations the loop can ever meet: the roots, the vertices of
    [uses], and the destructors of the records among them. *)
Definition graphVertices (srcInfo : SourceInfo) : gset Decl :=
  initialQueue srcInfo ∪ dom (uses srcInfo)
  ∪ ⋃ (map_to_list (uses srcInfo)).*2.

Definition destructorsOf (vs : gset Decl) : gset Decl :=
  list_to_set
    (omap (fun d => dyn_cast_or_null ctx CXXRecordDecl (Some d)
                    ≫= fun record => getDestructor (asRecord (declInfo ctx record)))
          (elements vs)).

Definition universe (srcInfo : SourceInfo) : gset Decl :=
  graphVertices srcInfo ∪ destructorsOf (graphVertices srcInfo).

(** A number of iterations that always suffices. *)
Definition searchBound (srcInfo : SourceInfo) : nat :=
  let n := size (universe srcInfo) in n * S n + n.

(** *** removeUnusedVariables *)

(** The first loop: fills [isUsed] and finds [lastUsed]. *)
Definition markUsage (u : UsageInfo.t) (vars : list Decl)
  : list bool * nat :=
  let n := length vars in
  fold_left
    (fun (acc : list bool * nat) i =>
       match vars !! i with
       | Some var =>
           let b := UsageInfo.isUsed sourceManager ctx u (canonical ctx var) in
           (<[i := b]> acc.1, if b then i else acc.2)
       | None => acc
       end)
    (seq 0 n) (replicate n true, n).

Definition removeUnusedGroup (u : UsageInfo.t) (startOfType : SourceLocation)
    (vars : list Decl) (rw : SmartRewriter.t) : SmartRewriter.t :=
  let opts := setRemoveLineIfEmpty true defaultRewriteOptions in
  let n := length vars in
  let '(isUsed, lastUsed) := markUsage u vars in
  match last vars with
  | None => rw (* vars.back() of an empty vector: no group is empty *)
  | Some lastVar =>
      let endOfLastVar := getExpansionEnd (declInfo ctx lastVar) in
      if bool_decide (lastUsed = n) then
        (* all variables are unused *)
        let semiColon := findSemiAfterLocation ctx endOfLastVar in
        (SmartRewriter.removeRange sourceManager rw
           (mkSourceRange startOfType semiColon) opts).2
      else
        let rw :=
          fold_left
            (fun rw i =>
               match isUsed !! i, vars !! i with
               | Some false, Some var =>
                   (* beginning of variable name *)
                   let beg := getLocation (declInfo ctx var) in
                   (* end of initializer *)
                   let end_ := getExpansionEnd (declInfo ctx var) in
                   let end_ := if bool_decide (i + 1 < n)
                               then findTokenAfterLocation ctx end_ tok_comma
                               else end_ in
                   if isValid beg && isValid end_
                   then (SmartRewriter.removeRange sourceManager rw
                           (mkSourceRange beg end_) opts).2
                   else rw
               | _, _ => rw
               end)
            (seq 0 lastUsed) rw in
        if bool_decide (lastUsed + 1 ≠ n) then
          (* clear all remaining variables, starting with comma *)
          match vars !! lastUsed with
          | Some var =>
              let end_ := getExpansionEnd (declInfo ctx var) in
              let comma := findTokenAfterLocation ctx end_ tok_comma in
              (SmartRewriter.removeRange sourceManager rw
                 (mkSourceRange comma endOfLastVar) opts).2
          | None => rw
          end
        else rw
  end.

(** The groups in the order of [std::map<SourceLocation, ...>]: by the
    raw encoding of the key. *)
Definition keyOrder (a b : SourceLocation * list Decl) : Prop :=
  (a.1 ≤ b.1)%N.

#[local] Instance keyOrder_dec : RelDecision keyOrder.
Proof. intros a b. unfold keyOrder. apply _. Defined.

Definition groupsInOrder (srcInfo : SourceInfo)
  : list (SourceLocation * list Decl) :=
  merge_sort keyOrder (map_to_list (staticVariables srcInfo)).

Definition removeUnusedVariables (srcInfo : SourceInfo) (u : UsageInfo.t)
    (rw : SmartRewriter.t) : SmartRewriter.t :=
  fold_left (fun rw kv => removeUnusedGroup u kv.1 kv.2 rw)
    (groupsInOrder srcInfo) rw.

(** *** getResult *)

(** [rewriteBuf] is [smartRewriter.getRewriteBufferFor(mainFileID)]: the
    edited text, or null when the rewriter holds no buffer for the file. *)
Definition getResult (rewriteBuf : option string) : string :=
  match rewriteBuf with
  | Some text => text
  | None =>
      (* No changes *)
      let buf := getMainFileBuffer sourceManager in
      match bufferContents buf with
      | Some text => if negb (bufferInvalid buf) then text else "Inliner error"
      | None => "Inliner error" (* something's wrong *)
      end
  end.

End WithFrontEnd.

End OptimizerConsumer.

(** ** Optimizer *)

Module Optimizer.

Inductive exception :=
  | runtime_error (what : string).

(** [tool.run(&factory)]: the status of the run and what the consumer left
    in [result], which starts out as the string given. *)
Definition ToolRun := string → Z * string.

Definition doOptimize (run : ToolRun) : exception + string :=
  let result := "" in
  let '(ret, result) := run result in
  if bool_decide (ret ≠ 0%Z)
  then inl (runtime_error "Compilation error")
  else inr result.

(** A run in which the consumer handled the translation unit: it stores
    [getResult()] in [result]; the tool then reports [ret]. *)
Definition consumerRun (sourceManager : SourceManager)
    (rewriteBuf : option string) (ret : Z) : ToolRun :=
  fun _ => (ret, OptimizerConsumer.getResult sourceManager rewriteBuf).

End Optimizer.

(** ** Vocabulary of the properties *)

(** What each visit of the collector's traversal does only depends on the
    node and on the declaration on top of the stack, so the traversal can be
    listed: the nodes in visiting order, statements with their current
    declaration. *)
Inductive Visit :=
  | VisitedDecl (d : Decl)
  | VisitedStmt (s : Stmt) (current : option Decl).

Fixpoint visits (n : Node) (stack : list Decl) : list Visit :=
  match n with
  | DeclNode d children =>
      VisitedDecl d :: flat_map (fun c => visits c (d :: stack)) children
  | StmtNode s children =>
      VisitedStmt s (head stack) :: flat_map (fun c => visits c stack) children
  end.

Section Vocabulary.
Context (sourceManager : SourceManager) (ctx : ASTContext).

Definition applyVisit (v : Visit) (si : SourceInfo) : SourceInfo :=
  match v with
  | VisitedDecl d => DependenciesCollector.WalkUpFromDecl sourceManager ctx d si
  | VisitedStmt s current => DependenciesCollector.VisitStmt ctx s current si
  end.

(** The types that the walk over the type [t] recurses into: the operands
    of its class, and the bases that [walkBases] visits. *)
Definition classOperands (cls : TypeClass) : list (option TypePtr) :=
  match cls with
  | ElaboratedType t | ParenType t | ArrayType t | PointerType t
  | ReferenceType t => [t]
  | TemplateSpecializationType _ args =>
      flat_map (fun arg => match arg with
                           | TypeArgument t => [t]
                           | OtherArgument => []
                           end) args
  | TypedefType _ | OtherType => []
  end.

Definition walkedBases (t : TypePtr) : list (option TypePtr) :=
  match getAsCXXRecordDecl (typeInfo ctx t) with
  | Some recordDecl =>
      match getDefinition (asRecord (declInfo ctx recordDecl)) with
      | Some recordDecl =>
          let r := asRecord (declInfo ctx recordDecl) in
          if bool_decide (getDescribedClassTemplate r ≠ None)
             && (bool_decide (getTemplateSpecializationKind r = TSK_ImplicitInstantiation)
                 || bool_decide (getTemplateSpecializationKind r = TSK_Undeclared))
          then []
          else bases r
      | None => []
      end
  | None => []
  end.

Definition components (t : TypePtr) : list (option TypePtr) :=
  classOperands (getTypeClass (typeInfo ctx t)) ++ walkedBases t.

(** [T] holds the types of the context: no more than [numTypes], and with
    a type all the types it is made from. *)
Definition typesOfContext (T : gset TypePtr) : Prop :=
  size T ≤ numTypes ctx
  ∧ ∀ t c, t ∈ T → Some c ∈ components t → c ∈ T.

(** A vertex that is its own canonical declaration, or a namespace. *)
Definition canonicalOrNamespace (d : Decl) : Prop :=
  isa ctx NamespaceDecl d = true ∨ canonical ctx d = d.

(** [d] occurs in the map, as a key or inside one of the values. *)
Definition vertexOf (u : gmap Decl (gset Decl)) (d : Decl) : Prop :=
  is_Some (u !! d) ∨ ∃ a s, u !! a = Some s ∧ d ∈ s.

(** Every vertex of [uses] is canonical or a namespace. *)
Definition verticesCanonical (si : SourceInfo) : Prop :=
  ∀ d, vertexOf (uses si) d → canonicalOrNamespace d.

(** The edge [a -> b] is in the map. *)
Definition hasEdge (u : gmap Decl (gset Decl)) (a b : Decl) : Prop :=
  ∃ s, u !! a = Some s ∧ b ∈ s.

(** The endpoint that [insertReference] stores for [d]. *)
Definition endpoint (d : Decl) : Decl :=
  if isa ctx NamespaceDecl d then d else canonical ctx d.

(** [text] contains [needle] as a substring. *)
Definition containsSubstring (needle text : list ascii) : Prop :=
  ∃ before after, text = before ++ needle ++ after.

(** What [VisitDecl] builds its haystack from, as the code computes it:
    the string at the start pointer with the length the code gives it, when
    the source manager can produce both pointers. *)
Definition commentText (comment : RawComment) : option (list ascii) :=
  let b := getCharacterData sourceManager (commentLocStart comment) in
  let e := getCharacterData sourceManager (commentLocEnd comment) in
  match dataPtr b, dataPtr e with
  | Some beg, Some end_ =>
      if dataInvalid b || dataInvalid e then None
      else Some (DependenciesCollector.StringRef sourceManager beg
                   (DependenciesCollector.distance beg end_))
  | _, _ => None
  end.

(** A function declaration for which [isMain] holds. *)
Definition isMainFunction (d : Decl) : Prop :=
  isa ctx FunctionDecl d = true ∧ isMain (asFunction (declInfo ctx d)) = true.

(** The characters of the file at the positions from [beg] to [end_], both
    included; there are none when [end_] lies before [beg]. *)
Definition charactersFromTo (beg end_ : nat) : list ascii :=
  map (charAt sourceManager) (seq beg (S end_ - beg)).

(** A declaration that starts in the main file ([isInMainFile] resolves its
    argument to the expansion location) and that has a raw comment whose
    text contains "caide keep".  The text of the comment is the characters
    of the file from the comment's first character to its last one, both
    valid positions for the source manager. *)
Definition markedCaideKeep (d : Decl) : Prop :=
  isInMainFile sourceManager (getLocStart (declInfo ctx d)) = true
  ∧ ∃ comment first last,
      getRawCommentForDeclNoCache (declInfo ctx d) = Some comment
      ∧ dataPtr (getCharacterData sourceManager (commentLocStart comment))
        = Some first
      ∧ dataInvalid (getCharacterData sourceManager (commentLocStart comment))
        = false
      ∧ dataPtr (getCharacterData sourceManager (commentLocEnd comment))
        = Some last
      ∧ dataInvalid (getCharacterData sourceManager (commentLocEnd comment))
        = false
      ∧ containsSubstring (String.list_ascii_of_string "caide keep")
          (charactersFromTo first last).

End Vocabulary.

(** ** Vocabulary of the reachability loop *)

Section SearchVocabulary.
Context (sourceManager : SourceManager) (ctx : ASTContext).

(** The destructor that the loop enqueues for a declaration, if any. *)
Definition destructorOfRecord (d : Decl) : option Decl :=
  if isa ctx CXXRecordDecl d
  then getDestructor (asRecord (declInfo ctx d)) else None.

(** Every used class record has its destructor used or waiting in the
    queue. *)
Definition destructorsFollow (s : OptimizerConsumer.Search) : Prop :=
  ∀ record destructor,
    record ∈ OptimizerConsumer.used s →
    destructorOfRecord record = Some destructor →
    destructor ∈ OptimizerConsumer.used s ∪ OptimizerConsumer.queue s.

(** Every used declaration whose range starts in the main file is recorded
    in the usage info. *)
Definition usageRecorded (s : OptimizerConsumer.Search) : Prop :=
  ∀ d, d ∈ OptimizerConsumer.used s →
       isInMainFile sourceManager (getExpansionStart (declInfo ctx d)) = true →
       d ∈ UsageInfo.usedDecls (OptimizerConsumer.usageInfo s).

(** The loop stays inside a finite set [U] of declarations. *)
Definition staysWithin (U : gset Decl) (s : OptimizerConsumer.Search) : Prop :=
  OptimizerConsumer.used s ⊆ U
  ∧ OptimizerConsumer.queue s ⊆ U
  ∧ (∀ d succ, OptimizerConsumer.uses' s !! d = Some succ → succ ⊆ U)
  ∧ (∀ d x, d ∈ U → destructorOfRecord d = Some x → x ∈ U).

(** What is left to do: the declarations not yet used weigh more than any
    queue. *)
Definition searchMeasure (U : gset Decl) (s : OptimizerConsumer.Search) : nat :=
  size (U ∖ OptimizerConsumer.used s) * S (size U)
  + size (OptimizerConsumer.queue s).

End SearchVocabulary.

(** ** Vocabulary of the optimizer visitor *)

Section VisitorVocabulary.
Context (sourceManager : SourceManager) (ctx : ASTContext).


(** The options every removal of the optimizer is submitted with. *)
Definition removeEmptyLines : RewriteOptions :=
  setRemoveLineIfEmpty true defaultRewriteOptions.

(** The end of the range removed for a declaration: the semicolon right
    after its expansion end when there is one, else the expansion end. *)
Definition endThroughSemicolon (decl : Decl) : SourceLocation :=
  let end_ := getExpansionEnd (declInfo ctx decl) in
  if isValid (findSemiAfterLocation ctx end_)
  then findSemiAfterLocation ctx end_ else end_.

(** The ranges that the removal protocol submits for a declaration. *)
Definition removalRequests (decl : Decl) : list RewriteItem :=
  mkRewriteItem
    (mkSourceRange (getExpansionStart (declInfo ctx decl)) (endThroughSemicolon decl))
    removeEmptyLines
  :: match getRawCommentForDeclNoCache (declInfo ctx decl) with
     | Some comment => [mkRewriteItem (getSourceRange comment) removeEmptyLines]
     | None => []
     end.

End VisitorVocabulary.

(** ** Vocabulary of the comma-group pruner *)

Section PrunerVocabulary.
Context (sourceManager : SourceManager) (ctx : ASTContext) (u : UsageInfo.t).

(** [isUsed[i]] for the variable at index [i]. *)
Definition variableUsed (var : Decl) : bool :=
  UsageInfo.isUsed sourceManager ctx u (canonical ctx var).

(** The index of the last [true] among flags numbered from [i]. *)
Fixpoint lastTrueFrom (i : nat) (flags : list bool) : option nat :=
  match flags with
  | [] => None
  | b :: rest =>
      match lastTrueFrom (S i) rest with
      | Some j => Some j
      | None => if b then Some i else None
      end
  end.

(** [lastUsed]: the index of the last used variable, or [n] if none is. *)
Definition lastUsedIndex (vars : list Decl) : nat :=
  default (length vars) (lastTrueFrom 0 (variableUsed <$> vars)).

(** From the variable's name to the comma that follows its end. *)
Definition variableRange (var : Decl) : SourceRange :=
  mkSourceRange (getLocation (declInfo ctx var))
    (findTokenAfterLocation ctx (getExpansionEnd (declInfo ctx var)) tok_comma).

Definition rangeIsValid (r : SourceRange) : bool :=
  isValid (getBegin r) && isValid (getEnd r).

(** From the shared type start to the terminating semicolon. *)
Definition wholeGroupRange (startOfType : SourceLocation) (vars : list Decl)
  : list SourceRange :=
  match last vars with
  | Some lastVar =>
      [mkSourceRange startOfType
         (findSemiAfterLocation ctx (getExpansionEnd (declInfo ctx lastVar)))]
  | None => []
  end.

(** From the comma after variable [lastUsed] to the end of the last
    variable, if [lastUsed + 1 < n]. *)
Definition trailingRange (vars : list Decl) : list SourceRange :=
  match vars !! lastUsedIndex vars, last vars with
  | Some var, Some lastVar =>
      if bool_decide (lastUsedIndex vars + 1 < length vars)
      then [mkSourceRange
              (findTokenAfterLocation ctx (getExpansionEnd (declInfo ctx var)) tok_comma)
              (getExpansionEnd (declInfo ctx lastVar))]
      else []
  | _, _ => []
  end.

(** The removals as the specification words them: one for every unused
    variable before [lastUsed]. *)
Definition specifiedRanges (startOfType : SourceLocation) (vars : list Decl)
  : list SourceRange :=
  if bool_decide (lastUsedIndex vars = length vars)
  then wholeGroupRange startOfType vars
  else
    flat_map (fun var => if variableUsed var then [] else [variableRange var])
      (take (lastUsedIndex vars) vars)
    ++ trailingRange vars.

(** The same, with an unused variable left alone when its name location or
    the comma after it is not a valid location. *)
Definition guardedRanges (startOfType : SourceLocation) (vars : list Decl)
  : list SourceRange :=
  if bool_decide (lastUsedIndex vars = length vars)
  then wholeGroupRange startOfType vars
  else
    flat_map (fun var => if variableUsed var then []
                         else if rangeIsValid (variableRange var)
                              then [variableRange var] else [])
      (take (lastUsedIndex vars) vars)
    ++ trailingRange vars.

(** The group is comma separated: every variable but the last has a name
    at a valid location and a comma right after its end. *)
Definition commaSeparated (vars : list Decl) : Prop :=
  Forall (fun var => rangeIsValid (variableRange var) = true)
    (take (length vars - 1) vars).

Definition asRemovals (ranges : list SourceRange) : list RewriteItem :=
  map (fun r => mkRewriteItem r (setRemoveLineIfEmpty true defaultRewriteOptions))
    ranges.

End PrunerVocabulary.

(** ** Vocabulary of the dependency graph and of its traversal *)

Section GraphVocabulary.
Context (sourceManager : SourceManager) (ctx : ASTContext).

(** The edge [a -> b] is in the map, as a test. *)
Definition hasEdgeb (u : gmap Decl (gset Decl)) (a b : Decl) : bool :=
  bool_decide (b ∈ default ∅ (u !! a)).

(** The declaration that a statement's hook links the current declaration
    to: the callee of a call whose callee expression is resolved, the
    constructor, the referenced declaration, the member, the call operator
    of a lambda. *)
Definition referencedDecl (s : Stmt) : option Decl :=
  match s with
  | CallExpr (Some OtherCallee) calleeDecl => calleeDecl
  | CXXConstructExpr constructor => constructor
  | CXXTemporaryObjectExpr constructor _ => constructor
  | DeclRefExpr decl _ => decl
  | MemberExpr memberDecl => memberDecl
  | LambdaExpr callOperator => callOperator
  | _ => None
  end.

(** A function that starts in the main file and whose body is parsed
    late. *)
Definition isDelayedParsed (d : Decl) : bool :=
  isa ctx FunctionDecl d
  && (isInMainFile sourceManager (getLocStart (declInfo ctx d))
      && isLateTemplateParsed (asFunction (declInfo ctx d))).

(** A variable that is neither local nor a parameter and whose expansion
    starts at [start], in the main file. *)
Definition isStaticVariableAt (start : SourceLocation) (d : Decl) : bool :=
  isa ctx VarDecl d
  && (negb (isLocalVarDeclOrParm (asValue (declInfo ctx d)))
      && isInMainFile sourceManager (getExpansionStart (declInfo ctx d)))
  && bool_decide (getExpansionStart (declInfo ctx d) = start).

(** The types that the walk over [t] continues with: the named type of an
    elaborated type, and for the other classes the operands and the walked
    bases. *)
Definition walkedTypes (t : TypePtr) : list (option TypePtr) :=
  match getTypeClass (typeInfo ctx t) with
  | ElaboratedType named => [named]
  | cls => classOperands cls ++ walkedBases ctx t
  end.

(** The declarations that the type [t] names itself: its tag declaration
    (not looked at for an elaborated type), the declaration of a typedef
    type, the template of a template specialization type. *)
Inductive namesDecl (t : TypePtr) (d : Decl) : Prop :=
  | names_tag :
      (∀ named, getTypeClass (typeInfo ctx t) ≠ ElaboratedType named) →
      getAsTagDecl (typeInfo ctx t) = Some d → namesDecl t d
  | names_typedef :
      getTypeClass (typeInfo ctx t) = TypedefType (Some d) → namesDecl t d
  | names_template args :
      getTypeClass (typeInfo ctx t) = TemplateSpecializationType (Some d) args →
      namesDecl t d.

(** The type [t] mentions the declaration [d]: it names it, or a type that
    the walk continues with mentions it. *)
Inductive typeMentions : TypePtr → Decl → Prop :=
  | mentions_here t d : namesDecl t d → typeMentions t d
  | mentions_inside t c d :
      Some c ∈ walkedTypes t → typeMentions c d → typeMentions t d.

(** While the walk for the declaration [f] runs, the type [t] is finished
    in a state when the edges from [f] to the declarations that [t] names
    are in the graph and the types the walk continues with have been
    seen. *)
Definition walkFinished (f : Decl) (st : SourceInfo * gset TypePtr)
    (t : TypePtr) : Prop :=
  (∀ d, namesDecl t d → hasEdge (uses st.1) (endpoint ctx f) (endpoint ctx d))
  ∧ ∀ c, Some c ∈ walkedTypes t → c ∈ st.2.

(** The state [st'] continues [st]: no edge is lost, no seen type is
    forgotten, and the types seen since are finished. *)
Definition walkContinues (f : Decl) (st st' : SourceInfo * gset TypePtr)
  : Prop :=
  (∀ x y, hasEdge (uses st.1) x y → hasEdge (uses st'.1) x y)
  ∧ st.2 ⊆ st'.2
  ∧ ∀ t, t ∈ st'.2 → t ∉ st.2 → walkFinished f st' t.

(** The group that [staticVariables] holds for a start location, the empty
    list when it has none. *)
Definition groupAt (si : SourceInfo) (start : SourceLocation) : list Decl :=
  default [] (staticVariables si !! start).

(** What can be reached from the roots: along the edges of [uses], and
    from a class record to its destructor. *)
Inductive reachable (srcInfo : SourceInfo) : Decl → Prop :=
  | reachable_root d :
      d ∈ declsToKeep srcInfo → reachable srcInfo (endpoint ctx d)
  | reachable_use a b :
      reachable srcInfo a → hasEdge (uses srcInfo) a b → reachable srcInfo b
  | reachable_destructor record destructor :
      reachable srcInfo record →
      destructorOfRecord ctx record = Some destructor →
      reachable srcInfo destructor.

(** What the reachability loop keeps true of its variables: what is used
    or queued is reachable; the roots are used or queued; what a used
    declaration uses is used or queued; the loop has added no edge to the
    graph; and the usage info knows the used declarations whose range
    starts in the main file, and no others. *)
Definition searchInvariant (srcInfo : SourceInfo)
    (s : OptimizerConsumer.Search) : Prop :=
  (∀ d, d ∈ OptimizerConsumer.used s ∪ OptimizerConsumer.queue s →
        reachable srcInfo d)
  ∧ OptimizerConsumer.initialQueue ctx srcInfo
    ⊆ OptimizerConsumer.used s ∪ OptimizerConsumer.queue s
  ∧ (∀ a b, a ∈ OptimizerConsumer.used s → hasEdge (uses srcInfo) a b →
            b ∈ OptimizerConsumer.used s ∪ OptimizerConsumer.queue s)
  ∧ (∀ a, default ∅ (OptimizerConsumer.uses' s !! a)
          = default ∅ (uses srcInfo !! a))
  ∧ (∀ d, d ∈ UsageInfo.usedDecls (OptimizerConsumer.usageInfo s)
          ↔ d ∈ OptimizerConsumer.used s
            ∧ isInMainFile sourceManager (getExpansionStart (declInfo ctx d)) = true).

(** The conditions under which [needToRemoveFunction] leaves a function
    declaration alone. *)
Definition functionIsKept (u : UsageInfo.t) (declared : gset Decl) (d : Decl)
  : Prop :=
  let fi := asFunction (declInfo ctx d) in
  isExplicitlyDefaulted fi = true
  ∨ isDeleted fi = true
  ∨ (UsageInfo.isUsed sourceManager ctx u (canonical ctx d) = true
     ∧ (doesThisDeclarationHaveABody fi = true ∨ canonical ctx d ∉ declared)).

End GraphVocabulary.

(** ** Front ends given by tables *)

Definition noFunction : FunctionInfo :=
  {| isMain := false; isLateTemplateParsed := false;
     getTemplatedKind := TK_NonTemplate; getTemplateSpecializationInfo := None;
     getReturnType := None; getInstantiatedFromMemberFunction := None;
     doesThisDeclarationHaveABody := false; isExplicitlyDefaulted := false;
     isDeleted := false; isVirtual := false; getParent := None |}.

Definition noRecord : RecordInfo :=
  {| getDescribedClassTemplate := None; getDestructor := None;
     getDefinition := None; getTemplateSpecializationKind := TSK_Undeclared;
     bases := []; isCompleteDefinition := false;
     getSpecializedTemplateOrPartial := None |}.

Definition noTemplate : TemplateInfo :=
  {| getTemplatedDecl := None; getInstantiatedFromMemberTemplate := None;
     isThisDeclarationADefinition := false |}.

Definition noValue : ValueInfo :=
  {| getType := None; isLocalVarDeclOrParm := false; getFieldParent := None |}.

Definition noTypedef : TypedefInfo :=
  {| getUnderlyingType := None; getDescribedAliasTemplate := None |}.

Definition noTypeParm : TypeParmInfo :=
  {| hasDefaultArgument := false; getDefaultArgument := None |}.

(** A declaration the table says nothing about: its own canonical
    declaration, outside every file. *)
Definition unknownDecl (d : Decl) : DeclInfo :=
  {| getKind := OtherDecl; getCanonicalDecl := d; getDeclContext := None;
     getLexicalDeclContext := None; getLocStart := 0%N; getLocation := 0%N;
     getExpansionStart := 0%N; getExpansionEnd := 0%N;
     getRawCommentForDeclNoCache := None; getNominatedNamespace := None;
     asFunction := noFunction; asRecord := noRecord; asTemplate := noTemplate;
     asValue := noValue; asTypedef := noTypedef; asTypeParm := noTypeParm |}.

Fixpoint lookupDecl (table : list (Decl * DeclInfo)) (d : Decl) : DeclInfo :=
  match table with
  | [] => unknownDecl d
  | (k, info) :: rest => if Pos.eqb k d then info else lookupDecl rest d
  end.

(** ** A translation unit to run the code on *)

Module Demo.

Definition nl : string := String (ascii_of_nat 10) EmptyString.

(** The main file.  The raw encoding of a location is its offset plus one. *)
Definition mainFile : string :=
  "/// caide keep" ++ nl ++ "int helper(){return 7;}" ++ nl ++ "int helper();" ++ nl ++ "int unused(){return 1;}" ++ nl ++ "namespace lib{}" ++ nl ++ "using namespace lib;" ++ nl ++ "using namespace lib;" ++ nl ++ "struct A{~A(){}};" ++ nl ++ "int a,b,c;" ++ nl ++ "#define PAIR(x,y) int x; int y;" ++ nl ++ "PAIR(p,q)" ++ nl ++ "int u __attribute__((unused)),w;" ++ nl ++ "int main(){A o; return b+q+w;}" ++ nl ++ "template<class T> T twice(T x){return x+x;}" ++ nl ++ "".

Definition simpleDecl (kind : DeclClass) (canonicalDecl : Decl)
    (context : option Decl) (start name end_ : SourceLocation) : DeclInfo :=
  {| getKind := kind; getCanonicalDecl := canonicalDecl;
     getDeclContext := context; getLexicalDeclContext := context;
     getLocStart := start; getLocation := name;
     getExpansionStart := start; getExpansionEnd := end_;
     getRawCommentForDeclNoCache := None; getNominatedNamespace := None;
     asFunction := noFunction; asRecord := noRecord; asTemplate := noTemplate;
     asValue := noValue; asTypedef := noTypedef; asTypeParm := noTypeParm |}.

Definition withComment (comment : RawComment) (i : DeclInfo) : DeclInfo :=
  {| getKind := getKind i; getCanonicalDecl := getCanonicalDecl i;
     getDeclContext := getDeclContext i;
     getLexicalDeclContext := getLexicalDeclContext i;
     getLocStart := getLocStart i; getLocation := getLocation i;
     getExpansionStart := getExpansionStart i;
     getExpansionEnd := getExpansionEnd i;
     getRawCommentForDeclNoCache := Some comment;
     getNominatedNamespace := getNominatedNamespace i;
     asFunction := asFunction i; asRecord := asRecord i;
     asTemplate := asTemplate i; asValue := asValue i;
     asTypedef := asTypedef i; asTypeParm := asTypeParm i |}.

Definition withNominated (ns : Decl) (i : DeclInfo) : DeclInfo :=
  {| getKind := getKind i; getCanonicalDecl := getCanonicalDecl i;
     getDeclContext := getDeclContext i;
     getLexicalDeclContext := getLexicalDeclContext i;
     getLocStart := getLocStart i; getLocation := getLocation i;
     getExpansionStart := getExpansionStart i;
     getExpansionEnd := getExpansionEnd i;
     getRawCommentForDeclNoCache := getRawCommentForDeclNoCache i;
     getNominatedNamespace := Some ns;
     asFunction := asFunction i; asRecord := asRecord i;
     asTemplate := asTemplate i; asValue := asValue i;
     asTypedef := asTypedef i; asTypeParm := asTypeParm i |}.

Definition withFacets (f : FunctionInfo) (r : RecordInfo) (t : TemplateInfo)
    (v : ValueInfo) (i : DeclInfo) : DeclInfo :=
  {| getKind := getKind i; getCanonicalDecl := getCanonicalDecl i;
     getDeclContext := getDeclContext i;
     getLexicalDeclContext := getLexicalDeclContext i;
     getLocStart := getLocStart i; getLocation := getLocation i;
     getExpansionStart := getExpansionStart i;
     getExpansionEnd := getExpansionEnd i;
     getRawCommentForDeclNoCache := getRawCommentForDeclNoCache i;
     getNominatedNamespace := getNominatedNamespace i;
     asFunction := f; asRecord := r; asTemplate := t; asValue := v;
     asTypedef := asTypedef i; asTypeParm := asTypeParm i |}.

Definition functionInfo (main body lateParsed : bool) (kind : TemplatedKind)
    (parent : option Decl) (returns : option TypePtr) : FunctionInfo :=
  {| isMain := main; isLateTemplateParsed := lateParsed;
     getTemplatedKind := kind; getTemplateSpecializationInfo := None;
     getReturnType := returns; getInstantiatedFromMemberFunction := None;
     doesThisDeclarationHaveABody := body; isExplicitlyDefaulted := false;
     isDeleted := false; isVirtual := false; getParent := parent |}.

Definition classInfo (self : Decl) (destructor : option Decl) : RecordInfo :=
  {| getDescribedClassTemplate := None; getDestructor := destructor;
     getDefinition := Some self; getTemplateSpecializationKind := TSK_Undeclared;
     bases := []; isCompleteDefinition := true;
     getSpecializedTemplateOrPartial := None |}.

Definition variableInfo (type : option TypePtr) (isLocal : bool) : ValueInfo :=
  {| getType := type; isLocalVarDeclOrParm := isLocal; getFieldParent := None |}.

(** The types: 1 is [A], 2 is [int], 3 is the template parameter [T]. *)
Definition typeTable (t : TypePtr) : TypeInfo :=
  match t with
  | 1%positive => {| getTypeClass := OtherType; getAsTagDecl := Some 8%positive;
                     getAsCXXRecordDecl := Some 8%positive |}
  | _ => {| getTypeClass := OtherType; getAsTagDecl := None;
            getAsCXXRecordDecl := None |}
  end.

Definition int : option TypePtr := Some 2%positive.

(** The declarations, numbered in the order of the file. *)
Definition declTable : list (Decl * DeclInfo) :=
  let tu : option Decl := Some 1%positive in
  let fn f i := withFacets f noRecord noTemplate (variableInfo (getReturnType f) false) i in
  let var ty isLocal i := withFacets noFunction noRecord noTemplate (variableInfo ty isLocal) i in
  [ (1%positive, simpleDecl TranslationUnitDecl 1 None 0 0 0);
    (* int helper(){return 7;}, under the comment *)
    (2%positive, withComment {| commentLocStart := 1; commentLocEnd := 14 |}
          (fn (functionInfo false true false TK_NonTemplate None int)
             (simpleDecl FunctionDecl 2 tu 16 20 38)));
    (* int helper(); *)
    (3%positive, fn (functionInfo false false false TK_NonTemplate None int)
          (simpleDecl FunctionDecl 2 tu 40 44 51));
    (* int unused(){return 1;} *)
    (4%positive, fn (functionInfo false true false TK_NonTemplate None int)
          (simpleDecl FunctionDecl 4 tu 54 58 76));
    (* namespace lib{} *)
    (5%positive, simpleDecl NamespaceDecl 5 tu 78 88 92);
    (* using namespace lib; twice *)
    (6%positive, withNominated 5 (simpleDecl UsingDirectiveDecl 6 tu 94 110 110));
    (7%positive, withNominated 5 (simpleDecl UsingDirectiveDecl 7 tu 115 131 131));
    (* struct A and its destructor *)
    (8%positive, withFacets noFunction (classInfo 8 (Some 9%positive)) noTemplate noValue
          (simpleDecl CXXRecordDecl 8 tu 136 143 151));
    (9%positive, fn (functionInfo false true false TK_NonTemplate (Some 8%positive) None)
          (simpleDecl CXXDestructorDecl 9 (Some 8%positive) 145 145 150));
    (* int a,b,c; *)
    (10%positive, var int false (simpleDecl VarDecl 10 tu 154 158 158));
    (11%positive, var int false (simpleDecl VarDecl 11 tu 154 160 160));
    (12%positive, var int false (simpleDecl VarDecl 12 tu 154 162 162));
    (* PAIR(p,q): both variables expand from the one macro call *)
    (13%positive, var int false (simpleDecl VarDecl 13 tu 197 202 205));
    (14%positive, var int false (simpleDecl VarDecl 14 tu 197 204 205));
    (* int u __attribute__((unused)),w; the range of [u] ends at its name *)
    (19%positive, var int false (simpleDecl VarDecl 19 tu 207 211 211));
    (20%positive, var int false (simpleDecl VarDecl 20 tu 207 237 237));
    (* int main(){A o; return b+q+w;} *)
    (15%positive, fn (functionInfo true true false TK_NonTemplate None int)
           (simpleDecl FunctionDecl 15 tu 240 244 269));
    (16%positive, var (Some 1%positive) true
           (simpleDecl VarDecl 16 (Some 15%positive) 251 253 253));
    (* template<class T> T twice(T x){return x+x;}, parsed late *)
    (17%positive, withFacets noFunction noRecord
           {| getTemplatedDecl := Some 18%positive;
              getInstantiatedFromMemberTemplate := None;
              isThisDeclarationADefinition := true |} noValue
           (simpleDecl FunctionTemplateDecl 17 tu 271 291 313));
    (18%positive, fn (functionInfo false true true TK_FunctionTemplate None (Some 3%positive))
           (simpleDecl FunctionDecl 18 tu 289 291 313))
  ].

(** The semicolon or comma right after a location, where there is one. *)
Definition semiAfter (loc : SourceLocation) : SourceLocation :=
  match loc with
  | 51 => 52 | 110 => 113 | 131 => 134
  | 151 => 152 | 162 => 163 | 253 => 254
  | 237 => 238
  | _ => 0
  end%N.

Definition tokenAfter (loc : SourceLocation) (kind : TokenKind) : SourceLocation :=
  match kind with
  | tok_semi => semiAfter loc
  | tok_comma => match loc with 158 => 159 | 160 => 161 | _ => 0 end%N
  end.

Definition ctx : ASTContext :=
  {| declInfo := lookupDecl declTable; typeInfo := typeTable; numTypes := 3;
     findSemiAfterLocation := semiAfter; findTokenAfterLocation := tokenAfter |}.

Definition sourceManager : SourceManager :=
  {| isInMainFile := fun loc => negb (N.eqb loc 0);
     isBeforeInTranslationUnit := N.ltb;
     getCharacterData := fun loc =>
       {| dataPtr := Some (N.to_nat loc - 1); dataInvalid := N.eqb loc 0 |};
     charAt := fun i => nth i (String.list_ascii_of_string mainFile) "000"%char;
     getMainFileBuffer :=
       {| bufferContents := Some mainFile; bufferInvalid := false |} |}.

(** The same, but the main file's buffer cannot be had. *)
Definition sourceManagerWithoutBuffer : SourceManager :=
  {| isInMainFile := isInMainFile sourceManager;
     isBeforeInTranslationUnit := isBeforeInTranslationUnit sourceManager;
     getCharacterData := getCharacterData sourceManager;
     charAt := charAt sourceManager;
     getMainFileBuffer := {| bufferContents := None; bufferInvalid := true |} |}.

(** The tree both visitors walk. *)
Definition translationUnit : Node :=
  let leaf d := DeclNode d [] in
  (DeclNode 1
    [ leaf 2; leaf 3; leaf 4; leaf 5; leaf 6; leaf 7;
      DeclNode 8 [leaf 9];
      leaf 10; leaf 11; leaf 12; leaf 13; leaf 14; leaf 19; leaf 20;
      DeclNode 15
        [ StmtNode OtherStmt
            [ DeclNode 16 [StmtNode (CXXConstructExpr None) []];
              StmtNode OtherStmt
                [ StmtNode (DeclRefExpr (Some 11) []) [];
                  StmtNode (DeclRefExpr (Some 14) []) [];
                  StmtNode (DeclRefExpr (Some 20) []) [] ] ] ];
      DeclNode 17 [leaf 18] ])%positive.

Definition srcInfo : SourceInfo :=
  DependenciesCollector.collect sourceManager ctx translationUnit.

Definition search : option OptimizerConsumer.Search :=
  OptimizerConsumer.findUsedDecls sourceManager ctx
    (OptimizerConsumer.searchBound ctx srcInfo) srcInfo.

Definition usageInfo : UsageInfo.t :=
  from_option OptimizerConsumer.usageInfo UsageInfo.create search.

(** A late template parser that gives up on a body by throwing. *)
Definition throwingParser (f : Decl) (sema : Sema.t) : Completion Sema.t :=
  Throws sema.

Definition sema : Sema.t :=
  {| Sema.suppressAllDiagnostics := false; Sema.parsedLateTemplates := [] |}.

End Demo.

(** ** A second translation unit: a virtual method and a pointer *)

Module VirtualDemo.

Definition mainFile : string :=
  "struct B{virtual void f(){}};" ++ Demo.nl ++ "int main(){B*b=0;}" ++ Demo.nl ++ "".

(** The types: 1 is [B], 2 is [void], 3 is [int], 4 is [B*]. *)
Definition typeTable (t : TypePtr) : TypeInfo :=
  match t with
  | 1%positive => {| getTypeClass := OtherType; getAsTagDecl := Some 2%positive;
                     getAsCXXRecordDecl := Some 2%positive |}
  | 4%positive => {| getTypeClass := PointerType (Some 1%positive);
                     getAsTagDecl := None; getAsCXXRecordDecl := None |}
  | _ => {| getTypeClass := OtherType; getAsTagDecl := None;
            getAsCXXRecordDecl := None |}
  end.

Definition virtualMethod (parent : Decl) (returns : option TypePtr) : FunctionInfo :=
  {| isMain := false; isLateTemplateParsed := false;
     getTemplatedKind := TK_NonTemplate; getTemplateSpecializationInfo := None;
     getReturnType := returns; getInstantiatedFromMemberFunction := None;
     doesThisDeclarationHaveABody := true; isExplicitlyDefaulted := false;
     isDeleted := false; isVirtual := true; getParent := Some parent |}.

Definition declTable : list (Decl * DeclInfo) :=
  let tu : option Decl := Some 1%positive in
  [ (1%positive, Demo.simpleDecl TranslationUnitDecl 1 None 0 0 0);
    (* struct B *)
    (2%positive, Demo.withFacets noFunction (Demo.classInfo 2 None) noTemplate noValue
          (Demo.simpleDecl CXXRecordDecl 2 tu 1 8 28));
    (* virtual void f(){} *)
    (3%positive, Demo.withFacets (virtualMethod 2 (Some 2%positive)) noRecord noTemplate
          (Demo.variableInfo (Some 2%positive) false)
          (Demo.simpleDecl CXXMethodDecl 3 (Some 2%positive) 10 23 27));
    (* int main(){B*b=0;} *)
    (4%positive, Demo.withFacets
          (Demo.functionInfo true true false TK_NonTemplate None (Some 3%positive))
          noRecord noTemplate (Demo.variableInfo (Some 3%positive) false)
          (Demo.simpleDecl FunctionDecl 4 tu 31 35 48));
    (5%positive, Demo.withFacets noFunction noRecord noTemplate
          (Demo.variableInfo (Some 4%positive) true)
          (Demo.simpleDecl VarDecl 5 (Some 4%positive) 42 44 46))
  ].

Definition semiAfter (loc : SourceLocation) : SourceLocation :=
  match loc with
  | 28 => 29 | 46 => 47
  | _ => 0
  end%N.

Definition ctx : ASTContext :=
  {| declInfo := lookupDecl declTable; typeInfo := typeTable; numTypes := 4;
     findSemiAfterLocation := semiAfter;
     findTokenAfterLocation := fun loc kind =>
       match kind with tok_semi => semiAfter loc | tok_comma => 0%N end |}.

Definition sourceManager : SourceManager :=
  {| isInMainFile := fun loc => negb (N.eqb loc 0);
     isBeforeInTranslationUnit := N.ltb;
     getCharacterData := fun loc =>
       {| dataPtr := Some (N.to_nat loc - 1); dataInvalid := N.eqb loc 0 |};
     charAt := fun i => nth i (String.list_ascii_of_string mainFile) "000"%char;
     getMainFileBuffer :=
       {| bufferContents := Some mainFile; bufferInvalid := false |} |}.

Definition translationUnit : Node :=
  (DeclNode 1
    [ DeclNode 2 [DeclNode 3 [StmtNode OtherStmt []]];
      DeclNode 4
        [ StmtNode OtherStmt [DeclNode 5 [StmtNode OtherStmt []]] ] ])%positive.

Definition srcInfo : SourceInfo :=
  DependenciesCollector.collect sourceManager ctx translationUnit.

Definition search : option OptimizerConsumer.Search :=
  OptimizerConsumer.findUsedDecls sourceManager ctx
    (OptimizerConsumer.searchBound ctx srcInfo) srcInfo.

End VirtualDemo.

(** ** A third translation unit: a using-directive inside an unused function *)

Module UsingDemo.

Definition mainFile : string :=
  "namespace lib{int x;} void unusedFn(){using namespace lib;} using namespace lib; int main(){return x;}" ++ Demo.nl ++ "".

Definition typeTable (t : TypePtr) : TypeInfo :=
  {| getTypeClass := OtherType; getAsTagDecl := None;
     getAsCXXRecordDecl := None |}.

(** The declarations, numbered in the order of the file. *)
Definition declTable : list (Decl * DeclInfo) :=
  let tu : option Decl := Some 1%positive in
  let fn f i := Demo.withFacets f noRecord noTemplate
                  (Demo.variableInfo (getReturnType f) false) i in
  [ (1%positive, Demo.simpleDecl TranslationUnitDecl 1 None 0 0 0);
    (* namespace lib{int x;} *)
    (2%positive, Demo.simpleDecl NamespaceDecl 2 tu 1 11 21);
    (3%positive, Demo.withFacets noFunction noRecord noTemplate
          (Demo.variableInfo Demo.int false)
          (Demo.simpleDecl VarDecl 3 (Some 2%positive) 15 19 19));
    (* void unusedFn(){using namespace lib;} *)
    (4%positive, fn (Demo.functionInfo false true false TK_NonTemplate None None)
          (Demo.simpleDecl FunctionDecl 4 tu 23 28 59));
    (5%positive, Demo.withNominated 2
          (Demo.simpleDecl UsingDirectiveDecl 5 (Some 4%positive) 39 55 55));
    (* using namespace lib; *)
    (6%positive, Demo.withNominated 2
          (Demo.simpleDecl UsingDirectiveDecl 6 tu 61 77 77));
    (* int main(){return x;} *)
    (7%positive, fn (Demo.functionInfo true true false TK_NonTemplate None Demo.int)
          (Demo.simpleDecl FunctionDecl 7 tu 82 86 102))
  ].

Definition semiAfter (loc : SourceLocation) : SourceLocation :=
  match loc with
  | 19 => 20 | 55 => 58 | 77 => 80
  | _ => 0
  end%N.

Definition ctx : ASTContext :=
  {| declInfo := lookupDecl declTable; typeInfo := typeTable; numTypes := 2;
     findSemiAfterLocation := semiAfter;
     findTokenAfterLocation := fun loc kind =>
       match kind with tok_semi => semiAfter loc | tok_comma => 0%N end |}.

Definition sourceManager : SourceManager :=
  {| isInMainFile := fun loc => negb (N.eqb loc 0);
     isBeforeInTranslationUnit := N.ltb;
     getCharacterData := fun loc =>
       {| dataPtr := Some (N.to_nat loc - 1); dataInvalid := N.eqb loc 0 |};
     charAt := fun i => nth i (String.list_ascii_of_string mainFile) "000"%char;
     getMainFileBuffer :=
       {| bufferContents := Some mainFile; bufferInvalid := false |} |}.

(** The tree both visitors walk: the first using-directive is a declaration
    statement of the body of [unusedFn]. *)
Definition translationUnit : Node :=
  (DeclNode 1
    [ DeclNode 2 [DeclNode 3 []];
      DeclNode 4 [StmtNode OtherStmt [StmtNode OtherStmt [DeclNode 5 []]]];
      DeclNode 6 [];
      DeclNode 7
        [ StmtNode OtherStmt
            [ StmtNode OtherStmt [StmtNode (DeclRefExpr (Some 3) []) []] ] ] ])%positive.

Definition srcInfo : SourceInfo :=
  DependenciesCollector.collect sourceManager ctx translationUnit.

Definition search : option OptimizerConsumer.Search :=
  OptimizerConsumer.findUsedDecls sourceManager ctx
    (OptimizerConsumer.searchBound ctx srcInfo) srcInfo.

Definition usageInfo : UsageInfo.t :=
  from_option OptimizerConsumer.usageInfo UsageInfo.create search.

(** The rewriter after the visitor's traversal and the pruner of variable
    groups, as [HandleTranslationUnit] runs them. *)
Definition rewriter : SmartRewriter.t :=
  OptimizerConsumer.removeUnusedVariables sourceManager ctx srcInfo usageInfo
    (OptimizerVisitor.rewriter
       (OptimizerVisitor.Traverse sourceManager ctx usageInfo translationUnit
          (OptimizerVisitor.create SmartRewriter.create))).

End UsingDemo.


(** * Properties *)

(** ** SmartRewriter: accepted ranges never overlap *)

Section SmartRewriterFacts.
Context (sm : SourceManager).

Lemma overlaps_sym (a b : SourceRange) :
  SmartRewriter.overlaps sm a b = SmartRewriter.overlaps sm b a.
Proof. unfold SmartRewriter.overlaps. apply andb_comm. Qed.

Lemma canRemoveRange_spec (rw : SmartRewriter.t) (r : SourceRange) :
  SmartRewriter.canRemoveRange sm rw r = true ↔
  ∀ it, it ∈ SmartRewriter.removed rw →
        SmartRewriter.overlaps sm (range it) r = false.
Proof.
  unfold SmartRewriter.canRemoveRange.
  rewrite forallb_forall. split; intros H it Hit.
  - apply list_elem_of_In, H in Hit. by apply negb_true_iff.
  - apply negb_true_iff, H. by apply list_elem_of_In.
Qed.

Lemma pairwiseDisjoint_snoc (l : list RewriteItem) (x : RewriteItem) :
  SmartRewriter.pairwiseDisjoint sm (l ++ [x]) ↔
  SmartRewriter.pairwiseDisjoint sm l
  ∧ Forall (fun it => SmartRewriter.overlaps sm (range it) (range x) = false) l.
Proof.
  induction l as [|a l IH]; simpl.
  - intuition constructor.
  - rewrite Forall_app, Forall_singleton, IH, Forall_cons. tauto.
Qed.

Lemma removeRange_requested (rw : SmartRewriter.t) r o :
  SmartRewriter.requested (SmartRewriter.removeRange sm rw r o).2
  = SmartRewriter.requested rw ++ [mkRewriteItem r o].
Proof. unfold SmartRewriter.removeRange. by case_match. Qed.

Lemma removeRange_disjoint (rw : SmartRewriter.t) r o :
  SmartRewriter.pairwiseDisjoint sm (SmartRewriter.removed rw) →
  SmartRewriter.pairwiseDisjoint sm
    (SmartRewriter.removed (SmartRewriter.removeRange sm rw r o).2).
Proof.
  intros Hd. unfold SmartRewriter.removeRange.
  destruct (SmartRewriter.canRemoveRange sm rw r) eqn:Hc; simpl; [|done].
  apply pairwiseDisjoint_snoc. split; [done|].
  apply Forall_forall. intros it Hit. simpl.
  by apply (proj1 (canRemoveRange_spec rw r) Hc).
Qed.

Lemma removeRanges_disjoint (reqs : list RewriteItem) (rw : SmartRewriter.t) :
  SmartRewriter.pairwiseDisjoint sm (SmartRewriter.removed rw) →
  SmartRewriter.pairwiseDisjoint sm
    (SmartRewriter.removed (SmartRewriter.removeRanges sm rw reqs)).
Proof.
  revert rw. induction reqs as [|it reqs IH]; intros rw Hd; [done|].
  simpl. apply IH. by apply removeRange_disjoint.
Qed.

(** C4. After any sequence of earlier calls, [removeRange r opts] answers
    [canRemoveRange r]; this is true exactly when no accepted range overlaps
    [r], and then [(r, opts)] joins the accepted ranges; otherwise the
    accepted ranges stay as they are.  Before and after the call no two
    accepted ranges overlap. *)
Theorem removeRange_accepts_exactly_disjoint
    (reqs : list RewriteItem) (r : SourceRange) (o : RewriteOptions) :
  let rw := SmartRewriter.removeRanges sm SmartRewriter.create reqs in
  let res := SmartRewriter.removeRange sm rw r o in
  res.1 = SmartRewriter.canRemoveRange sm rw r
  ∧ (res.1 = true ↔
     ∀ it, it ∈ SmartRewriter.removed rw →
           SmartRewriter.overlaps sm (range it) r = false)
  ∧ (res.1 = true →
     SmartRewriter.removed res.2 = SmartRewriter.removed rw ++ [mkRewriteItem r o])
  ∧ (res.1 = false → SmartRewriter.removed res.2 = SmartRewriter.removed rw)
  ∧ SmartRewriter.pairwiseDisjoint sm (SmartRewriter.removed rw)
  ∧ SmartRewriter.pairwiseDisjoint sm (SmartRewriter.removed res.2).
Proof.
  intros rw res.
  assert (Hrw : SmartRewriter.pairwiseDisjoint sm (SmartRewriter.removed rw)).
  { apply removeRanges_disjoint. exact I. }
  assert (Hres : res.1 = SmartRewriter.canRemoveRange sm rw r).
  { subst res. unfold SmartRewriter.removeRange. by case_match. }
  split; [done|]. split.
  { rewrite Hres. apply canRemoveRange_spec. }
  split; [|split; [|split; [done|by apply removeRange_disjoint]]].
  - subst res. unfold SmartRewriter.removeRange.
    destruct (SmartRewriter.canRemoveRange sm rw r); simpl; [done|discriminate].
  - subst res. unfold SmartRewriter.removeRange.
    destruct (SmartRewriter.canRemoveRange sm rw r); simpl; [discriminate|done].
Qed.

End SmartRewriterFacts.

(** ** Generic facts on folds and on the traversal *)

Lemma fold_left_invariant {A B} (P : A → Prop) (f : A → B → A) (l : list B) (a : A) :
  (∀ a b, P a → P (f a b)) → P a → P (fold_left f l a).
Proof.
  intros Hf. revert a. induction l as [|b l IH]; intros a Ha; simpl; auto.
Qed.

Lemma fold_left_flat_map {A B C} (f : A → C → A) (g : B → list C)
    (l : list B) (a : A) :
  fold_left f (flat_map g l) a
  = fold_left (fun a b => fold_left f (g b) a) l a.
Proof.
  revert a. induction l as [|b l IH]; intros a; simpl; [done|].
  by rewrite fold_left_app, IH.
Qed.

Lemma fold_left_ext_in {A B} (f g : A → B → A) (l : list B) (a : A) :
  Forall (fun b => ∀ a, f a b = g a b) l → fold_left f l a = fold_left g l a.
Proof.
  intros H. revert a. induction H as [|b l Hb _ IH]; intros a; simpl; [done|].
  by rewrite Hb, IH.
Qed.

(** Induction on trees with the hypothesis for every child. *)
Lemma Node_forall_ind (P : Node → Prop) :
  (∀ d children, Forall P children → P (DeclNode d children)) →
  (∀ s children, Forall P children → P (StmtNode s children)) →
  ∀ n, P n.
Proof.
  intros HD HS. fix IH 1. intros [d children|s children].
  - apply HD. induction children as [|c cs IHcs]; constructor; [apply IH|exact IHcs].
  - apply HS. induction children as [|c cs IHcs]; constructor; [apply IH|exact IHcs].
Qed.

Section CollectorTraversal.
Context (sm : SourceManager) (ctx : ASTContext).

Lemma Traverse_visits (n : Node) (c : DependenciesCollector.t) :
  DependenciesCollector.Traverse sm ctx n c
  = DependenciesCollector.mk
      (fold_left (fun si v => applyVisit sm ctx v si)
         (visits n (DependenciesCollector.declStack c))
         (DependenciesCollector.srcInfo c))
      (DependenciesCollector.declStack c).
Proof.
  revert c. induction n as [d children IH|s children IH] using Node_forall_ind;
    intros c; simpl.
  - set (c1 := DependenciesCollector.onSrcInfo _ _).
    assert (Hfold : ∀ c0,
      fold_left (fun c child => DependenciesCollector.Traverse sm ctx child c) children c0
      = DependenciesCollector.mk
          (fold_left (fun si v => applyVisit sm ctx v si)
             (flat_map (fun ch => visits ch (DependenciesCollector.declStack c0)) children)
             (DependenciesCollector.srcInfo c0))
          (DependenciesCollector.declStack c0)).
    { induction IH as [|ch chs Hch _ IHchs]; intros c0; simpl.
      - by destruct c0.
      - rewrite Hch, IHchs. simpl. by rewrite fold_left_app. }
    rewrite Hfold. subst c1. simpl. done.
  - set (c1 := DependenciesCollector.onSrcInfo _ _).
    assert (Hfold : ∀ c0,
      fold_left (fun c child => DependenciesCollector.Traverse sm ctx child c) children c0
      = DependenciesCollector.mk
          (fold_left (fun si v => applyVisit sm ctx v si)
             (flat_map (fun ch => visits ch (DependenciesCollector.declStack c0)) children)
             (DependenciesCollector.srcInfo c0))
          (DependenciesCollector.declStack c0)).
    { induction IH as [|ch chs Hch _ IHchs]; intros c0; simpl.
      - by destruct c0.
      - rewrite Hch, IHchs. simpl. by rewrite fold_left_app. }
    rewrite Hfold. subst c1. simpl. done.
Qed.

Lemma collect_visits (tree : Node) :
  DependenciesCollector.collect sm ctx tree
  = fold_left (fun si v => applyVisit sm ctx v si) (visits tree []) emptySourceInfo.
Proof. unfold DependenciesCollector.collect. by rewrite Traverse_visits. Qed.

End CollectorTraversal.

(** ** DependenciesCollector: what the hooks change *)

Section CollectorFacts.
Context (sm : SourceManager) (ctx : ASTContext).

#[local] Abbreviation insertReference := (DependenciesCollector.insertReference ctx).
#[local] Abbreviation insertReferenceToTypeSeen :=
  (DependenciesCollector.insertReferenceToTypeSeen ctx).
#[local] Abbreviation insertReferenceToType :=
  (DependenciesCollector.insertReferenceToType ctx).

(** A property of the walk's state that neither an edge insertion nor a new
    seen type breaks is kept by the walk over a type. *)
Lemma insertReferenceToTypeBody_state_invariant
    (R : SourceInfo * gset TypePtr → Prop) recur :
  (∀ from to st, R st → R (DependenciesCollector.onInfo (insertReference from to) st)) →
  (∀ to st, R st → R (recur to st)) →
  ∀ from to st, R st →
    R (DependenciesCollector.insertReferenceToTypeBody ctx recur from to st).
Proof.
  intros Hinfo Hrecur from to st Hst.
  assert (Hbases : ∀ s, R s → R (DependenciesCollector.walkBases ctx recur to s)).
  { intros s Hs. unfold DependenciesCollector.walkBases.
    repeat case_match; try done.
    apply (fold_left_invariant R); [|done]. intros; by apply Hrecur. }
  assert (Htempl : ∀ t a s, R s →
            R (DependenciesCollector.walkTemplate ctx recur from t a s)).
  { intros t a s Hs. unfold DependenciesCollector.walkTemplate.
    apply (fold_left_invariant R).
    - intros s' [ty|] Hs'; [by apply Hrecur|done].
    - destruct t; [by apply Hinfo|done]. }
  unfold DependenciesCollector.insertReferenceToTypeBody.
  destruct (getTypeClass (typeInfo ctx to)) as [named|inner|el|pt|pt|decl|tmpl targs|];
    unfold DependenciesCollector.ifParenType, DependenciesCollector.ifArrayType,
      DependenciesCollector.ifPointerType, DependenciesCollector.ifReferenceType,
      DependenciesCollector.ifTypedefType,
      DependenciesCollector.ifTemplateSpecializationType;
    repeat first [assumption | apply Hrecur | apply Htempl | apply Hbases | apply Hinfo].
Qed.

Lemma insertReferenceToTypeSeen_S depth from to st :
  insertReferenceToTypeSeen (S depth) from (Some to) st
  = if bool_decide (to ∈ st.2) then st
    else DependenciesCollector.insertReferenceToTypeBody ctx
           (insertReferenceToTypeSeen depth from) from to (st.1, {[to]} ∪ st.2).
Proof. reflexivity. Qed.

Lemma insertReferenceToTypeSeen_state_invariant
    (R : SourceInfo * gset TypePtr → Prop) :
  (∀ from to st, R st → R (DependenciesCollector.onInfo (insertReference from to) st)) →
  (∀ t st, R st → R (st.1, {[t]} ∪ st.2)) →
  ∀ depth from to st, R st → R (insertReferenceToTypeSeen depth from to st).
Proof.
  intros Hinfo Hseen. induction depth as [|depth IH]; intros from to st Hst.
  { by destruct to. }
  destruct to as [to|]; [|done].
  rewrite insertReferenceToTypeSeen_S.
  destruct (bool_decide (to ∈ st.2)); [done|].
  apply insertReferenceToTypeBody_state_invariant; [done| |by apply Hseen].
  intros t s Hs. by apply IH.
Qed.

Lemma insertReferenceToTypeSeen_invariant (P : SourceInfo → Prop) :
  (∀ from to si, P si → P (insertReference from to si)) →
  ∀ depth from to st, P st.1 → P (insertReferenceToTypeSeen depth from to st).1.
Proof.
  intros HP depth from to st Hst.
  apply (insertReferenceToTypeSeen_state_invariant (fun st => P st.1)); [|done..].
  intros f t s Hs. by apply HP.
Qed.

(** The walk only adds to [seen]. *)
Lemma insertReferenceToTypeSeen_seen depth from to st :
  st.2 ⊆ (insertReferenceToTypeSeen depth from to st).2.
Proof.
  apply (insertReferenceToTypeSeen_state_invariant (fun s => st.2 ⊆ s.2)); [done| |done].
  intros t s Hs. cbn [snd]. set_solver.
Qed.

(** *** The depth bound of the walk is never reached *)

(** Two candidates for the recursive call that agree on the components of
    [to], on every state that has seen at least [S0], make the same body. *)
Section BodyCongruence.
Context (recur1 recur2 : option TypePtr → SourceInfo * gset TypePtr
                         → SourceInfo * gset TypePtr)
        (from : option Decl) (to : TypePtr) (S0 : gset TypePtr).
Hypothesis agree : ∀ c s, c ∈ components ctx to → S0 ⊆ s.2 → recur1 c s = recur2 c s.
Hypothesis grows : ∀ c s, s.2 ⊆ (recur1 c s).2.

Lemma recur_agree c s :
  c ∈ components ctx to → S0 ⊆ s.2 →
  recur1 c s = recur2 c s ∧ S0 ⊆ (recur1 c s).2.
Proof using agree grows.
  intros Hc Hs. split; [by apply agree|].
  pose proof (grows c s). set_solver.
Qed.

Lemma fold_agree (l : list (option TypePtr)) s :
  l ⊆ components ctx to → S0 ⊆ s.2 →
  fold_left (fun s c => recur1 c s) l s = fold_left (fun s c => recur2 c s) l s
  ∧ S0 ⊆ (fold_left (fun s c => recur1 c s) l s).2.
Proof using agree grows.
  revert s. induction l as [|c l IH]; intros s Hl Hs; cbn [fold_left]; [done|].
  destruct (recur_agree c s) as [E M]; [set_solver|done|].
  rewrite <- E. apply IH; [set_solver|done].
Qed.

Lemma walkBases_agree s :
  S0 ⊆ s.2 →
  DependenciesCollector.walkBases ctx recur1 to s
  = DependenciesCollector.walkBases ctx recur2 to s
  ∧ S0 ⊆ (DependenciesCollector.walkBases ctx recur1 to s).2.
Proof using agree grows.
  intros Hs.
  assert (Hfold : ∀ recur,
    DependenciesCollector.walkBases ctx recur to s
    = fold_left (fun s c => recur c s) (walkedBases ctx to) s).
  { intros recur. unfold DependenciesCollector.walkBases, walkedBases.
    repeat case_match; reflexivity. }
  rewrite !Hfold. apply fold_agree; [|done].
  unfold components. intros c Hc. apply elem_of_app. by right.
Qed.

Lemma walkTemplate_agree tempDecl args s :
  getTypeClass (typeInfo ctx to) = TemplateSpecializationType tempDecl args →
  S0 ⊆ s.2 →
  DependenciesCollector.walkTemplate ctx recur1 from tempDecl args s
  = DependenciesCollector.walkTemplate ctx recur2 from tempDecl args s
  ∧ S0 ⊆ (DependenciesCollector.walkTemplate ctx recur1 from tempDecl args s).2.
Proof using agree grows.
  intros Hcls Hs. unfold DependenciesCollector.walkTemplate. cbv zeta.
  set (s0 := match tempDecl with Some _ => _ | None => s end).
  assert (Hs0 : S0 ⊆ s0.2) by (subst s0; by destruct tempDecl).
  clearbody s0.
  assert (Hargs : flat_map (fun arg => match arg with
                                       | TypeArgument t => [t]
                                       | OtherArgument => []
                                       end) args ⊆ components ctx to).
  { unfold components. rewrite Hcls. intros c Hc. apply elem_of_app. by left. }
  clear Hcls. revert s0 Hs0 Hargs.
  induction args as [|[t|] args IH]; intros s0 Hs0 Hargs; cbn [fold_left]; [done| |].
  - cbn [flat_map app] in Hargs.
    destruct (recur_agree t s0) as [E M]; [set_solver|done|].
    rewrite <- E. apply IH; [done|set_solver].
  - apply IH; [done|]. exact Hargs.
Qed.

Lemma insertReferenceToTypeBody_agree st :
  S0 ⊆ st.2 →
  DependenciesCollector.insertReferenceToTypeBody ctx recur1 from to st
  = DependenciesCollector.insertReferenceToTypeBody ctx recur2 from to st.
Proof using agree grows.
  intros Hst.
  assert (Hop : ∀ c s, c ∈ classOperands (getTypeClass (typeInfo ctx to)) →
                       S0 ⊆ s.2 →
                       recur1 c s = recur2 c s ∧ S0 ⊆ (recur1 c s).2).
  { intros c s Hc Hs. apply recur_agree; [|done].
    unfold components. apply elem_of_app. by left. }
  pose proof walkTemplate_agree as Htempl.
  unfold DependenciesCollector.insertReferenceToTypeBody. cbv zeta.
  destruct (getTypeClass (typeInfo ctx to)) as [named|inner|el|pt|pt|decl|tmpl targs|];
    unfold DependenciesCollector.ifParenType, DependenciesCollector.ifArrayType,
      DependenciesCollector.ifPointerType, DependenciesCollector.ifReferenceType,
      DependenciesCollector.ifTypedefType,
      DependenciesCollector.ifTemplateSpecializationType;
    cbn [classOperands] in Hop.
  - apply Hop; [by left|done].
  - destruct (Hop inner st) as [E M]; [by left|done|]. rewrite <- E.
    by apply walkBases_agree.
  - destruct (Hop el (DependenciesCollector.onInfo
                        (insertReference from (getAsTagDecl (typeInfo ctx to))) st))
      as [E M]; [by left|done|]. rewrite <- E.
    by apply walkBases_agree.
  - destruct (Hop pt (DependenciesCollector.onInfo
                        (insertReference from (getAsTagDecl (typeInfo ctx to))) st))
      as [E M]; [by left|done|]. rewrite <- E.
    by apply walkBases_agree.
  - destruct (Hop pt (DependenciesCollector.onInfo
                        (insertReference from (getAsTagDecl (typeInfo ctx to))) st))
      as [E M]; [by left|done|]. rewrite <- E.
    by apply walkBases_agree.
  - by apply walkBases_agree.
  - destruct (walkBases_agree
                (DependenciesCollector.onInfo
                   (insertReference from (getAsTagDecl (typeInfo ctx to))) st))
      as [E M]; [done|]. rewrite <- E.
    by apply (Htempl tmpl targs).
  - by apply walkBases_agree.
Qed.

End BodyCongruence.

(** Once the depth exceeds the number of types not yet seen, the result of
    the walk no longer depends on it. *)
Lemma insertReferenceToTypeSeen_depth_irrelevant (T : gset TypePtr) :
  (∀ t c, t ∈ T → Some c ∈ components ctx t → c ∈ T) →
  ∀ d1 d2 from to st,
    (∀ t, to = Some t → t ∈ T) →
    size (T ∖ st.2) < d1 → size (T ∖ st.2) < d2 →
    insertReferenceToTypeSeen d1 from to st = insertReferenceToTypeSeen d2 from to st.
Proof.
  intros Hclosed. induction d1 as [|d1 IH]; intros d2 from to st Hto H1 H2; [lia|].
  destruct d2 as [|d2]; [lia|].
  destruct to as [t|]; [|done].
  rewrite !insertReferenceToTypeSeen_S.
  destruct (bool_decide (t ∈ st.2)) eqn:Hseen; [done|].
  apply bool_decide_eq_false in Hseen.
  assert (Ht : t ∈ T) by (by apply Hto).
  apply (insertReferenceToTypeBody_agree _ _ from t ({[t]} ∪ st.2)).
  - intros c s Hc Hs.
    assert (Hlt : size (T ∖ s.2) < size (T ∖ st.2)).
    { apply subset_size. split; [set_solver|].
      intros Hsub. assert (t ∈ T ∖ s.2) by (apply Hsub; set_solver). set_solver. }
    apply IH; [|lia..].
    intros t' ->. by apply (Hclosed t).
  - intros c s. apply insertReferenceToTypeSeen_seen.
  - done.
Qed.

(** The two-argument overload gives the walk all the depth it can use. *)
Lemma insertReferenceToType_depth_suffices (T : gset TypePtr) from to si depth :
  typesOfContext ctx T →
  (∀ t, to = Some t → t ∈ T) →
  numTypes ctx < depth →
  (insertReferenceToTypeSeen depth from to (si, ∅)).1
  = insertReferenceToType from to si.
Proof.
  intros [Hsize Hclosed] Hto Hdepth.
  unfold DependenciesCollector.insertReferenceToType. f_equal.
  assert (size (T ∖ (si, ∅ : gset TypePtr).2) ≤ numTypes ctx).
  { etrans; [|exact Hsize]. apply subseteq_size. set_solver. }
  apply (insertReferenceToTypeSeen_depth_irrelevant T Hclosed); [done|lia..].
Qed.

Lemma insertReferenceToType_invariant (P : SourceInfo → Prop) :
  (∀ from to si, P si → P (insertReference from to si)) →
  ∀ from to si, P si → P (insertReferenceToType from to si).
Proof.
  intros HP from to si Hsi. unfold DependenciesCollector.insertReferenceToType.
  by apply (insertReferenceToTypeSeen_invariant P HP).
Qed.

(** A property that depends on [uses] alone and that no edge insertion
    breaks holds throughout the traversal. *)
Section UsesInvariant.
Context (P : SourceInfo → Prop).
Hypothesis P_insert : ∀ from to si, P si → P (insertReference from to si).
Hypothesis P_uses : ∀ si k dl sv, P si → P (mkSourceInfo (uses si) k dl sv).

Lemma whenIsa_invariant cls visit d si :
  (∀ s, P s → P (visit d s)) →
  P si → P (DependenciesCollector.whenIsa ctx cls visit d si).
Proof.
  intros Hv Hsi. unfold DependenciesCollector.whenIsa.
  destruct (isa ctx cls d); auto.
Qed.

Lemma VisitDecl_invariant d si :
  P si → P (DependenciesCollector.VisitDecl sm ctx d si).
Proof using P_insert P_uses.
  intros Hsi. unfold DependenciesCollector.VisitDecl.
  repeat case_match; repeat first [apply P_uses | apply P_insert]; auto.
Qed.

Lemma WalkUpFromDecl_invariant d si :
  P si → P (DependenciesCollector.WalkUpFromDecl sm ctx d si).
Proof using P_insert P_uses.
  pose proof (insertReferenceToType_invariant P P_insert) as P_type.
  intros Hsi. unfold DependenciesCollector.WalkUpFromDecl.
  repeat (apply whenIsa_invariant;
          [intros s Hs;
           unfold DependenciesCollector.VisitTemplateTypeParmDecl,
             DependenciesCollector.VisitClassTemplateSpecializationDecl,
             DependenciesCollector.VisitCXXRecordDecl,
             DependenciesCollector.VisitClassTemplateDecl,
             DependenciesCollector.VisitFunctionTemplateDecl,
             DependenciesCollector.VisitCXXMethodDecl,
             DependenciesCollector.VisitFunctionDecl,
             DependenciesCollector.VisitFieldDecl,
             DependenciesCollector.VisitVarDecl,
             DependenciesCollector.VisitValueDecl,
             DependenciesCollector.VisitTypeAliasTemplateDecl,
             DependenciesCollector.VisitTypeAliasDecl,
             DependenciesCollector.VisitTypedefNameDecl;
           repeat case_match;
           repeat first [apply P_type | apply P_insert | apply P_uses]; by auto|]).
  by apply VisitDecl_invariant.
Qed.

Lemma VisitStmt_invariant s current si :
  P si → P (DependenciesCollector.VisitStmt ctx s current si).
Proof using P_insert.
  pose proof (insertReferenceToType_invariant P P_insert) as P_type.
  intros Hsi. destruct s; simpl;
    unfold DependenciesCollector.VisitCallExpr, DependenciesCollector.VisitDeclRefExpr,
      DependenciesCollector.typeOfSourceInfo;
    repeat case_match; auto.
  apply fold_left_invariant; auto.
Qed.

Lemma collect_invariant tree :
  P emptySourceInfo → P (DependenciesCollector.collect sm ctx tree).
Proof using P_insert P_uses.
  intros H0. rewrite collect_visits. apply fold_left_invariant; [|done].
  intros si [d|s current] Hsi; simpl;
    [by apply WalkUpFromDecl_invariant|by apply VisitStmt_invariant].
Qed.

End UsesInvariant.

End CollectorFacts.

(** ** Vertices of [uses] are canonical or namespaces *)

Section CanonicalVertices.
Context (sm : SourceManager) (ctx : ASTContext).

Lemma insertReference_uses (a b : Decl) (si : SourceInfo) :
  uses (DependenciesCollector.insertReference ctx (Some a) (Some b) si)
  = <[endpoint ctx a := {[endpoint ctx b]} ∪ default ∅ (uses si !! endpoint ctx a)]>
      (uses si).
Proof. reflexivity. Qed.

Lemma insertReference_hasEdge (a b : Decl) (si : SourceInfo) (x y : Decl) :
  hasEdge (uses (DependenciesCollector.insertReference ctx (Some a) (Some b) si)) x y
  ↔ hasEdge (uses si) x y ∨ (x = endpoint ctx a ∧ y = endpoint ctx b).
Proof.
  rewrite insertReference_uses. unfold hasEdge.
  destruct (decide (x = endpoint ctx a)) as [->|Hne].
  - rewrite lookup_insert_eq. split.
    + intros (s & [= <-] & Hy). apply elem_of_union in Hy as [Hy|Hy].
      * right. split; [done|]. by apply elem_of_singleton in Hy.
      * left. destruct (uses si !! endpoint ctx a) as [s0|] eqn:E; simpl in Hy.
        -- by exists s0.
        -- by apply not_elem_of_empty in Hy.
    + intros [(s & Hs & Hy)|[_ ->]]; eexists; (split; [done|]).
      * rewrite Hs. simpl. set_solver.
      * set_solver.
  - rewrite lookup_insert_ne by done. split; [by left|].
    intros [H|[? _]]; [done|by subst].
Qed.

Lemma insertReference_vertexOf (a b : Decl) (si : SourceInfo) (d : Decl) :
  vertexOf (uses (DependenciesCollector.insertReference ctx (Some a) (Some b) si)) d
  → vertexOf (uses si) d ∨ d = endpoint ctx a ∨ d = endpoint ctx b.
Proof.
  rewrite insertReference_uses. unfold vertexOf. intros [Hk|(x & s & Hs & Hd)].
  - destruct (decide (d = endpoint ctx a)) as [->|Hne]; [by auto|].
    rewrite lookup_insert_ne in Hk by done. by left; left.
  - assert (He : hasEdge (uses (DependenciesCollector.insertReference ctx (Some a) (Some b) si)) x d).
    { rewrite insertReference_uses. by exists s. }
    apply insertReference_hasEdge in He as [(s' & Hs' & Hd')|[_ ->]]; [|by auto].
    left; right. by exists x, s'.
Qed.

Section CanonicalIsCanonical.
Hypothesis canonical_idempotent :
  ∀ d, canonical ctx (canonical ctx d) = canonical ctx d.

Lemma endpoint_canonicalOrNamespace d : canonicalOrNamespace ctx (endpoint ctx d).
Proof using canonical_idempotent.
  unfold endpoint, canonicalOrNamespace.
  destruct (isa ctx NamespaceDecl d) eqn:E; [by left|right; apply canonical_idempotent].
Qed.

Lemma insertReference_verticesCanonical from to si :
  verticesCanonical ctx si →
  verticesCanonical ctx (DependenciesCollector.insertReference ctx from to si).
Proof using canonical_idempotent.
  intros Hsi. destruct from as [a|], to as [b|]; try done.
  intros d Hd. apply insertReference_vertexOf in Hd as [Hd|[->| ->]];
    [by apply Hsi|apply endpoint_canonicalOrNamespace..].
Qed.

Lemma collect_verticesCanonical tree :
  verticesCanonical ctx (DependenciesCollector.collect sm ctx tree).
Proof using canonical_idempotent.
  apply (collect_invariant sm ctx (verticesCanonical ctx)).
  - apply insertReference_verticesCanonical.
  - intros si k dl sv Hsi. exact Hsi.
  - intros d [[s Hs]|(a & s & Hs & _)]; simpl in Hs;
      by rewrite lookup_empty in Hs.
Qed.

End CanonicalIsCanonical.

(** C5. [insertReference] drops an edge with a null endpoint; otherwise it
    adds exactly the edge between the two endpoints, each replaced by its
    canonical declaration unless it is a namespace, which is left as it is.
    Hence, canonical declarations being canonical, every vertex of the
    [uses] map that the collector builds is canonical or a namespace. *)
Theorem insertReference_canonical_or_namespace
    (canonical_idempotent : ∀ d, canonical ctx (canonical ctx d) = canonical ctx d) :
  (∀ to si, DependenciesCollector.insertReference ctx None to si = si)
  ∧ (∀ from si, DependenciesCollector.insertReference ctx from None si = si)
  ∧ (∀ d, endpoint ctx d = if isa ctx NamespaceDecl d then d else canonical ctx d)
  ∧ (∀ a b si x y,
       hasEdge (uses (DependenciesCollector.insertReference ctx (Some a) (Some b) si)) x y
       ↔ hasEdge (uses si) x y ∨ (x = endpoint ctx a ∧ y = endpoint ctx b))
  ∧ (∀ tree d,
       vertexOf (uses (DependenciesCollector.collect sm ctx tree)) d →
       canonicalOrNamespace ctx d).
Proof.
  split; [done|]. split; [by intros [?|] ?|]. split; [done|].
  split; [apply insertReference_hasEdge|].
  intros tree. by apply collect_verticesCanonical.
Qed.

End CanonicalVertices.

(** ** Roots: [declsToKeep] *)

Lemma startsWith_spec (p s : list ascii) :
  startsWith p s = true ↔ ∃ rest, s = p ++ rest.
Proof.
  revert s. induction p as [|a p IH]; intros s; simpl.
  - split; [by exists s|done].
  - destruct s as [|b s]; simpl.
    + split; [done|]. by intros [rest Hrest].
    + rewrite andb_true_iff, bool_decide_eq_true, IH. split.
      * intros [-> [rest ->]]. by exists rest.
      * intros [rest [= -> ->]]. split; [done|]. by exists rest.
Qed.

Lemma findFrom_spec (needle s : list ascii) (pos : nat) :
  is_Some (findFrom needle s pos) ↔ containsSubstring needle s.
Proof.
  unfold containsSubstring. revert pos.
  induction s as [|c s IH]; intros pos; simpl.
  - destruct (startsWith needle []) eqn:E.
    + split; [|by eauto]. intros _. apply startsWith_spec in E as [rest E].
      by exists [], rest.
    + split; [by intros [? ?]|]. intros (before & after & H).
      symmetry in H. apply app_eq_nil in H as [-> H]. simpl in H.
      assert (startsWith needle [] = true) by (apply startsWith_spec; eauto).
      congruence.
  - destruct (startsWith needle (c :: s)) eqn:E.
    + split; [|by eauto]. intros _. apply startsWith_spec in E as [rest E].
      by exists [], rest.
    + rewrite IH. split.
      * intros (before & after & ->). by exists (c :: before), after.
      * intros (before & after & H). destruct before as [|b before].
        -- simpl in H.
           assert (startsWith needle (c :: s) = true)
             by (apply startsWith_spec; eauto).
           congruence.
        -- injection H as -> ->. by exists before, after.
Qed.

Lemma find_spec (haystack needle : list ascii) :
  is_Some (find haystack needle) ↔ containsSubstring needle haystack.
Proof. apply findFrom_spec. Qed.

Lemma visits_visitOrder (n : Node) (stack : list Decl) (d : Decl) :
  VisitedDecl d ∈ visits n stack ↔ d ∈ visitOrder n.
Proof.
  revert stack.
  induction n as [d' children IH|s children IH] using Node_forall_ind;
    intros stack; simpl.
  - rewrite !elem_of_cons.
    assert (Hch : ∀ stk, VisitedDecl d ∈ flat_map (fun c => visits c stk) children
                  ↔ d ∈ flat_map visitOrder children).
    { intros stk. induction IH as [|c cs Hc _ IHcs]; simpl; [by rewrite !elem_of_nil|].
      by rewrite !elem_of_app, Hc, IHcs. }
    rewrite Hch. split; intros [H|H]; auto; left; congruence.
  - rewrite elem_of_cons.
    assert (Hch : ∀ stk, VisitedDecl d ∈ flat_map (fun c => visits c stk) children
                  ↔ d ∈ flat_map visitOrder children).
    { intros stk. induction IH as [|c cs Hc _ IHcs]; simpl; [by rewrite !elem_of_nil|].
      by rewrite !elem_of_app, Hc, IHcs. }
    rewrite Hch. split; [by intros [?|?]|by right].
Qed.

Section Roots.
Context (sm : SourceManager) (ctx : ASTContext).

Lemma insertReference_declsToKeep from to si :
  declsToKeep (DependenciesCollector.insertReference ctx from to si) = declsToKeep si.
Proof. by destruct from, to. Qed.

Lemma insertReferenceToType_declsToKeep from to si :
  declsToKeep (DependenciesCollector.insertReferenceToType ctx from to si)
  = declsToKeep si.
Proof.
  apply (insertReferenceToType_invariant ctx (fun s => declsToKeep s = declsToKeep si));
    [|done].
  intros f t s Hs. by rewrite insertReference_declsToKeep.
Qed.

(** [VisitDecl] with the reading of the comment's characters folded into
    [commentText]. *)
Lemma VisitDecl_commentText d si :
  DependenciesCollector.VisitDecl sm ctx d si
  = let si1 :=
      match getDeclContext (declInfo ctx d) with
      | Some c => if negb (isa ctx FunctionDecl c)
                  then DependenciesCollector.insertReference ctx (Some d) (Some c) si
                  else si
      | None => si
      end in
    if negb (isInMainFile sm (getLocStart (declInfo ctx d))) then si1
    else match getRawCommentForDeclNoCache (declInfo ctx d) with
         | None => si1
         | Some comment =>
             match commentText sm comment with
             | None => si1
             | Some text =>
                 match find text DependenciesCollector.caideKeepComment with
                 | Some _ => mkSourceInfo (uses si1) ({[d]} ∪ declsToKeep si1)
                               (delayedParsedFunctions si1) (staticVariables si1)
                 | None => si1
                 end
             end
         end.
Proof.
  unfold DependenciesCollector.VisitDecl, commentText. cbv zeta.
  destruct (negb (isInMainFile sm (getLocStart (declInfo ctx d)))); [done|].
  destruct (getRawCommentForDeclNoCache (declInfo ctx d)) as [comment|]; [|done].
  destruct (dataPtr (getCharacterData sm (commentLocStart comment))) as [beg|]; [|done].
  destruct (dataInvalid (getCharacterData sm (commentLocStart comment)));
    [by destruct (dataPtr (getCharacterData sm (commentLocEnd comment)))|].
  destruct (dataPtr (getCharacterData sm (commentLocEnd comment))) as [end_|]; [|done].
  by destruct (dataInvalid (getCharacterData sm (commentLocEnd comment))).
Qed.

(** The length the code gives the haystack, [end - beg + 1], makes it end
    with the last character of the comment. *)
Lemma distance_spec (beg end_ : nat) :
  DependenciesCollector.distance beg end_ = S end_ - beg.
Proof. unfold DependenciesCollector.distance. lia. Qed.

(** The haystack that [VisitDecl] searches is the text of the comment, and
    the needle is "caide keep". *)
Lemma markedCaideKeep_commentText d :
  markedCaideKeep sm ctx d
  ↔ isInMainFile sm (getLocStart (declInfo ctx d)) = true
    ∧ ∃ comment text,
        getRawCommentForDeclNoCache (declInfo ctx d) = Some comment
        ∧ commentText sm comment = Some text
        ∧ containsSubstring DependenciesCollector.caideKeepComment text.
Proof.
  unfold markedCaideKeep, commentText, charactersFromTo,
    DependenciesCollector.StringRef, DependenciesCollector.caideKeepComment.
  cbv zeta. split; intros [Hmain Hc]; (split; [done|]).
  - destruct Hc as (comment & first & last & Hc & Hb & Hbi & He & Hei & Hs).
    exists comment, (map (charAt sm) (seq first (S last - first))).
    split; [done|]. rewrite Hb, He, Hbi, Hei. cbn [orb].
    by rewrite distance_spec.
  - destruct Hc as (comment & text & Hc & Ht & Hs).
    destruct (dataPtr (getCharacterData sm (commentLocStart comment)))
      as [first|] eqn:Hb; [|done].
    destruct (dataPtr (getCharacterData sm (commentLocEnd comment)))
      as [last|] eqn:He; [|done].
    destruct (dataInvalid (getCharacterData sm (commentLocStart comment))) eqn:Hbi;
      [done|].
    destruct (dataInvalid (getCharacterData sm (commentLocEnd comment))) eqn:Hei;
      [done|].
    cbn [orb] in Ht. injection Ht as <-. rewrite distance_spec in Hs.
    by exists comment, first, last.
Qed.

Lemma VisitDecl_declsToKeep d si x :
  x ∈ declsToKeep (DependenciesCollector.VisitDecl sm ctx d si)
  ↔ x ∈ declsToKeep si ∨ (x = d ∧ markedCaideKeep sm ctx d).
Proof.
  rewrite VisitDecl_commentText, markedCaideKeep_commentText.
  set (si1 := match getDeclContext (declInfo ctx d) with Some _ => _ | None => _ end).
  assert (H1 : declsToKeep si1 = declsToKeep si).
  { subst si1. repeat case_match; by rewrite ?insertReference_declsToKeep. }
  clearbody si1. cbv zeta.
  destruct (isInMainFile sm (getLocStart (declInfo ctx d))); cbn [negb];
    [|rewrite H1; split; [by left|by intros [?|(_ & ? & _)]]].
  destruct (getRawCommentForDeclNoCache (declInfo ctx d)) as [comment|];
    [|rewrite H1; split; [by left|by intros [?|(_ & _ & ? & ? & ? & _)]]].
  destruct (commentText sm comment) as [text|] eqn:Htext;
    [|rewrite H1; split; [by left|intros [?|(_ & _ & c & t & [= <-] & ? & _)]; [done|congruence]]].
  destruct (find text DependenciesCollector.caideKeepComment) as [i|] eqn:Hfind.
  - cbn [declsToKeep]. rewrite elem_of_union, elem_of_singleton, H1.
    assert (containsSubstring DependenciesCollector.caideKeepComment text)
      by (apply find_spec; rewrite Hfind; eauto).
    split; [intros [->|?]; [right|left]|intros [?|[-> _]]; [right|left]]; try done.
    split; [done|]. split; [done|]. by exists comment, text.
  - rewrite H1. split; [by left|].
    intros [?|(_ & _ & c & t & [= <-] & Ht & Hc)]; [done|].
    rewrite Htext in Ht. injection Ht as <-.
    apply find_spec in Hc. rewrite Hfind in Hc. by destruct Hc.
Qed.

Lemma VisitFunctionDecl_declsToKeep f si x :
  x ∈ declsToKeep (DependenciesCollector.VisitFunctionDecl sm ctx f si)
  ↔ x ∈ declsToKeep si ∨ (x = f ∧ isMain (asFunction (declInfo ctx f)) = true).
Proof.
  unfold DependenciesCollector.VisitFunctionDecl.
  set (si1 := if isMain _ then _ else si).
  assert (H1 : x ∈ declsToKeep si1
               ↔ x ∈ declsToKeep si ∨ (x = f ∧ isMain (asFunction (declInfo ctx f)) = true)).
  { subst si1. destruct (isMain _); simpl; [set_solver|naive_solver]. }
  clearbody si1. rewrite <- H1.
  repeat case_match;
    by rewrite ?insertReference_declsToKeep, ?insertReferenceToType_declsToKeep,
               ?insertReference_declsToKeep.
Qed.

Lemma whenIsa_declsToKeep cls visit d si :
  (∀ s, declsToKeep (visit d s) = declsToKeep s) →
  declsToKeep (DependenciesCollector.whenIsa ctx cls visit d si) = declsToKeep si.
Proof.
  intros Hv. unfold DependenciesCollector.whenIsa. by destruct (isa ctx cls d).
Qed.

Ltac frame_declsToKeep :=
  intros;
  unfold DependenciesCollector.VisitTemplateTypeParmDecl,
    DependenciesCollector.VisitClassTemplateSpecializationDecl,
    DependenciesCollector.VisitCXXRecordDecl,
    DependenciesCollector.VisitClassTemplateDecl,
    DependenciesCollector.VisitFunctionTemplateDecl,
    DependenciesCollector.VisitCXXMethodDecl,
    DependenciesCollector.VisitFieldDecl,
    DependenciesCollector.VisitVarDecl,
    DependenciesCollector.VisitValueDecl,
    DependenciesCollector.VisitTypeAliasTemplateDecl,
    DependenciesCollector.VisitTypeAliasDecl,
    DependenciesCollector.VisitTypedefNameDecl;
  repeat case_match;
  by rewrite ?insertReference_declsToKeep, ?insertReferenceToType_declsToKeep,
             ?insertReference_declsToKeep.

Lemma WalkUpFromDecl_declsToKeep d si x :
  x ∈ declsToKeep (DependenciesCollector.WalkUpFromDecl sm ctx d si)
  ↔ x ∈ declsToKeep si
    ∨ (x = d ∧ (isMainFunction ctx d ∨ markedCaideKeep sm ctx d)).
Proof.
  unfold DependenciesCollector.WalkUpFromDecl, isMainFunction.
  rewrite !whenIsa_declsToKeep by frame_declsToKeep.
  unfold DependenciesCollector.whenIsa at 1.
  destruct (isa ctx FunctionDecl d) eqn:Hfn.
  - rewrite VisitFunctionDecl_declsToKeep.
    rewrite !whenIsa_declsToKeep by frame_declsToKeep.
    rewrite VisitDecl_declsToKeep. naive_solver.
  - rewrite !whenIsa_declsToKeep by frame_declsToKeep.
    rewrite VisitDecl_declsToKeep. naive_solver.
Qed.

Lemma VisitStmt_declsToKeep s current si :
  declsToKeep (DependenciesCollector.VisitStmt ctx s current si) = declsToKeep si.
Proof.
  destruct s; cbn [DependenciesCollector.VisitStmt];
    unfold DependenciesCollector.VisitCallExpr, DependenciesCollector.VisitDeclRefExpr,
      DependenciesCollector.typeOfSourceInfo;
    repeat case_match;
    rewrite ?insertReferenceToType_declsToKeep, ?insertReference_declsToKeep; try done.
  apply (fold_left_invariant (fun s => declsToKeep s = declsToKeep si)).
  - intros a b Ha. by rewrite insertReferenceToType_declsToKeep.
  - by rewrite insertReference_declsToKeep.
Qed.

Lemma visits_declsToKeep (vs : list Visit) (si : SourceInfo) (x : Decl) :
  x ∈ declsToKeep (fold_left (fun si v => applyVisit sm ctx v si) vs si)
  ↔ x ∈ declsToKeep si
    ∨ (VisitedDecl x ∈ vs ∧ (isMainFunction ctx x ∨ markedCaideKeep sm ctx x)).
Proof.
  revert si. induction vs as [|v vs IH]; intros si; cbn [fold_left].
  - split; [by left|]. intros [?|[H _]]; [done|]. by apply elem_of_nil in H.
  - rewrite IH, elem_of_cons. destruct v as [d|s current]; cbn [applyVisit].
    + rewrite WalkUpFromDecl_declsToKeep. naive_solver.
    + rewrite VisitStmt_declsToKeep. naive_solver.
Qed.

(** C1. The roots that the collector produces are exactly the visited
    declarations that are a function for which [isMain] holds, or that start
    in the main file and carry a raw comment whose text, the characters of
    the file from the first to the last character of the comment, contains
    "caide keep". *)
Theorem declsToKeep_exactly_main_and_caide_keep (tree : Node) (d : Decl) :
  d ∈ declsToKeep (DependenciesCollector.collect sm ctx tree)
  ↔ d ∈ visitOrder tree ∧ (isMainFunction ctx d ∨ markedCaideKeep sm ctx d).
Proof.
  rewrite collect_visits, visits_declsToKeep, visits_visitOrder.
  split; [|by right]. intros [H|H]; [|done].
  by apply not_elem_of_empty in H.
Qed.

End Roots.

(** ** Reachability: the worklist loop *)

Lemma classof_destructor_not_record (k : DeclClass) :
  classof CXXDestructorDecl k = true → classof CXXRecordDecl k = false.
Proof. by destruct k. Qed.

Lemma fold_right_min_elem (x : positive) (l : list positive) :
  fold_right Pos.min x l ∈ x :: l.
Proof.
  induction l as [|y l IH]; cbn [fold_right]; [by left|].
  destruct (Pos.min_spec y (fold_right Pos.min x l)) as [[_ ->]|[_ ->]].
  - right; by left.
  - apply elem_of_cons in IH as [->|IH]; [by left|by do 2 right].
Qed.

Lemma begin_None (s : gset Decl) : OptimizerConsumer.begin s = None ↔ s = ∅.
Proof.
  unfold OptimizerConsumer.begin.
  destruct (elements s) as [|x l] eqn:E.
  - split; [|done]. intros _. by apply elements_empty_inv, leibniz_equiv in E.
  - split; [done|]. intros ->. by rewrite elements_empty in E.
Qed.

Lemma begin_Some (s : gset Decl) (x : Decl) :
  OptimizerConsumer.begin s = Some x → x ∈ s.
Proof.
  unfold OptimizerConsumer.begin.
  destruct (elements s) as [|y l] eqn:E; [done|]. intros [= <-].
  pose proof (fold_right_min_elem y l) as H. rewrite <- E in H.
  by apply elem_of_elements in H.
Qed.

Section Reachability.
Context (sm : SourceManager) (ctx : ASTContext).

#[local] Abbreviation visitQueued := (OptimizerConsumer.visitQueued sm ctx).
#[local] Abbreviation searchLoop := (OptimizerConsumer.searchLoop sm ctx).

(** The queue after the body of the loop, in the branch that marks [decl]. *)
Lemma visitQueued_new decl s :
  decl ∉ OptimizerConsumer.used s →
  OptimizerConsumer.used (visitQueued decl s) = {[decl]} ∪ OptimizerConsumer.used s
  ∧ OptimizerConsumer.queue (visitQueued decl s)
    = match destructorOfRecord ctx decl with
      | Some destructor => {[destructor]} ∪ ((OptimizerConsumer.queue s ∖ {[decl]})
                             ∪ default ∅ (OptimizerConsumer.uses' s !! decl))
      | None => (OptimizerConsumer.queue s ∖ {[decl]})
                ∪ default ∅ (OptimizerConsumer.uses' s !! decl)
      end
  ∧ OptimizerConsumer.uses' (visitQueued decl s)
    = <[decl := default ∅ (OptimizerConsumer.uses' s !! decl)]> (OptimizerConsumer.uses' s)
  ∧ OptimizerConsumer.usageInfo (visitQueued decl s)
    = UsageInfo.addIfInMainFile sm ctx decl (OptimizerConsumer.usageInfo s).
Proof.
  intros Hnew. unfold OptimizerConsumer.visitQueued, destructorOfRecord, dyn_cast_or_null.
  rewrite bool_decide_eq_false_2 by done.
  cbv zeta. cbn [OptimizerConsumer.used OptimizerConsumer.queue
                 OptimizerConsumer.uses' OptimizerConsumer.usageInfo].
  split; [done|]. split; [|done].
  destruct (isa ctx CXXRecordDecl decl); [|done].
  by destruct (getDestructor (asRecord (declInfo ctx decl))).
Qed.

Lemma visitQueued_old decl s :
  decl ∈ OptimizerConsumer.used s →
  visitQueued decl s
  = OptimizerConsumer.mkSearch (OptimizerConsumer.used s)
      (OptimizerConsumer.queue s ∖ {[decl]}) (OptimizerConsumer.uses' s)
      (OptimizerConsumer.usageInfo s).
Proof.
  intros Hold. unfold OptimizerConsumer.visitQueued.
  by rewrite bool_decide_eq_true_2.
Qed.

Lemma visitQueued_destructorsFollow decl s :
  destructorsFollow ctx s → destructorsFollow ctx (visitQueued decl s).
Proof.
  intros Hs record destructor Hrec Hdtor.
  destruct (decide (decl ∈ OptimizerConsumer.used s)) as [Hold|Hnew].
  - rewrite visitQueued_old in * by done.
    cbn [OptimizerConsumer.used OptimizerConsumer.queue] in *.
    specialize (Hs record destructor Hrec Hdtor). clear Hdtor Hrec.
    destruct (decide (destructor = decl)) as [->|Hne]; set_solver.
  - destruct (visitQueued_new decl s Hnew) as (Hu & Hq & _).
    rewrite Hu in *. rewrite Hq. clear Hu Hq.
    apply elem_of_union in Hrec as [Hrec|Hrec].
    + apply elem_of_singleton in Hrec as ->. rewrite Hdtor. clear. set_solver.
    + specialize (Hs record destructor Hrec Hdtor). clear Hdtor Hrec Hnew.
      destruct (decide (destructor = decl)) as [->|Hne]; [clear; set_solver|].
      destruct (destructorOfRecord ctx decl); set_solver.
Qed.

Lemma addIfInMainFile_usedDecls decl u x :
  x ∈ UsageInfo.usedDecls (UsageInfo.addIfInMainFile sm ctx decl u)
  ↔ x ∈ UsageInfo.usedDecls u
    ∨ (x = decl ∧ isInMainFile sm (getExpansionStart (declInfo ctx decl)) = true).
Proof.
  unfold UsageInfo.addIfInMainFile, UsageInfo.getSourceRange, getExpansionRange.
  cbv zeta. cbn [getBegin].
  destruct (isInMainFile sm (getExpansionStart (declInfo ctx decl))).
  - cbn [UsageInfo.usedDecls]. set_solver.
  - split; [by left|]. by intros [?|[_ ?]].
Qed.

Lemma visitQueued_usageRecorded decl s :
  usageRecorded sm ctx s → usageRecorded sm ctx (visitQueued decl s).
Proof.
  intros Hs d Hd Hmain.
  destruct (decide (decl ∈ OptimizerConsumer.used s)) as [Hold|Hnew].
  - rewrite visitQueued_old in * by done. by apply Hs.
  - destruct (visitQueued_new decl s Hnew) as (Hu & _ & _ & Hi).
    rewrite Hu in Hd. rewrite Hi. apply addIfInMainFile_usedDecls.
    apply elem_of_union in Hd as [Hd|Hd].
    + apply elem_of_singleton in Hd as ->. by right.
    + left. by apply Hs.
Qed.

(** Whatever holds at the start and is kept by the body of the loop holds
    when the loop ends, and the queue is empty then. *)
Lemma searchLoop_invariant (I : OptimizerConsumer.Search → Prop) fuel s s' :
  (∀ decl s, I s → decl ∈ OptimizerConsumer.queue s → I (visitQueued decl s)) →
  searchLoop fuel s = Some s' → I s → I s' ∧ OptimizerConsumer.queue s' = ∅.
Proof.
  intros Hstep. revert s. induction fuel as [|fuel IH]; intros s; cbn [OptimizerConsumer.searchLoop].
  - destruct (OptimizerConsumer.begin (OptimizerConsumer.queue s)) eqn:E; [done|].
    intros [= <-] Hs. split; [done|]. by apply begin_None.
  - destruct (OptimizerConsumer.begin (OptimizerConsumer.queue s)) as [decl|] eqn:E.
    + intros Hloop Hs. apply (IH _ Hloop). apply Hstep; [done|]. by apply begin_Some.
    + intros [= <-] Hs. split; [done|]. by apply begin_None.
Qed.

Lemma visitQueued_staysWithin U decl s :
  staysWithin ctx U s → decl ∈ OptimizerConsumer.queue s →
  staysWithin ctx U (visitQueued decl s).
Proof.
  intros (Hused & Hqueue & Huses & Hdtor) Hdecl.
  destruct (decide (decl ∈ OptimizerConsumer.used s)) as [Hold|Hnew].
  - rewrite visitQueued_old by done.
    repeat split; cbn [OptimizerConsumer.used OptimizerConsumer.queue OptimizerConsumer.uses'];
      [done|set_solver|done|done].
  - destruct (visitQueued_new decl s Hnew) as (Hu & Hq & Hm & _).
    assert (Hsucc : default ∅ (OptimizerConsumer.uses' s !! decl) ⊆ U).
    { destruct (OptimizerConsumer.uses' s !! decl) as [succ|] eqn:E; cbn [default].
      - by apply (Huses decl).
      - set_solver. }
    repeat split.
    + rewrite Hu. set_solver.
    + rewrite Hq. destruct (destructorOfRecord ctx decl) as [x|] eqn:E.
      * assert (x ∈ U) by (apply (Hdtor decl); [set_solver|done]). set_solver.
      * set_solver.
    + rewrite Hm. intros d succ. destruct (decide (d = decl)) as [->|Hne].
      * rewrite lookup_insert_eq. by intros [= <-].
      * rewrite lookup_insert_ne by done. apply Huses.
    + done.
Qed.

Lemma visitQueued_measure U decl s :
  staysWithin ctx U s → decl ∈ OptimizerConsumer.queue s →
  searchMeasure U (visitQueued decl s) < searchMeasure U s.
Proof.
  intros Hs Hdecl.
  pose proof (visitQueued_staysWithin U decl s Hs Hdecl) as (_ & Hq' & _).
  destruct Hs as (Hused & Hqueue & _ & _).
  unfold searchMeasure.
  destruct (decide (decl ∈ OptimizerConsumer.used s)) as [Hold|Hnew].
  - rewrite visitQueued_old by done.
    cbn [OptimizerConsumer.used OptimizerConsumer.queue].
    assert (size (OptimizerConsumer.queue s ∖ {[decl]}) < size (OptimizerConsumer.queue s)).
    { apply subset_size. set_solver. }
    lia.
  - destruct (visitQueued_new decl s Hnew) as (Hu & _).
    rewrite Hu.
    assert (size (U ∖ ({[decl]} ∪ OptimizerConsumer.used s))
            < size (U ∖ OptimizerConsumer.used s)).
    { apply subset_size. set_solver. }
    assert (size (OptimizerConsumer.queue (visitQueued decl s)) ≤ size U)
      by (by apply subseteq_size).
    nia.
Qed.

Lemma searchLoop_terminates U fuel s :
  staysWithin ctx U s → searchMeasure U s ≤ fuel → is_Some (searchLoop fuel s).
Proof.
  revert s. induction fuel as [|fuel IH]; intros s Hs Hm;
    cbn [OptimizerConsumer.searchLoop].
  - destruct (OptimizerConsumer.begin (OptimizerConsumer.queue s)) as [decl|] eqn:E; [|by eauto].
    apply begin_Some in E. unfold searchMeasure in Hm.
    assert (size (OptimizerConsumer.queue s) ≠ 0).
    { intros H0. apply size_empty_inv in H0. set_solver. }
    lia.
  - destruct (OptimizerConsumer.begin (OptimizerConsumer.queue s)) as [decl|] eqn:E; [|by eauto].
    apply begin_Some in E. apply IH.
    + by apply visitQueued_staysWithin.
    + pose proof (visitQueued_measure U decl s Hs E). lia.
Qed.

Lemma startSearch_staysWithin srcInfo :
  (∀ d x, getDestructor (asRecord (declInfo ctx d)) = Some x →
          isa ctx CXXDestructorDecl x = true) →
  staysWithin ctx (OptimizerConsumer.universe ctx srcInfo)
    (OptimizerConsumer.startSearch ctx srcInfo).
Proof.
  intros Htyped. unfold OptimizerConsumer.universe, OptimizerConsumer.startSearch.
  set (G := OptimizerConsumer.graphVertices ctx srcInfo).
  assert (HD : ∀ d x, d ∈ G → destructorOfRecord ctx d = Some x →
                      x ∈ OptimizerConsumer.destructorsOf ctx G).
  { intros d x Hd Hx. unfold OptimizerConsumer.destructorsOf.
    apply elem_of_list_to_set, list_elem_of_omap. exists d.
    split; [by apply elem_of_elements|].
    unfold destructorOfRecord in Hx. unfold dyn_cast_or_null.
    by destruct (isa ctx CXXRecordDecl d). }
  repeat split; cbn [OptimizerConsumer.used OptimizerConsumer.queue OptimizerConsumer.uses'].
  - set_solver.
  - subst G. unfold OptimizerConsumer.graphVertices. set_solver.
  - intros d succ Hd x Hx. apply elem_of_union; left.
    subst G. unfold OptimizerConsumer.graphVertices.
    apply elem_of_union; right. apply elem_of_union_list.
    exists succ. split; [|done].
    apply list_elem_of_fmap. exists (d, succ). split; [done|].
    by apply elem_of_map_to_list.
  - intros d x Hd Hx. apply elem_of_union in Hd as [Hd|Hd].
    + apply elem_of_union; right. by apply (HD d).
    + exfalso. unfold OptimizerConsumer.destructorsOf in Hd.
      apply elem_of_list_to_set, list_elem_of_omap in Hd as (r & _ & Hr).
      unfold dyn_cast_or_null in Hr.
      destruct (isa ctx CXXRecordDecl r); [|done]. cbn in Hr.
      apply Htyped in Hr. unfold destructorOfRecord in Hx.
      unfold isa in *. apply classof_destructor_not_record in Hr.
      by rewrite Hr in Hx.
Qed.

Lemma startSearch_measure srcInfo :
  searchMeasure (OptimizerConsumer.universe ctx srcInfo)
    (OptimizerConsumer.startSearch ctx srcInfo)
  ≤ OptimizerConsumer.searchBound ctx srcInfo.
Proof.
  unfold searchMeasure, OptimizerConsumer.searchBound, OptimizerConsumer.startSearch.
  cbn [OptimizerConsumer.used OptimizerConsumer.queue]. cbv zeta.
  set (U := OptimizerConsumer.universe ctx srcInfo).
  assert (size (U ∖ ∅) ≤ size U) by (apply subseteq_size; set_solver).
  assert (size (OptimizerConsumer.initialQueue ctx srcInfo) ≤ size U).
  { apply subseteq_size. subst U.
    unfold OptimizerConsumer.universe, OptimizerConsumer.graphVertices. set_solver. }
  nia.
Qed.

Lemma isUsed_usedDecls u d :
  d ∈ UsageInfo.usedDecls u → UsageInfo.isUsed sm ctx u d = true.
Proof. intros Hd. unfold UsageInfo.isUsed. by rewrite bool_decide_eq_true_2. Qed.

(** C2. The reachability loop ends (a destructor declaration not being a
    class record, the bound on its iterations is explicit), and whenever it
    ends every class record in the used set that has a destructor has that
    destructor in the used set too; the destructor is then also known to
    the usage info if its range starts in the main file. *)
Theorem used_class_record_has_used_destructor (srcInfo : SourceInfo)
    (destructors_typed :
       ∀ d x, getDestructor (asRecord (declInfo ctx d)) = Some x →
              isa ctx CXXDestructorDecl x = true) :
  is_Some (OptimizerConsumer.findUsedDecls sm ctx
             (OptimizerConsumer.searchBound ctx srcInfo) srcInfo)
  ∧ ∀ fuel s,
      OptimizerConsumer.findUsedDecls sm ctx fuel srcInfo = Some s →
      OptimizerConsumer.queue s = ∅
      ∧ ∀ record destructor,
          record ∈ OptimizerConsumer.used s →
          isa ctx CXXRecordDecl record = true →
          getDestructor (asRecord (declInfo ctx record)) = Some destructor →
          destructor ∈ OptimizerConsumer.used s
          ∧ (isInMainFile sm (getExpansionStart (declInfo ctx destructor)) = true →
             UsageInfo.isUsed sm ctx (OptimizerConsumer.usageInfo s) destructor = true).
Proof.
  split.
  - apply (searchLoop_terminates (OptimizerConsumer.universe ctx srcInfo)).
    + by apply startSearch_staysWithin.
    + apply startSearch_measure.
  - intros fuel s Hloop. unfold OptimizerConsumer.findUsedDecls in Hloop.
    destruct (searchLoop_invariant
                (fun s => destructorsFollow ctx s ∧ usageRecorded sm ctx s)
                fuel (OptimizerConsumer.startSearch ctx srcInfo) s)
      as ((Hd & Hu) & Hq).
    + intros decl s0 [? ?] _. split;
        [by apply visitQueued_destructorsFollow|by apply visitQueued_usageRecorded].
    + done.
    + split.
      * intros d x Hd. by apply not_elem_of_empty in Hd.
      * intros d Hd. by apply not_elem_of_empty in Hd.
    + split; [done|]. intros record destructor Hrec Hisa Hdtor.
      assert (Hin : destructor ∈ OptimizerConsumer.used s).
      { specialize (Hd record destructor Hrec).
        unfold destructorOfRecord in Hd. rewrite Hisa in Hd.
        specialize (Hd Hdtor). rewrite Hq in Hd. clear -Hd. set_solver. }
      split; [done|]. intros Hmain. apply isUsed_usedDecls. by apply Hu.
Qed.

End Reachability.

(** ** OptimizerVisitor: the removal protocol and using-directives *)

Section Visitor.
Context (sm : SourceManager) (ctx : ASTContext) (usageInfo : UsageInfo.t).

#[local] Abbreviation removeDecl := (OptimizerVisitor.removeDecl sm ctx).
#[local] Abbreviation WalkUpFromDecl := (OptimizerVisitor.WalkUpFromDecl sm ctx usageInfo).
#[local] Abbreviation visitAll := (OptimizerVisitor.visitAll sm ctx usageInfo).

Lemma removeDecl_removeRanges decl v :
  removeDecl (Some decl) v
  = OptimizerVisitor.mk (OptimizerVisitor.declared v) (OptimizerVisitor.usedNamespaces v)
      (SmartRewriter.removeRanges sm (OptimizerVisitor.rewriter v)
         (removalRequests ctx decl)).
Proof.
  unfold OptimizerVisitor.removeDecl, removalRequests, endThroughSemicolon,
    removeEmptyLines, SmartRewriter.removeRanges.
  cbv zeta.
  by destruct (getRawCommentForDeclNoCache (declInfo ctx decl)).
Qed.

Lemma removeRanges_requested reqs rw :
  SmartRewriter.requested (SmartRewriter.removeRanges sm rw reqs)
  = SmartRewriter.requested rw ++ reqs.
Proof.
  revert rw. induction reqs as [|it reqs IH]; intros rw;
    cbn [SmartRewriter.removeRanges fold_left].
  - by rewrite app_nil_r.
  - fold (SmartRewriter.removeRanges sm
            (SmartRewriter.removeRange sm rw (range it) (opts it)).2 reqs).
    rewrite IH, removeRange_requested. destruct it. by rewrite <- app_assoc.
Qed.

(** C7. [removeDecl] submits the range from the expansion start to the
    expansion end, moved to the semicolon right after it when there is one,
    with remove-empty-lines set; when the declaration has a raw comment it
    then submits the comment's range, and otherwise nothing more.  A null
    declaration submits nothing. *)
Theorem removeDecl_submits_range_and_comment (decl : Decl) (v : OptimizerVisitor.t) :
  let info := declInfo ctx decl in
  let semi := findSemiAfterLocation ctx (getExpansionEnd info) in
  let submitted :=
    drop (length (SmartRewriter.requested (OptimizerVisitor.rewriter v)))
      (SmartRewriter.requested (OptimizerVisitor.rewriter (removeDecl (Some decl) v))) in
  removeDecl None v = v
  ∧ SmartRewriter.requested (OptimizerVisitor.rewriter (removeDecl (Some decl) v))
    = SmartRewriter.requested (OptimizerVisitor.rewriter v) ++ submitted
  ∧ (∃ end_,
       head submitted
       = Some (mkRewriteItem (mkSourceRange (getExpansionStart info) end_)
                 (setRemoveLineIfEmpty true defaultRewriteOptions))
       ∧ (isValid semi = true → end_ = semi)
       ∧ (isValid semi = false → end_ = getExpansionEnd info))
  ∧ Forall (fun it => RemoveLineIfEmpty (opts it) = true) submitted
  ∧ (∀ comment, getRawCommentForDeclNoCache info = Some comment →
       tail submitted
       = [mkRewriteItem (getSourceRange comment)
            (setRemoveLineIfEmpty true defaultRewriteOptions)])
  ∧ (getRawCommentForDeclNoCache info = None → tail submitted = [])
  ∧ OptimizerVisitor.rewriter (removeDecl (Some decl) v)
    = SmartRewriter.removeRanges sm (OptimizerVisitor.rewriter v) submitted.
Proof.
  intros info semi submitted.
  assert (Hsub : submitted = removalRequests ctx decl).
  { subst submitted. rewrite removeDecl_removeRanges.
    cbn [OptimizerVisitor.rewriter]. rewrite removeRanges_requested.
    by rewrite drop_app_length. }
  rewrite Hsub. split; [done|]. split.
  { rewrite removeDecl_removeRanges. cbn [OptimizerVisitor.rewriter].
    apply removeRanges_requested. }
  split.
  { exists (endThroughSemicolon ctx decl). split; [done|].
    unfold endThroughSemicolon. fold info. fold semi. cbv zeta.
    split; intros ->; done. }
  split.
  { unfold removalRequests.
    destruct (getRawCommentForDeclNoCache (declInfo ctx decl)); repeat constructor. }
  split; [|split].
  - intros comment Hc. unfold removalRequests. subst info. by rewrite Hc.
  - intros Hc. unfold removalRequests. subst info. by rewrite Hc.
  - by rewrite removeDecl_removeRanges.
Qed.

(** The visitor's traversal of a tree visits its declarations in order. *)
Lemma Traverse_visitAll (n : Node) (v : OptimizerVisitor.t) :
  OptimizerVisitor.Traverse sm ctx usageInfo n v = visitAll (visitOrder n) v.
Proof.
  revert v. induction n as [d children IH|s children IH] using Node_forall_ind;
    intros v; cbn [OptimizerVisitor.Traverse visitOrder].
  - unfold OptimizerVisitor.visitAll. cbn [fold_left].
    rewrite fold_left_flat_map. apply fold_left_ext_in.
    eapply Forall_impl; [exact IH|]. intros c Hc a. apply Hc.
  - unfold OptimizerVisitor.visitAll.
    rewrite fold_left_flat_map. apply fold_left_ext_in.
    eapply Forall_impl; [exact IH|]. intros c Hc a. apply Hc.
Qed.




(** What the hooks before [VisitUsingDirectiveDecl] leave of a
    using-directive: nothing happens, its class has no other hook. *)
Lemma whenIsa_other cls visit d v :
  isa ctx cls d = false → OptimizerVisitor.whenIsa ctx cls visit d v = v.
Proof. intros H. unfold OptimizerVisitor.whenIsa. by rewrite H. Qed.






End Visitor.

(** ** The comma-group pruner *)

Lemma lastTrueFrom_snoc (i : nat) (flags : list bool) (b : bool) :
  lastTrueFrom i (flags ++ [b])
  = if b then Some (i + length flags) else lastTrueFrom i flags.
Proof.
  revert i. induction flags as [|a flags IH]; intros i; cbn [app lastTrueFrom length].
  - rewrite Nat.add_0_r. by destruct b.
  - rewrite IH. destruct b; [|done]. f_equal. lia.
Qed.

Lemma lastTrueFrom_bound (i j : nat) (flags : list bool) :
  lastTrueFrom i flags = Some j → i ≤ j < i + length flags.
Proof.
  revert i. induction flags as [|a flags IH]; intros i; cbn [lastTrueFrom length]; [done|].
  destruct (lastTrueFrom (S i) flags) as [k|] eqn:E.
  - intros [= ->]. apply IH in E. lia.
  - destruct a; [|done]. intros [= ->]. lia.
Qed.

Lemma lastTrueFrom_None (i : nat) (flags : list bool) :
  lastTrueFrom i flags = None → Forall (fun b => b = false) flags.
Proof.
  revert i. induction flags as [|a flags IH]; intros i; cbn [lastTrueFrom]; [constructor|].
  destruct (lastTrueFrom (S i) flags) eqn:E; [done|].
  destruct a; [done|]. intros _. constructor; [done|by apply (IH (S i))].
Qed.

Lemma lastTrueFrom_Some (i j : nat) (flags : list bool) :
  lastTrueFrom i flags = Some j →
  flags !! (j - i) = Some true
  ∧ ∀ k, j - i < k → flags !! k = Some true → False.
Proof.
  revert i. induction flags as [|a flags IH]; intros i; cbn [lastTrueFrom]; [done|].
  destruct (lastTrueFrom (S i) flags) as [k|] eqn:E.
  - intros [= ->]. pose proof (lastTrueFrom_bound _ _ _ E) as Hb.
    destruct (IH _ E) as [Hj Hlater].
    replace (j - i) with (S (j - S i)) by lia. split; [done|].
    intros [|k] Hk; [lia|]. cbn. apply Hlater. lia.
  - destruct a; [|done]. intros [= ->]. rewrite Nat.sub_diag. split; [done|].
    intros [|k] Hk Hlook; [lia|]. cbn in Hlook.
    apply lastTrueFrom_None in E.
    by pose proof (Forall_lookup_1 _ _ _ _ E Hlook).
Qed.

Lemma asRemovals_app (a b : list SourceRange) :
  asRemovals (a ++ b) = asRemovals a ++ asRemovals b.
Proof. apply map_app. Qed.

Section Pruner.
Context (sm : SourceManager) (ctx : ASTContext) (u : UsageInfo.t).

#[local] Abbreviation used := (variableUsed sm ctx u).

Lemma lastUsedIndex_le (vars : list Decl) :
  lastUsedIndex sm ctx u vars ≤ length vars.
Proof.
  unfold lastUsedIndex.
  destruct (lastTrueFrom 0 (fmap used vars)) as [j|] eqn:E; cbn [default from_option id]; [|done].
  apply lastTrueFrom_bound in E. rewrite length_fmap in E. lia.
Qed.

(** [lastUsed] is what its name says. *)
Lemma lastUsedIndex_spec (vars : list Decl) :
  let k := lastUsedIndex sm ctx u vars in
  (k = length vars ∧ ∀ var, var ∈ vars → used var = false)
  ∨ (k < length vars
     ∧ (∃ var, vars !! k = Some var ∧ used var = true)
     ∧ ∀ j var, k < j → vars !! j = Some var → used var = false).
Proof.
  unfold lastUsedIndex.
  destruct (lastTrueFrom 0 (fmap used vars)) as [j|] eqn:E; cbn [default from_option id].
  - right. pose proof (lastTrueFrom_bound _ _ _ E) as Hb. rewrite length_fmap in Hb.
    destruct (lastTrueFrom_Some _ _ _ E) as [Hj Hlater].
    rewrite Nat.sub_0_r in Hj, Hlater.
    split; [lia|]. split.
    + rewrite list_lookup_fmap in Hj.
      destruct (vars !! j) as [var|]; [|done]. exists var. split; [done|].
      by injection Hj.
    + intros i var Hi Hvar. destruct (used var) eqn:Hu; [|done].
      exfalso. apply (Hlater i Hi). by rewrite list_lookup_fmap, Hvar, <- Hu.
  - left. split; [done|]. intros var Hvar.
    apply lastTrueFrom_None in E. rewrite Forall_forall in E.
    apply E, list_elem_of_fmap. by exists var.
Qed.

Lemma markUsage_prefix (vars : list Decl) (k : nat) :
  k ≤ length vars →
  fold_left
    (fun (acc : list bool * nat) i =>
       match vars !! i with
       | Some var =>
           let b := UsageInfo.isUsed sm ctx u (canonical ctx var) in
           (<[i := b]> acc.1, if b then i else acc.2)
       | None => acc
       end)
    (seq 0 k) (replicate (length vars) true, length vars)
  = (fmap used (take k vars) ++ replicate (length vars - k) true,
     default (length vars) (lastTrueFrom 0 (fmap used (take k vars)))).
Proof.
  induction k as [|k IH]; intros Hk.
  - cbn [seq fold_left]. rewrite take_0, Nat.sub_0_r. reflexivity.
  - rewrite seq_S, fold_left_app, IH by lia. cbn [fold_left Nat.add].
    destruct (lookup_lt_is_Some_2 vars k) as [var Hvar]; [lia|].
    rewrite Hvar. cbv zeta. cbn [fst snd].
    rewrite (take_S_r _ _ _ Hvar), fmap_app. cbn [fmap list_fmap].
    fold (used var). f_equal.
    + replace (length vars - k) with (S (length vars - S k)) by lia.
      cbn [replicate].
      assert (Hlen : length (fmap used (take k vars)) = k).
      { rewrite length_fmap, length_take. lia. }
      rewrite insert_app_r_alt by lia. rewrite Hlen, Nat.sub_diag.
      cbn [insert list_insert]. by rewrite <- app_assoc.
    + rewrite lastTrueFrom_snoc, length_fmap, length_take.
      replace (0 + k `min` length vars) with k by lia.
      by destruct (used var).
Qed.

Lemma markUsage_spec (vars : list Decl) :
  OptimizerConsumer.markUsage sm ctx u vars
  = (fmap used vars, lastUsedIndex sm ctx u vars).
Proof.
  unfold OptimizerConsumer.markUsage. cbv zeta.
  rewrite markUsage_prefix by done.
  rewrite take_ge, Nat.sub_diag by done. cbn [replicate]. by rewrite app_nil_r.
Qed.

(** The second loop, over the indices below [m]. *)
Lemma removeUnused_prefix (vars : list Decl) (m : nat) (rw : SmartRewriter.t) :
  m < length vars →
  SmartRewriter.requested
    (fold_left
       (fun rw i =>
          match fmap used vars !! i, vars !! i with
          | Some false, Some var =>
              let beg := getLocation (declInfo ctx var) in
              let end_ := getExpansionEnd (declInfo ctx var) in
              let end_ := if bool_decide (i + 1 < length vars)
                          then findTokenAfterLocation ctx end_ tok_comma
                          else end_ in
              if isValid beg && isValid end_
              then (SmartRewriter.removeRange sm rw (mkSourceRange beg end_)
                      (setRemoveLineIfEmpty true defaultRewriteOptions)).2
              else rw
          | _, _ => rw
          end)
       (seq 0 m) rw)
  = SmartRewriter.requested rw
    ++ asRemovals
         (flat_map (fun var => if used var then []
                               else if rangeIsValid (variableRange ctx var)
                                    then [variableRange ctx var] else [])
            (take m vars)).
Proof.
  match goal with
  | |- _ → SmartRewriter.requested (fold_left ?f _ _) = _ => set (F := f)
  end.
  induction m as [|m IH]; intros Hm.
  - cbn [seq fold_left]. rewrite take_0. cbn. by rewrite app_nil_r.
  - rewrite seq_S, fold_left_app. cbn [fold_left Nat.add].
    destruct (lookup_lt_is_Some_2 vars m) as [var Hvar]; [lia|].
    rewrite (take_S_r _ _ _ Hvar), flat_map_app.
    rewrite asRemovals_app, app_assoc, <- IH by lia.
    set (rw' := fold_left F (seq 0 m) rw). clearbody rw'. clear IH.
    subst F. cbv beta.
    rewrite list_lookup_fmap, Hvar. cbn [fmap option_fmap option_map flat_map].
    rewrite app_nil_r.
    destruct (used var); [by rewrite app_nil_r|].
    cbv zeta. rewrite bool_decide_eq_true_2 by lia.
    unfold rangeIsValid, variableRange. cbn [getBegin getEnd].
    destruct (isValid (getLocation (declInfo ctx var))
              && isValid (findTokenAfterLocation ctx
                            (getExpansionEnd (declInfo ctx var)) tok_comma)).
    + by rewrite removeRange_requested.
    + by rewrite app_nil_r.
Qed.

Lemma removeUnusedGroup_requested startOfType vars rw :
  SmartRewriter.requested
    (OptimizerConsumer.removeUnusedGroup sm ctx u startOfType vars rw)
  = SmartRewriter.requested rw
    ++ asRemovals (guardedRanges sm ctx u startOfType vars).
Proof.
  unfold OptimizerConsumer.removeUnusedGroup, guardedRanges.
  rewrite markUsage_spec. cbv zeta.
  pose proof (lastUsedIndex_le vars) as Hle.
  unfold wholeGroupRange, trailingRange.
  destruct (last vars) as [lastVar|] eqn:Hlast.
  2:{ apply last_None in Hlast. subst vars. cbn. by rewrite app_nil_r. }
  case_bool_decide as Hall.
  - by rewrite removeRange_requested.
  - assert (Hlt : lastUsedIndex sm ctx u vars < length vars) by lia.
    destruct (lookup_lt_is_Some_2 vars _ Hlt) as [var Hvar]. rewrite Hvar.
    rewrite asRemovals_app, app_assoc, <- (removeUnused_prefix vars _ rw Hlt).
    set (rw' := fold_left _ _ rw).
    case_bool_decide as Hne.
    + rewrite bool_decide_eq_true_2 by lia. by rewrite removeRange_requested.
    + rewrite bool_decide_eq_false_2 by lia. cbn. by rewrite app_nil_r.
Qed.

Lemma removeUnusedVariables_requested (groups : list (SourceLocation * list Decl)) rw :
  SmartRewriter.requested
    (fold_left (fun rw kv => OptimizerConsumer.removeUnusedGroup sm ctx u kv.1 kv.2 rw)
       groups rw)
  = SmartRewriter.requested rw
    ++ flat_map (fun kv => asRemovals (guardedRanges sm ctx u kv.1 kv.2)) groups.
Proof.
  revert rw. induction groups as [|kv groups IH]; intros rw; cbn [fold_left flat_map].
  - by rewrite app_nil_r.
  - by rewrite IH, removeUnusedGroup_requested, app_assoc.
Qed.

(** Over the whole map the groups are handled one after the other, in the
    order of their start locations. *)
Lemma removeUnusedVariables_submits_group_by_group
    (srcInfo : SourceInfo) (rw : SmartRewriter.t) :
  SmartRewriter.requested (OptimizerConsumer.removeUnusedVariables sm ctx srcInfo u rw)
  = SmartRewriter.requested rw
    ++ flat_map (fun kv => asRemovals (guardedRanges sm ctx u kv.1 kv.2))
         (OptimizerConsumer.groupsInOrder srcInfo).
Proof. apply removeUnusedVariables_requested. Qed.

(** When the group is comma separated, every unused variable before
    [lastUsed] gets its removal, as the specification words it. *)
Lemma guardedRanges_commaSeparated startOfType vars :
  commaSeparated ctx vars →
  guardedRanges sm ctx u startOfType vars = specifiedRanges sm ctx u startOfType vars.
Proof.
  intros Hgroup. unfold guardedRanges, specifiedRanges.
  case_bool_decide as Hn; [done|]. f_equal.
  pose proof (lastUsedIndex_le vars) as Hle.
  assert (Hall : Forall (fun var => rangeIsValid (variableRange ctx var) = true)
                   (take (lastUsedIndex sm ctx u vars) vars)).
  { replace (take (lastUsedIndex sm ctx u vars) vars)
      with (take (lastUsedIndex sm ctx u vars) (take (length vars - 1) vars)).
    - by apply Forall_take.
    - rewrite take_take. f_equal. lia. }
  induction Hall as [|var l Hvar _ IH]; [done|].
  cbn [flat_map]. rewrite IH. f_equal.
  destruct (used var); [done|]. by rewrite Hvar.
Qed.

(** C3 as the code has it.  For a group of [n] variables, [lastUsed] being
    the index of the last used one, or [n] if none is used: if
    [lastUsed = n] the pruner submits one removal, from the shared type
    start to the terminating semicolon; otherwise it submits, for each
    unused variable before [lastUsed] whose name location and following
    comma are both valid locations, the removal from its name to that
    comma, and then, if [lastUsed + 1 < n], the removal from the comma
    after variable [lastUsed] to the end of the last variable.  Every
    removal has remove-empty-lines set. *)
Theorem removeUnusedGroup_submits_valid_ranges
    (startOfType : SourceLocation) (vars : list Decl) (rw : SmartRewriter.t) :
  let n := length vars in
  let lastUsed := lastUsedIndex sm ctx u vars in
  let submitted :=
    drop (length (SmartRewriter.requested rw))
      (SmartRewriter.requested
         (OptimizerConsumer.removeUnusedGroup sm ctx u startOfType vars rw)) in
  ((lastUsed = n ∧ ∀ var, var ∈ vars → used var = false)
   ∨ (lastUsed < n
      ∧ (∃ var, vars !! lastUsed = Some var ∧ used var = true)
      ∧ ∀ j var, lastUsed < j → vars !! j = Some var → used var = false))
  ∧ SmartRewriter.requested
      (OptimizerConsumer.removeUnusedGroup sm ctx u startOfType vars rw)
    = SmartRewriter.requested rw ++ submitted
  ∧ Forall (fun it => RemoveLineIfEmpty (opts it) = true) submitted
  ∧ (lastUsed = n →
     submitted = asRemovals (wholeGroupRange ctx startOfType vars))
  ∧ (lastUsed ≠ n →
     submitted
     = asRemovals
         (flat_map (fun var => if used var then []
                               else if isValid (getLocation (declInfo ctx var))
                                       && isValid (findTokenAfterLocation ctx
                                                     (getExpansionEnd (declInfo ctx var))
                                                     tok_comma)
                                    then [variableRange ctx var] else [])
            (take lastUsed vars)
          ++ trailingRange sm ctx u vars)).
Proof.
  intros n lastUsed submitted.
  assert (Hsub : submitted = asRemovals (guardedRanges sm ctx u startOfType vars)).
  { subst submitted. by rewrite removeUnusedGroup_requested, drop_app_length. }
  split; [apply lastUsedIndex_spec|]. split.
  { by rewrite removeUnusedGroup_requested, Hsub. }
  rewrite Hsub. split.
  { unfold asRemovals. apply Forall_forall. intros it Hit.
    apply list_elem_of_fmap in Hit as (r & -> & _). reflexivity. }
  unfold guardedRanges. fold lastUsed. fold n.
  split; intros H; [by rewrite bool_decide_eq_true_2|by rewrite bool_decide_eq_false_2].
Qed.

End Pruner.

(** ** The late-template forcer, getResult and doOptimize *)

Lemma forEachDelayed_Throws parser fs sema s :
  OptimizerConsumer.forEachDelayed parser fs sema = Throws s →
  ∃ f sema', f ∈ fs ∧ parser f sema' = Throws s.
Proof.
  revert sema. induction fs as [|f fs IH]; intros sema;
    cbn [OptimizerConsumer.forEachDelayed]; [done|].
  destruct (parser f sema) as [sema'|sema'] eqn:E.
  - intros H. destruct (IH _ H) as (g & s0 & Hg & Hs0).
    exists g, s0. split; [by right|done].
  - intros [= <-]. exists f, sema. split; [by left|done].
Qed.

(** C9 as the code has it.  The forcing step suppresses diagnostics before
    the first body is parsed; when the step returns, diagnostics are enabled
    again; when the parser callback throws, the step ends there, in the
    state the callback left. *)
Theorem forceDelayedParsing_reenables_on_return
    (LateTemplateParser : Decl → Sema.t → Completion Sema.t)
    (srcInfo : SourceInfo) (sema : Sema.t) :
  (∀ f rest s, delayedParsedFunctions srcInfo = f :: rest →
     LateTemplateParser f (Sema.setSuppressAllDiagnostics true sema) = Throws s →
     OptimizerConsumer.forceDelayedParsing LateTemplateParser srcInfo sema = Throws s)
  ∧ match OptimizerConsumer.forceDelayedParsing LateTemplateParser srcInfo sema with
    | Returns s => Sema.suppressAllDiagnostics s = false
    | Throws s =>
        ∃ f sema', f ∈ delayedParsedFunctions srcInfo
                   ∧ LateTemplateParser f sema' = Throws s
    end.
Proof.
  split.
  { intros f rest s Hfs Hthrow. unfold OptimizerConsumer.forceDelayedParsing.
    rewrite Hfs. cbv zeta. cbn [OptimizerConsumer.forEachDelayed].
    by rewrite Hthrow. }
  unfold OptimizerConsumer.forceDelayedParsing. cbv zeta.
  destruct (OptimizerConsumer.forEachDelayed _ _ _) as [s|s] eqn:E; [done|].
  by apply forEachDelayed_Throws in E.
Qed.

(** C8. If the tool run returns a non-zero status, [doOptimize] throws the
    runtime error "Compilation error" and returns no text; if it returns
    zero, [doOptimize] returns the text that the run left in [result]. *)
Theorem doOptimize_compilation_error (run : Optimizer.ToolRun)
    (ret : Z) (result : string) :
  run "" = (ret, result) →
  (ret ≠ 0%Z →
   Optimizer.doOptimize run = inl (Optimizer.runtime_error "Compilation error"))
  ∧ (ret = 0%Z → Optimizer.doOptimize run = inr result).
Proof.
  intros Hrun. unfold Optimizer.doOptimize. rewrite Hrun. split; intros H.
  - by rewrite bool_decide_eq_true_2.
  - by rewrite bool_decide_eq_false_2 by (by intros ?).
Qed.

(** C10. With no rewrite buffer for the main file and no valid buffer from
    the source manager, [getResult] is the string "Inliner error", and a
    run that returns status zero makes [doOptimize] return that string as
    its result. *)
Theorem getResult_inliner_error (sm : SourceManager) :
  bufferContents (getMainFileBuffer sm) = None
  ∨ bufferInvalid (getMainFileBuffer sm) = true →
  OptimizerConsumer.getResult sm None = "Inliner error"
  ∧ Optimizer.doOptimize (Optimizer.consumerRun sm None 0)
    = inr "Inliner error".
Proof.
  intros Hbuf.
  assert (H : OptimizerConsumer.getResult sm None = "Inliner error").
  { unfold OptimizerConsumer.getResult.
    destruct Hbuf as [-> | ->]; [done|].
    by destruct (bufferContents (getMainFileBuffer sm)). }
  split; [done|].
  unfold Optimizer.doOptimize, Optimizer.consumerRun. by rewrite H.
Qed.

(** ** The example translation unit *)

Lemma lookupDecl_table_ind (P : Decl → DeclInfo → Prop) (table : list (Decl * DeclInfo)) :
  (∀ d, Forall (fun e => e.1 ≠ d) table → P d (unknownDecl d)) →
  Forall (fun e => P e.1 e.2) table →
  ∀ d, P d (lookupDecl table d).
Proof.
  intros Hunknown Htable d. specialize (Hunknown d).
  induction table as [|[k info] table IH]; cbn [lookupDecl].
  - apply Hunknown. constructor.
  - apply Forall_cons in Htable as [Hk Htable].
    destruct (Pos.eqb_spec k d) as [->|Hne]; [exact Hk|].
    apply IH; [|exact Htable].
    intros Hd. apply Hunknown. by constructor.
Qed.

Lemma lookupDecl_unknown (table : list (Decl * DeclInfo)) (d : Decl) :
  Forall (fun e => e.1 ≠ d) table → lookupDecl table d = unknownDecl d.
Proof.
  induction 1 as [|[k info] table Hk _ IH]; cbn [lookupDecl]; [done|].
  cbn in Hk. by destruct (Pos.eqb_spec k d).
Qed.

Lemma example_canonical_idempotent (d : Decl) :
  canonical Demo.ctx (canonical Demo.ctx d) = canonical Demo.ctx d.
Proof.
  unfold canonical. cbn [declInfo Demo.ctx].
  apply (lookupDecl_table_ind
           (fun d info => getCanonicalDecl (lookupDecl Demo.declTable (getCanonicalDecl info))
                          = getCanonicalDecl info)).
  - intros d' Hd'. cbn [unknownDecl getCanonicalDecl].
    by rewrite lookupDecl_unknown.
  - repeat constructor.
Qed.

Lemma example_destructors_typed (d x : Decl) :
  getDestructor (asRecord (declInfo Demo.ctx d)) = Some x →
  isa Demo.ctx CXXDestructorDecl x = true.
Proof.
  cbn [declInfo Demo.ctx].
  apply (lookupDecl_table_ind
           (fun _ info => getDestructor (asRecord info) = Some x →
                          isa Demo.ctx CXXDestructorDecl x = true)).
  - intros d' _. discriminate.
  - repeat constructor; cbn; try discriminate. by intros [= <-].
Qed.

(** The roots of the example: [main] and the function under the comment. *)
Example example_roots :
  elements (declsToKeep Demo.srcInfo) = [15; 2]%positive.
Proof. vm_compute. reflexivity. Qed.

(** The pruner on [int a,b,c;] with only [b] used: it removes ["a,"] and
    [",c"]; for the two variables of the macro call it removes nothing. *)
Example example_pruned_groups :
  map range
    (SmartRewriter.requested
       (OptimizerConsumer.removeUnusedVariables Demo.sourceManager Demo.ctx
          Demo.srcInfo Demo.usageInfo SmartRewriter.create))
  = [mkSourceRange 158 159; mkSourceRange 161 162].
Proof. vm_compute. reflexivity. Qed.

(** The comment above [helper] in the example: its text is the first line
    of the file, and it makes [helper] a root. *)
Example example_comment_text :
  charactersFromTo Demo.sourceManager 0 13
  = String.list_ascii_of_string "/// caide keep"
  ∧ markedCaideKeep Demo.sourceManager Demo.ctx 2.
Proof.
  split; [vm_compute; reflexivity|].
  split; [reflexivity|].
  exists {| commentLocStart := 1; commentLocEnd := 14 |}, 0, 13.
  repeat (split; [reflexivity|]).
  exists (String.list_ascii_of_string "/// "), []. vm_compute. reflexivity.
Qed.

(** *** Instances of the theorems above *)

Lemma used_class_record_has_used_destructor_witness :
  (∀ d x, getDestructor (asRecord (declInfo Demo.ctx d)) = Some x →
          isa Demo.ctx CXXDestructorDecl x = true)
  ∧ is_Some (OptimizerConsumer.findUsedDecls Demo.sourceManager Demo.ctx
               (OptimizerConsumer.searchBound Demo.ctx Demo.srcInfo)
               Demo.srcInfo).
Proof.
  split; [exact example_destructors_typed|].
  exact (proj1 (used_class_record_has_used_destructor Demo.sourceManager
                  Demo.ctx Demo.srcInfo example_destructors_typed)).
Defined.

(** In the example the class [A] (8) is used, and so is its destructor
    (9); the function [unused] (4) is not. *)
Example example_destructor_used :
  option_map (fun s => (bool_decide (8%positive ∈ OptimizerConsumer.used s),
                        bool_decide (9%positive ∈ OptimizerConsumer.used s),
                        bool_decide (4%positive ∈ OptimizerConsumer.used s)))
    Demo.search
  = Some (true, true, false).
Proof. vm_compute. reflexivity. Qed.

Lemma insertReference_canonical_or_namespace_witness :
  (∀ d, canonical Demo.ctx (canonical Demo.ctx d) = canonical Demo.ctx d)
  ∧ ∀ d, vertexOf (uses Demo.srcInfo) d → canonicalOrNamespace Demo.ctx d.
Proof.
  split; [exact example_canonical_idempotent|].
  exact (proj2 (proj2 (proj2 (proj2
    (insertReference_canonical_or_namespace Demo.sourceManager Demo.ctx
       example_canonical_idempotent)))) Demo.translationUnit).
Defined.



(** The group [int u __attribute__((unused)),w;] with only [w] used: the
    token after the end of [u] is not a comma, so the pruner submits nothing
    for [u], where the specification has the removal of [u]. *)
Lemma removeUnusedGroup_keeps_variable_without_comma :
  lastUsedIndex Demo.sourceManager Demo.ctx Demo.usageInfo [19; 20]%positive = 1
  ∧ variableUsed Demo.sourceManager Demo.ctx Demo.usageInfo 19 = false
  ∧ SmartRewriter.requested
      (OptimizerConsumer.removeUnusedGroup Demo.sourceManager Demo.ctx
         Demo.usageInfo 207 [19; 20]%positive SmartRewriter.create)
    = []
  ∧ asRemovals
      (specifiedRanges Demo.sourceManager Demo.ctx Demo.usageInfo 207
         [19; 20]%positive)
    = [mkRewriteItem (mkSourceRange 211 0)
         (setRemoveLineIfEmpty true defaultRewriteOptions)].
Proof. vm_compute. repeat split; reflexivity. Qed.

Lemma doOptimize_compilation_error_witness :
  (fun _ : string => (1%Z, "int main(){")) "" = (1%Z, "int main(){")
  ∧ Optimizer.doOptimize (fun _ => (1%Z, "int main(){"))
    = inl (Optimizer.runtime_error "Compilation error").
Proof.
  split; [reflexivity|].
  apply (doOptimize_compilation_error (fun _ => (1%Z, "int main(){")) 1 "int main(){");
    [reflexivity|lia].
Defined.

Lemma getResult_inliner_error_witness :
  (bufferContents (getMainFileBuffer Demo.sourceManagerWithoutBuffer) = None
   ∨ bufferInvalid (getMainFileBuffer Demo.sourceManagerWithoutBuffer) = true)
  ∧ Optimizer.doOptimize
      (Optimizer.consumerRun Demo.sourceManagerWithoutBuffer None 0)
    = inr "Inliner error".
Proof.
  assert (H : bufferContents (getMainFileBuffer Demo.sourceManagerWithoutBuffer) = None
              ∨ bufferInvalid (getMainFileBuffer Demo.sourceManagerWithoutBuffer) = true)
    by (left; reflexivity).
  split; [exact H|].
  exact (proj2 (getResult_inliner_error Demo.sourceManagerWithoutBuffer H)).
Defined.

(** The forcing step on the example, with a parser that throws: the step is
    left by the exception and diagnostics stay suppressed. *)
Lemma forceDelayedParsing_throw_leaves_diagnostics_suppressed :
  delayedParsedFunctions Demo.srcInfo = [18%positive]
  ∧ Sema.suppressAllDiagnostics Demo.sema = false
  ∧ OptimizerConsumer.forceDelayedParsing Demo.throwingParser Demo.srcInfo
      Demo.sema
    = Throws (Sema.mk true [])
  ∧ Sema.suppressAllDiagnostics
      (stateOf (OptimizerConsumer.forceDelayedParsing Demo.throwingParser
                  Demo.srcInfo Demo.sema))
    = true.
Proof. vm_compute. repeat split; reflexivity. Qed.

(** * Further properties of the collector *)

(** ** The dependency graph only grows *)

Lemma hasEdgeb_true (u : gmap Decl (gset Decl)) (a b : Decl) :
  hasEdgeb u a b = true → hasEdge u a b.
Proof.
  unfold hasEdgeb, hasEdge. intros H. apply bool_decide_eq_true in H.
  destruct (u !! a) as [s|]; cbn [default from_option id] in H.
  - by exists s.
  - by apply not_elem_of_empty in H.
Qed.

Section GraphGrows.
Context (sm : SourceManager) (ctx : ASTContext).

Lemma insertReference_keeps_edge from to si x y :
  hasEdge (uses si) x y →
  hasEdge (uses (DependenciesCollector.insertReference ctx from to si)) x y.
Proof.
  intros H. destruct from as [a|], to as [b|]; try done.
  apply insertReference_hasEdge. by left.
Qed.

Lemma insertReference_adds_edge a b si :
  hasEdge (uses (DependenciesCollector.insertReference ctx (Some a) (Some b) si))
    (endpoint ctx a) (endpoint ctx b).
Proof. apply insertReference_hasEdge. by right. Qed.

Lemma insertReferenceToType_keeps_edge from to si x y :
  hasEdge (uses si) x y →
  hasEdge (uses (DependenciesCollector.insertReferenceToType ctx from to si)) x y.
Proof.
  apply (insertReferenceToType_invariant ctx (fun s => hasEdge (uses s) x y)).
  intros f t s. apply insertReference_keeps_edge.
Qed.

Lemma WalkUpFromDecl_keeps_edge d si x y :
  hasEdge (uses si) x y →
  hasEdge (uses (DependenciesCollector.WalkUpFromDecl sm ctx d si)) x y.
Proof.
  apply (WalkUpFromDecl_invariant sm ctx (fun s => hasEdge (uses s) x y)).
  - intros f t s. apply insertReference_keeps_edge.
  - by intros s k dl sv H.
Qed.

Lemma VisitStmt_keeps_edge s current si x y :
  hasEdge (uses si) x y →
  hasEdge (uses (DependenciesCollector.VisitStmt ctx s current si)) x y.
Proof.
  apply (VisitStmt_invariant ctx (fun s => hasEdge (uses s) x y)).
  intros f t s0. apply insertReference_keeps_edge.
Qed.

Lemma visits_keep_edge (vs : list Visit) si x y :
  hasEdge (uses si) x y →
  hasEdge (uses (fold_left (fun si v => applyVisit sm ctx v si) vs si)) x y.
Proof.
  apply (fold_left_invariant (fun s => hasEdge (uses s) x y)).
  intros s [d|st current] Hs; cbn [applyVisit];
    [by apply WalkUpFromDecl_keeps_edge|by apply VisitStmt_keeps_edge].
Qed.

(** An edge that a visit of the traversal puts into the graph is in the
    graph that the collector hands over. *)
Lemma collect_after_visit tree v x y :
  v ∈ visits tree [] →
  (∀ si, hasEdge (uses (applyVisit sm ctx v si)) x y) →
  hasEdge (uses (DependenciesCollector.collect sm ctx tree)) x y.
Proof.
  intros Hv Hedge. rewrite collect_visits.
  apply list_elem_of_split in Hv as (l1 & l2 & ->).
  rewrite fold_left_app. cbn [fold_left].
  apply visits_keep_edge, Hedge.
Qed.

End GraphGrows.

(** The hooks of a declaration that run after a given one keep an edge. *)
Ltac hook_keeps_edge :=
  let s := fresh "s" in
  let Hs := fresh "Hs" in
  intros s Hs;
  unfold DependenciesCollector.VisitTemplateTypeParmDecl,
    DependenciesCollector.VisitClassTemplateSpecializationDecl,
    DependenciesCollector.VisitCXXRecordDecl,
    DependenciesCollector.VisitClassTemplateDecl,
    DependenciesCollector.VisitFunctionTemplateDecl,
    DependenciesCollector.VisitCXXMethodDecl,
    DependenciesCollector.VisitFunctionDecl,
    DependenciesCollector.VisitFieldDecl,
    DependenciesCollector.VisitVarDecl,
    DependenciesCollector.VisitValueDecl,
    DependenciesCollector.VisitTypeAliasTemplateDecl,
    DependenciesCollector.VisitTypeAliasDecl,
    DependenciesCollector.VisitTypedefNameDecl;
  cbv zeta; repeat case_match;
  repeat first [ exact Hs
               | apply insertReferenceToType_keeps_edge
               | apply insertReference_keeps_edge
               | progress cbn [uses] ].

Ltac after_hook ctx x y :=
  apply (whenIsa_invariant ctx (fun s => hasEdge (uses s) x y));
  [hook_keeps_edge|].

Section GraphEdges.
Context (sm : SourceManager) (ctx : ASTContext).

Lemma VisitDecl_context_edge d c si :
  getDeclContext (declInfo ctx d) = Some c →
  isa ctx FunctionDecl c = false →
  hasEdge (uses (DependenciesCollector.VisitDecl sm ctx d si))
    (endpoint ctx d) (endpoint ctx c).
Proof.
  intros Hc Hf. rewrite VisitDecl_commentText, Hc, Hf. cbn [negb]. cbv zeta.
  repeat case_match; cbn [uses]; apply insertReference_adds_edge.
Qed.

Lemma WalkUpFromDecl_context_edge d c si :
  getDeclContext (declInfo ctx d) = Some c →
  isa ctx FunctionDecl c = false →
  hasEdge (uses (DependenciesCollector.WalkUpFromDecl sm ctx d si))
    (endpoint ctx d) (endpoint ctx c).
Proof.
  intros Hc Hf. unfold DependenciesCollector.WalkUpFromDecl.
  do 13 after_hook ctx (endpoint ctx d) (endpoint ctx c).
  by apply VisitDecl_context_edge.
Qed.

Lemma VisitCXXMethodDecl_edges m p si :
  getParent (asFunction (declInfo ctx m)) = Some p →
  hasEdge (uses (DependenciesCollector.VisitCXXMethodDecl ctx m si))
    (endpoint ctx m) (endpoint ctx p)
  ∧ (isVirtual (asFunction (declInfo ctx m)) = true →
     hasEdge (uses (DependenciesCollector.VisitCXXMethodDecl ctx m si))
       (endpoint ctx p) (endpoint ctx m)).
Proof.
  intros Hp. unfold DependenciesCollector.VisitCXXMethodDecl. cbv zeta.
  rewrite Hp. split.
  - destruct (isVirtual _);
      [apply insertReference_keeps_edge|]; apply insertReference_adds_edge.
  - intros ->. apply insertReference_adds_edge.
Qed.

Lemma WalkUpFromDecl_method_edges m p si :
  isa ctx CXXMethodDecl m = true →
  getParent (asFunction (declInfo ctx m)) = Some p →
  hasEdge (uses (DependenciesCollector.WalkUpFromDecl sm ctx m si))
    (endpoint ctx m) (endpoint ctx p)
  ∧ (isVirtual (asFunction (declInfo ctx m)) = true →
     hasEdge (uses (DependenciesCollector.WalkUpFromDecl sm ctx m si))
       (endpoint ctx p) (endpoint ctx m)).
Proof.
  intros Hm Hp. unfold DependenciesCollector.WalkUpFromDecl. split.
  - do 5 after_hook ctx (endpoint ctx m) (endpoint ctx p).
    unfold DependenciesCollector.whenIsa at 1. rewrite Hm.
    by apply VisitCXXMethodDecl_edges.
  - intros Hv. do 5 after_hook ctx (endpoint ctx p) (endpoint ctx m).
    unfold DependenciesCollector.whenIsa at 1. rewrite Hm.
    by apply VisitCXXMethodDecl_edges.
Qed.

Lemma VisitStmt_referenced s d f si :
  referencedDecl s = Some f →
  hasEdge (uses (DependenciesCollector.VisitStmt ctx s (Some d) si))
    (endpoint ctx d) (endpoint ctx f).
Proof.
  intros Hf.
  destruct s as [callee calleeDecl|c|c tsi|?|decl qualifier|?|?|m|op|? ?|];
    cbn [referencedDecl] in Hf; try discriminate;
    cbn [DependenciesCollector.VisitStmt].
  - destruct callee as [[| |]|]; try discriminate. subst calleeDecl.
    cbn [DependenciesCollector.VisitCallExpr]. apply insertReference_adds_edge.
  - subst c. apply insertReference_adds_edge.
  - subst c. unfold DependenciesCollector.typeOfSourceInfo.
    destruct tsi; [apply insertReferenceToType_keeps_edge|];
      apply insertReference_adds_edge.
  - subst decl. unfold DependenciesCollector.VisitDeclRefExpr. cbv zeta.
    apply (fold_left_invariant
             (fun s => hasEdge (uses s) (endpoint ctx d) (endpoint ctx f))).
    + intros s ty. apply insertReferenceToType_keeps_edge.
    + apply insertReference_adds_edge.
  - subst m. apply insertReference_adds_edge.
  - subst op. apply insertReference_adds_edge.
Qed.

(** X1. [TraverseDecl] pops what it pushed: after the traversal of a
    subtree the stack of active declarations is what it was before, so
    [getCurrentDecl] gives a later statement its own innermost enclosing
    declaration again. *)
Theorem Traverse_restores_declStack (n : Node) (c : DependenciesCollector.t) :
  DependenciesCollector.declStack (DependenciesCollector.Traverse sm ctx n c)
  = DependenciesCollector.declStack c
  ∧ DependenciesCollector.getCurrentDecl (DependenciesCollector.Traverse sm ctx n c)
    = DependenciesCollector.getCurrentDecl c.
Proof.
  unfold DependenciesCollector.getCurrentDecl. by rewrite Traverse_visits.
Qed.

(** X2. Inserting a reference is idempotent, and two insertions commute:
    the graph does not depend on how often or in which order the hooks
    report an edge. *)
Theorem insertReference_idempotent_and_commutes
    (from to from' to' : option Decl) (si : SourceInfo) :
  DependenciesCollector.insertReference ctx from to
    (DependenciesCollector.insertReference ctx from to si)
  = DependenciesCollector.insertReference ctx from to si
  ∧ DependenciesCollector.insertReference ctx from to
      (DependenciesCollector.insertReference ctx from' to' si)
    = DependenciesCollector.insertReference ctx from' to'
        (DependenciesCollector.insertReference ctx from to si).
Proof.
  assert (Hext : ∀ s1 s2 : SourceInfo,
            uses s1 = uses s2 → declsToKeep s1 = declsToKeep s2 →
            delayedParsedFunctions s1 = delayedParsedFunctions s2 →
            staticVariables s1 = staticVariables s2 → s1 = s2).
  { intros [] []; cbn; by intros -> -> -> ->. }
  destruct from as [a|], to as [b|]; try (split; [done|by destruct from', to']).
  split.
  - apply Hext; try done. rewrite !insertReference_uses.
    rewrite lookup_insert_eq. cbn [default from_option id].
    rewrite insert_insert_eq. f_equal. set_solver.
  - destruct from' as [a'|], to' as [b'|]; try done.
    apply Hext; try done. rewrite !insertReference_uses.
    destruct (decide (endpoint ctx a = endpoint ctx a')) as [Heq|Hne].
    + rewrite <- Heq. rewrite !lookup_insert_eq. cbn [default from_option id].
      rewrite !insert_insert_eq. f_equal. set_solver.
    + rewrite (lookup_insert_ne _ (endpoint ctx a') (endpoint ctx a)) by done.
      rewrite (lookup_insert_ne _ (endpoint ctx a) (endpoint ctx a')) by done.
      by apply insert_insert_ne.
Qed.

(** X3. The collector never takes an edge out of the graph: an edge that
    is there before the traversal of a subtree is there after it. *)
Theorem Traverse_keeps_edges (tree : Node) (c : DependenciesCollector.t)
    (x y : Decl) :
  hasEdge (uses (DependenciesCollector.srcInfo c)) x y →
  hasEdge (uses (DependenciesCollector.srcInfo
                   (DependenciesCollector.Traverse sm ctx tree c))) x y.
Proof.
  intros H. rewrite Traverse_visits. cbn [DependenciesCollector.srcInfo].
  by apply visits_keep_edge.
Qed.

(** X4. Every visited declaration whose semantic context is not a function
    depends on that context: the graph has the edge from the declaration
    to its enclosing class or namespace. *)
Theorem member_depends_on_enclosing_context (tree : Node) (d c : Decl) :
  d ∈ visitOrder tree →
  getDeclContext (declInfo ctx d) = Some c →
  isa ctx FunctionDecl c = false →
  hasEdge (uses (DependenciesCollector.collect sm ctx tree))
    (endpoint ctx d) (endpoint ctx c).
Proof.
  intros Hd Hc Hf. apply (collect_after_visit sm ctx tree (VisitedDecl d)).
  - by apply visits_visitOrder.
  - intros si. cbn [applyVisit]. by apply WalkUpFromDecl_context_edge.
Qed.

(** X5. Every visited method depends on its class, and for a virtual
    method the class depends on the method as well. *)
Theorem method_and_class_edges (tree : Node) (m p : Decl) :
  m ∈ visitOrder tree →
  isa ctx CXXMethodDecl m = true →
  getParent (asFunction (declInfo ctx m)) = Some p →
  hasEdge (uses (DependenciesCollector.collect sm ctx tree))
    (endpoint ctx m) (endpoint ctx p)
  ∧ (isVirtual (asFunction (declInfo ctx m)) = true →
     hasEdge (uses (DependenciesCollector.collect sm ctx tree))
       (endpoint ctx p) (endpoint ctx m)).
Proof.
  intros Hm Hisa Hp.
  assert (Hv : VisitedDecl m ∈ visits tree []) by (by apply visits_visitOrder).
  split; [|intros Hvirtual];
    apply (collect_after_visit sm ctx tree (VisitedDecl m) _ _ Hv); intros si;
    cbn [applyVisit];
    destruct (WalkUpFromDecl_method_edges m p si Hisa Hp) as [H1 H2]; auto.
Qed.

(** X6. A statement that refers to a declaration (a resolved call, a
    construction, a declaration reference, a member access, a lambda) makes
    the innermost declaration that encloses the statement depend on it. *)
Theorem statement_reference_edge (tree : Node) (s : Stmt) (d f : Decl) :
  VisitedStmt s (Some d) ∈ visits tree [] →
  referencedDecl s = Some f →
  hasEdge (uses (DependenciesCollector.collect sm ctx tree))
    (endpoint ctx d) (endpoint ctx f).
Proof.
  intros Hs Hf. apply (collect_after_visit sm ctx tree _ _ _ Hs).
  intros si. cbn [applyVisit]. by apply VisitStmt_referenced.
Qed.

End GraphEdges.

(** ** The walk over a type *)

Section TypeWalk.
Context (ctx : ASTContext).

(** The invariants of the walk, for the one [from] that the walk carries
    along. *)
Lemma insertReferenceToTypeBody_invariant_from
    (R : SourceInfo * gset TypePtr → Prop) recur from :
  (∀ to st, R st →
     R (DependenciesCollector.onInfo
          (DependenciesCollector.insertReference ctx from to) st)) →
  (∀ to st, R st → R (recur to st)) →
  ∀ to st, R st →
    R (DependenciesCollector.insertReferenceToTypeBody ctx recur from to st).
Proof.
  intros Hinfo Hrecur to st Hst.
  assert (Hbases : ∀ s, R s → R (DependenciesCollector.walkBases ctx recur to s)).
  { intros s Hs. unfold DependenciesCollector.walkBases.
    repeat case_match; try done.
    apply (fold_left_invariant R); [|done]. intros; by apply Hrecur. }
  assert (Htempl : ∀ t a s, R s →
            R (DependenciesCollector.walkTemplate ctx recur from t a s)).
  { intros t a s Hs. unfold DependenciesCollector.walkTemplate.
    apply (fold_left_invariant R).
    - intros s' [ty|] Hs'; [by apply Hrecur|done].
    - destruct t; [by apply Hinfo|done]. }
  unfold DependenciesCollector.insertReferenceToTypeBody.
  destruct (getTypeClass (typeInfo ctx to)) as [named|inner|el|pt|pt|decl|tmpl targs|];
    unfold DependenciesCollector.ifParenType, DependenciesCollector.ifArrayType,
      DependenciesCollector.ifPointerType, DependenciesCollector.ifReferenceType,
      DependenciesCollector.ifTypedefType,
      DependenciesCollector.ifTemplateSpecializationType;
    repeat first [assumption | apply Hrecur | apply Htempl | apply Hbases | apply Hinfo].
Qed.

Lemma insertReferenceToType_invariant_from (P : SourceInfo → Prop) from :
  (∀ to si, P si → P (DependenciesCollector.insertReference ctx from to si)) →
  ∀ to si, P si → P (DependenciesCollector.insertReferenceToType ctx from to si).
Proof.
  intros HP to si Hsi. unfold DependenciesCollector.insertReferenceToType.
  generalize (S (numTypes ctx)). intros depth.
  assert (H : ∀ to st, P st.1 →
            P (DependenciesCollector.insertReferenceToTypeSeen ctx depth from to st).1).
  { induction depth as [|depth IH]; intros to0 st Hst; [by destruct to0|].
    destruct to0 as [t|]; [|done].
    rewrite insertReferenceToTypeSeen_S.
    destruct (bool_decide (t ∈ st.2)); [done|].
    apply (insertReferenceToTypeBody_invariant_from (fun s => P s.1)); [| |done].
    - intros to1 s Hs. by apply HP.
    - intros to1 s Hs. by apply IH. }
  by apply H.
Qed.

Lemma insertReference_delayedParsedFunctions from to si :
  delayedParsedFunctions (DependenciesCollector.insertReference ctx from to si)
  = delayedParsedFunctions si.
Proof. by destruct from, to. Qed.

Lemma insertReference_staticVariables from to si :
  staticVariables (DependenciesCollector.insertReference ctx from to si)
  = staticVariables si.
Proof. by destruct from, to. Qed.

Lemma insertReferenceToType_delayedParsedFunctions from to si :
  delayedParsedFunctions (DependenciesCollector.insertReferenceToType ctx from to si)
  = delayedParsedFunctions si.
Proof.
  apply (insertReferenceToType_invariant ctx
           (fun s => delayedParsedFunctions s = delayedParsedFunctions si)); [|done].
  intros f t s Hs. by rewrite insertReference_delayedParsedFunctions.
Qed.

Lemma insertReferenceToType_staticVariables from to si :
  staticVariables (DependenciesCollector.insertReferenceToType ctx from to si)
  = staticVariables si.
Proof.
  apply (insertReferenceToType_invariant ctx
           (fun s => staticVariables s = staticVariables si)); [|done].
  intros f t s Hs. by rewrite insertReference_staticVariables.
Qed.

(** X7. The walk over a type changes nothing but the graph; every edge it
    adds starts at the declaration it was called for, and called for a
    null declaration it adds none. *)
Theorem insertReferenceToType_edges_start_at_from
    (from : option Decl) (to : option TypePtr) (si : SourceInfo) :
  let si' := DependenciesCollector.insertReferenceToType ctx from to si in
  DependenciesCollector.insertReferenceToType ctx None to si = si
  ∧ declsToKeep si' = declsToKeep si
  ∧ delayedParsedFunctions si' = delayedParsedFunctions si
  ∧ staticVariables si' = staticVariables si
  ∧ ∀ x y, hasEdge (uses si') x y →
           hasEdge (uses si) x y ∨ ∃ f, from = Some f ∧ x = endpoint ctx f.
Proof.
  intros si'. subst si'. split; [|split; [|split; [|split]]].
  - by apply (insertReferenceToType_invariant_from (fun s => s = si) None).
  - apply insertReferenceToType_declsToKeep.
  - apply insertReferenceToType_delayedParsedFunctions.
  - apply insertReferenceToType_staticVariables.
  - apply (insertReferenceToType_invariant_from
             (fun s => ∀ x y, hasEdge (uses s) x y →
                hasEdge (uses si) x y ∨ ∃ f, from = Some f ∧ x = endpoint ctx f) from);
      [|by left].
    intros t s Hs x y Hxy. destruct from as [f|]; [|by apply Hs].
    destruct t as [b|]; [|by apply Hs].
    apply insertReference_hasEdge in Hxy as [Hxy|[-> _]]; [by apply Hs|].
    right. by exists f.
Qed.

(** *** The walk reaches every declaration that the type mentions *)

Lemma walkFinished_mono f st st' t :
  (∀ x y, hasEdge (uses st.1) x y → hasEdge (uses st'.1) x y) →
  st.2 ⊆ st'.2 →
  walkFinished ctx f st t → walkFinished ctx f st' t.
Proof.
  intros He Hs [Hd Hc]. split.
  - intros d Hn. by apply He, Hd.
  - intros c Hin. by apply Hs, Hc.
Qed.

Lemma walkContinues_refl f st : walkContinues ctx f st st.
Proof. split; [done|]. split; [done|]. by intros t Ht Hnt. Qed.

Lemma walkContinues_trans f a b c :
  walkContinues ctx f a b → walkContinues ctx f b c → walkContinues ctx f a c.
Proof.
  intros (He1 & Hs1 & Hf1) (He2 & Hs2 & Hf2). split; [|split].
  - intros x y H. by apply He2, He1.
  - set_solver.
  - intros t Ht Hnt. destruct (decide (t ∈ b.2)) as [Hb|Hb].
    + apply (walkFinished_mono f b c); [done..|]. by apply Hf1.
    + by apply Hf2.
Qed.

Lemma walkContinues_insert f to st :
  walkContinues ctx f st
    (DependenciesCollector.onInfo
       (DependenciesCollector.insertReference ctx (Some f) to) st).
Proof.
  unfold DependenciesCollector.onInfo. split; [|split]; cbn [fst snd].
  - intros x y. apply insertReference_keeps_edge.
  - done.
  - by intros t Ht Hnt.
Qed.

Section Body.
Context (f : Decl) (t : TypePtr) (S1 : gset TypePtr).
Context (recur : option TypePtr → SourceInfo * gset TypePtr
                 → SourceInfo * gset TypePtr).
Hypothesis recur_None : ∀ s, recur None s = s.
Hypothesis recur_Some : ∀ c s,
  Some c ∈ walkedTypes ctx t → S1 ⊆ s.2 →
  walkContinues ctx f s (recur (Some c) s) ∧ c ∈ (recur (Some c) s).2.

Lemma recur_stage (c : option TypePtr) s :
  c ∈ walkedTypes ctx t → S1 ⊆ s.2 →
  walkContinues ctx f s (recur c s) ∧ ∀ c', c = Some c' → c' ∈ (recur c s).2.
Proof using recur_None recur_Some.
  intros Hc Hs. destruct c as [c|].
  - destruct (recur_Some c s Hc Hs) as [H1 H2]. split; [done|]. by intros c' [= <-].
  - rewrite recur_None. split; [apply walkContinues_refl|done].
Qed.

Lemma fold_recur_stage (l : list (option TypePtr)) s :
  (∀ c, c ∈ l → c ∈ walkedTypes ctx t) → S1 ⊆ s.2 →
  let s' := fold_left (fun s base => recur base s) l s in
  walkContinues ctx f s s' ∧ ∀ c, Some c ∈ l → c ∈ s'.2.
Proof using recur_None recur_Some.
  revert s. induction l as [|b l IH]; intros s Hl Hs; cbn [fold_left].
  - split; [apply walkContinues_refl|]. intros c Hc. by apply elem_of_nil in Hc.
  - destruct (recur_stage b s) as [H1 H2]; [apply Hl; by left|done|].
    destruct (IH (recur b s)) as [H3 H4].
    { intros c Hc. apply Hl. by right. }
    { destruct H1 as (_ & Hsub & _). set_solver. }
    split; [by eapply walkContinues_trans|].
    intros c Hc. apply elem_of_cons in Hc as [<-|Hc]; [|by apply H4].
    destruct H3 as (_ & Hsub & _). apply Hsub. by apply H2.
Qed.

Lemma walkBases_stage s :
  (∀ c, c ∈ walkedBases ctx t → c ∈ walkedTypes ctx t) → S1 ⊆ s.2 →
  let s' := DependenciesCollector.walkBases ctx recur t s in
  walkContinues ctx f s s' ∧ ∀ c, Some c ∈ walkedBases ctx t → c ∈ s'.2.
Proof using recur_None recur_Some.
  unfold DependenciesCollector.walkBases, walkedBases. cbv zeta.
  intros Hsub Hs.
  destruct (getAsCXXRecordDecl (typeInfo ctx t)) as [r|];
    [|split; [apply walkContinues_refl|by intros c Hc; apply elem_of_nil in Hc]].
  destruct (getDefinition (asRecord (declInfo ctx r))) as [r'|];
    [|split; [apply walkContinues_refl|by intros c Hc; apply elem_of_nil in Hc]].
  destruct (bool_decide (getDescribedClassTemplate (asRecord (declInfo ctx r')) ≠ None)
            && (bool_decide (getTemplateSpecializationKind (asRecord (declInfo ctx r'))
                             = TSK_ImplicitInstantiation)
                || bool_decide (getTemplateSpecializationKind (asRecord (declInfo ctx r'))
                                = TSK_Undeclared)));
    [split; [apply walkContinues_refl|by intros c Hc; apply elem_of_nil in Hc]|].
  by apply fold_recur_stage.
Qed.

Lemma walkTemplate_stage tempDecl args s :
  (∀ c, TypeArgument c ∈ args → c ∈ walkedTypes ctx t) → S1 ⊆ s.2 →
  let s' := DependenciesCollector.walkTemplate ctx recur (Some f) tempDecl args s in
  walkContinues ctx f s s'
  ∧ (∀ d, tempDecl = Some d → hasEdge (uses s'.1) (endpoint ctx f) (endpoint ctx d))
  ∧ ∀ c, TypeArgument (Some c) ∈ args → c ∈ s'.2.
Proof using recur_None recur_Some.
  unfold DependenciesCollector.walkTemplate. cbv zeta. intros Hargs Hs.
  set (s0 := match tempDecl with Some _ => _ | None => s end).
  assert (H0 : walkContinues ctx f s s0
               ∧ ∀ d, tempDecl = Some d →
                      hasEdge (uses s0.1) (endpoint ctx f) (endpoint ctx d)).
  { subst s0. destruct tempDecl as [d|].
    - split; [apply walkContinues_insert|]. intros d' [= <-].
      cbn [DependenciesCollector.onInfo fst]. apply insertReference_adds_edge.
    - split; [apply walkContinues_refl|done]. }
  clearbody s0. destruct H0 as [H0 Hedge].
  assert (Hs0 : S1 ⊆ s0.2) by (destruct H0 as (_ & ? & _); set_solver).
  assert (Hfold : ∀ s0, S1 ⊆ s0.2 →
            let s' := fold_left (fun s arg => match arg with
                                              | TypeArgument t => recur t s
                                              | OtherArgument => s
                                              end) args s0 in
            walkContinues ctx f s0 s' ∧ ∀ c, TypeArgument (Some c) ∈ args → c ∈ s'.2).
  { clear s s0 Hs H0 Hedge Hs0.
    induction args as [|arg args IH]; intros s0 Hs0; cbn [fold_left].
    - split; [apply walkContinues_refl|]. intros c Hc. by apply elem_of_nil in Hc.
    - destruct arg as [c0|].
      + destruct (recur_stage c0 s0) as [H1 H2]; [apply Hargs; by left|done|].
        destruct (IH (fun c Hc => Hargs c (list_elem_of_further _ _ _ Hc)) (recur c0 s0))
          as [H3 H4].
        { destruct H1 as (_ & Hsub & _). set_solver. }
        split; [by eapply walkContinues_trans|].
        intros c Hc. apply elem_of_cons in Hc as [[= <-]|Hc]; [|by apply H4].
        destruct H3 as (_ & Hsub & _). apply Hsub. by apply H2.
      + destruct (IH (fun c Hc => Hargs c (list_elem_of_further _ _ _ Hc)) s0 Hs0)
          as [H3 H4].
        split; [done|]. intros c Hc.
        apply elem_of_cons in Hc as [?|Hc]; [done|by apply H4]. }
  destruct (Hfold s0 Hs0) as [H1 H2].
  split; [by eapply walkContinues_trans|]. split; [|done].
  intros d Hd. destruct H1 as (He & _). by apply He, Hedge.
Qed.

Lemma walkedTypes_nonElaborated :
  (∀ named, getTypeClass (typeInfo ctx t) ≠ ElaboratedType named) →
  walkedTypes ctx t
  = classOperands (getTypeClass (typeInfo ctx t)) ++ walkedBases ctx t.
Proof.
  intros H. unfold walkedTypes.
  destruct (getTypeClass (typeInfo ctx t)); try reflexivity. by destruct (H named).
Qed.

Lemma insertReferenceToTypeBody_nonElaborated from st :
  (∀ named, getTypeClass (typeInfo ctx t) ≠ ElaboratedType named) →
  DependenciesCollector.insertReferenceToTypeBody ctx recur from t st
  = let cls := getTypeClass (typeInfo ctx t) in
    DependenciesCollector.ifTemplateSpecializationType cls
      (DependenciesCollector.walkTemplate ctx recur from)
      (DependenciesCollector.walkBases ctx recur t
         (DependenciesCollector.ifTypedefType cls
            (fun decl => DependenciesCollector.onInfo
                           (DependenciesCollector.insertReference ctx from decl))
            (DependenciesCollector.ifReferenceType cls recur
               (DependenciesCollector.ifPointerType cls recur
                  (DependenciesCollector.ifArrayType cls recur
                     (DependenciesCollector.onInfo
                        (DependenciesCollector.insertReference ctx from
                           (getAsTagDecl (typeInfo ctx t)))
                        (DependenciesCollector.ifParenType cls recur st))))))).
Proof.
  intros H. unfold DependenciesCollector.insertReferenceToTypeBody.
  destruct (getTypeClass (typeInfo ctx t)); try reflexivity. by destruct (H named).
Qed.

(** The stages of the body that recur into the operand of a class. *)
Ltac operand_stage s :=
  let Hne := fresh "Hne" in
  let Hs := fresh "Hs" in
  let Hw := fresh "Hw" in
  let E := fresh "E" in
  let H1 := fresh "H" in
  let H2 := fresh "H" in
  let c := fresh "c" in
  intros Hne Hs;
  pose proof (walkedTypes_nonElaborated Hne) as Hw;
  unfold DependenciesCollector.ifParenType, DependenciesCollector.ifArrayType,
    DependenciesCollector.ifPointerType, DependenciesCollector.ifReferenceType;
  cbv zeta;
  destruct (getTypeClass (typeInfo ctx t)) eqn:E;
  try (split; [apply walkContinues_refl|by intros ? [=]]);
  match type of E with
  | _ = _ ?o =>
      destruct (recur_stage o s) as [H1 H2];
      [rewrite Hw; cbn [classOperands]; set_solver|done|];
      split; [done|intros c [= ->]; by apply H2]
  end.

Lemma ifParenType_stage s :
  (∀ named, getTypeClass (typeInfo ctx t) ≠ ElaboratedType named) → S1 ⊆ s.2 →
  let s' := DependenciesCollector.ifParenType (getTypeClass (typeInfo ctx t)) recur s in
  walkContinues ctx f s s'
  ∧ ∀ c, getTypeClass (typeInfo ctx t) = ParenType (Some c) → c ∈ s'.2.
Proof using recur_None recur_Some. operand_stage s. Qed.

Lemma ifArrayType_stage s :
  (∀ named, getTypeClass (typeInfo ctx t) ≠ ElaboratedType named) → S1 ⊆ s.2 →
  let s' := DependenciesCollector.ifArrayType (getTypeClass (typeInfo ctx t)) recur s in
  walkContinues ctx f s s'
  ∧ ∀ c, getTypeClass (typeInfo ctx t) = ArrayType (Some c) → c ∈ s'.2.
Proof using recur_None recur_Some. operand_stage s. Qed.

Lemma ifPointerType_stage s :
  (∀ named, getTypeClass (typeInfo ctx t) ≠ ElaboratedType named) → S1 ⊆ s.2 →
  let s' := DependenciesCollector.ifPointerType (getTypeClass (typeInfo ctx t)) recur s in
  walkContinues ctx f s s'
  ∧ ∀ c, getTypeClass (typeInfo ctx t) = PointerType (Some c) → c ∈ s'.2.
Proof using recur_None recur_Some. operand_stage s. Qed.

Lemma ifReferenceType_stage s :
  (∀ named, getTypeClass (typeInfo ctx t) ≠ ElaboratedType named) → S1 ⊆ s.2 →
  let s' := DependenciesCollector.ifReferenceType (getTypeClass (typeInfo ctx t)) recur s in
  walkContinues ctx f s s'
  ∧ ∀ c, getTypeClass (typeInfo ctx t) = ReferenceType (Some c) → c ∈ s'.2.
Proof using recur_None recur_Some. operand_stage s. Qed.

Lemma ifTypedefType_stage s :
  let s' := DependenciesCollector.ifTypedefType (getTypeClass (typeInfo ctx t))
              (fun decl => DependenciesCollector.onInfo
                             (DependenciesCollector.insertReference ctx (Some f) decl)) s in
  walkContinues ctx f s s'
  ∧ ∀ d, getTypeClass (typeInfo ctx t) = TypedefType (Some d) →
         hasEdge (uses s'.1) (endpoint ctx f) (endpoint ctx d).
Proof.
  unfold DependenciesCollector.ifTypedefType. cbv zeta.
  destruct (getTypeClass (typeInfo ctx t)) as [?|?|?|?|?|decl|? ?|];
    try (split; [apply walkContinues_refl|by intros ? [=]]).
  split; [apply walkContinues_insert|]. intros d [= ->].
  cbn [DependenciesCollector.onInfo fst]. apply insertReference_adds_edge.
Qed.

Lemma ifTemplateSpecializationType_stage s :
  (∀ named, getTypeClass (typeInfo ctx t) ≠ ElaboratedType named) → S1 ⊆ s.2 →
  let s' := DependenciesCollector.ifTemplateSpecializationType
              (getTypeClass (typeInfo ctx t))
              (DependenciesCollector.walkTemplate ctx recur (Some f)) s in
  walkContinues ctx f s s'
  ∧ (∀ d args, getTypeClass (typeInfo ctx t) = TemplateSpecializationType (Some d) args →
               hasEdge (uses s'.1) (endpoint ctx f) (endpoint ctx d))
  ∧ ∀ tmpl args c,
      getTypeClass (typeInfo ctx t) = TemplateSpecializationType tmpl args →
      TypeArgument (Some c) ∈ args → c ∈ s'.2.
Proof using recur_None recur_Some.
  intros Hne Hs. pose proof (walkedTypes_nonElaborated Hne) as Hw.
  unfold DependenciesCollector.ifTemplateSpecializationType. cbv zeta.
  destruct (getTypeClass (typeInfo ctx t)) as [?|?|?|?|?|?|tmpl args|] eqn:E;
    try (split; [apply walkContinues_refl|split; [by intros ? ? [=]|by intros ? ? ? [=]]]).
  destruct (walkTemplate_stage tmpl args s) as (H1 & H2 & H3); [|done|].
  { intros c Hc. rewrite Hw. cbn [classOperands]. apply elem_of_app. left.
    apply list_elem_of_In, in_flat_map. exists (TypeArgument c).
    split; [by apply list_elem_of_In|by left]. }
  split; [done|]. split.
  - intros d args' [= -> <-]. by apply H2.
  - intros tmpl' args' c [= <- <-]. apply H3.
Qed.

Lemma body_finishes st :
  S1 ⊆ st.2 →
  let st' := DependenciesCollector.insertReferenceToTypeBody ctx recur (Some f) t st in
  walkContinues ctx f st st' ∧ walkFinished ctx f st' t.
Proof using recur_None recur_Some.
  intros Hst.
  assert (Hcase : (∃ named, getTypeClass (typeInfo ctx t) = ElaboratedType named)
                  ∨ ∀ named, getTypeClass (typeInfo ctx t) ≠ ElaboratedType named).
  { destruct (getTypeClass (typeInfo ctx t)); eauto. }
  destruct Hcase as [[named Hcls]|Hne]; cbv zeta.
  - unfold DependenciesCollector.insertReferenceToTypeBody. rewrite Hcls.
    assert (Hw : walkedTypes ctx t = [named]) by (unfold walkedTypes; by rewrite Hcls).
    destruct (recur_stage named st) as [H1 H2]; [rewrite Hw; by left|done|].
    split; [done|]. split.
    + intros d [Htag _|Hty|args Hty]; [by destruct (Htag named)|congruence..].
    + intros c Hc. rewrite Hw in Hc. apply list_elem_of_singleton in Hc. by apply H2.
  - rewrite (insertReferenceToTypeBody_nonElaborated _ _ Hne). cbv zeta.
    pose proof (walkedTypes_nonElaborated Hne) as Hw.
    set (s1 := DependenciesCollector.ifParenType _ recur st).
    set (s2 := DependenciesCollector.onInfo _ s1).
    set (s3 := DependenciesCollector.ifArrayType _ recur s2).
    set (s4 := DependenciesCollector.ifPointerType _ recur s3).
    set (s5 := DependenciesCollector.ifReferenceType _ recur s4).
    set (s6 := DependenciesCollector.ifTypedefType _ _ s5).
    set (s7 := DependenciesCollector.walkBases ctx recur t s6).
    set (s8 := DependenciesCollector.ifTemplateSpecializationType _ _ s7).
    destruct (ifParenType_stage st Hne Hst) as [E1 P1]. fold s1 in E1, P1.
    assert (Hs1 : S1 ⊆ s1.2) by (destruct E1 as (_ & ? & _); set_solver).
    assert (E2 : walkContinues ctx f s1 s2) by apply walkContinues_insert.
    assert (P2 : ∀ d, getAsTagDecl (typeInfo ctx t) = Some d →
                      hasEdge (uses s2.1) (endpoint ctx f) (endpoint ctx d)).
    { intros d Hd. subst s2. rewrite Hd.
      cbn [DependenciesCollector.onInfo fst]. apply insertReference_adds_edge. }
    assert (Hs2 : S1 ⊆ s2.2) by (destruct E2 as (_ & ? & _); set_solver).
    destruct (ifArrayType_stage s2 Hne Hs2) as [E3 P3]. fold s3 in E3, P3.
    assert (Hs3 : S1 ⊆ s3.2) by (destruct E3 as (_ & ? & _); set_solver).
    destruct (ifPointerType_stage s3 Hne Hs3) as [E4 P4]. fold s4 in E4, P4.
    assert (Hs4 : S1 ⊆ s4.2) by (destruct E4 as (_ & ? & _); set_solver).
    destruct (ifReferenceType_stage s4 Hne Hs4) as [E5 P5]. fold s5 in E5, P5.
    assert (Hs5 : S1 ⊆ s5.2) by (destruct E5 as (_ & ? & _); set_solver).
    destruct (ifTypedefType_stage s5) as [E6 P6]. fold s6 in E6, P6.
    assert (Hs6 : S1 ⊆ s6.2) by (destruct E6 as (_ & ? & _); set_solver).
    destruct (walkBases_stage s6) as [E7 P7]; [|done|].
    { intros c Hc. rewrite Hw. apply elem_of_app. by right. }
    fold s7 in E7, P7.
    assert (Hs7 : S1 ⊆ s7.2) by (destruct E7 as (_ & ? & _); set_solver).
    destruct (ifTemplateSpecializationType_stage s7 Hne Hs7) as (E8 & P8 & P8').
    fold s8 in E8, P8, P8'.
    clearbody s1 s2 s3 s4 s5 s6 s7 s8.
    pose proof (walkContinues_trans f _ _ _ E7 E8) as G6.
    pose proof (walkContinues_trans f _ _ _ E6 G6) as G5.
    pose proof (walkContinues_trans f _ _ _ E5 G5) as G4.
    pose proof (walkContinues_trans f _ _ _ E4 G4) as G3.
    pose proof (walkContinues_trans f _ _ _ E3 G3) as G2.
    pose proof (walkContinues_trans f _ _ _ E2 G2) as G1.
    pose proof (walkContinues_trans f _ _ _ E1 G1) as G0.
    split; [done|]. split.
    + intros d [_ Htag|Hty|args Hty].
      * destruct G2 as (He & _). by apply He, P2.
      * destruct G6 as (He & _). by apply He, P6.
      * by apply (P8 d args).
    + intros c Hc. rewrite Hw in Hc. apply elem_of_app in Hc as [Hc|Hc].
      * destruct (getTypeClass (typeInfo ctx t)) as [?|o|o|o|o|?|tmpl args|] eqn:E;
          cbn [classOperands] in Hc;
          try (by apply elem_of_nil in Hc);
          try (apply list_elem_of_singleton in Hc; subst o).
        -- by destruct (Hne named).
        -- destruct G1 as (_ & Hsub & _). apply Hsub. by apply P1.
        -- destruct G3 as (_ & Hsub & _). apply Hsub. by apply P3.
        -- destruct G4 as (_ & Hsub & _). apply Hsub. by apply P4.
        -- destruct G5 as (_ & Hsub & _). apply Hsub. by apply P5.
        -- apply (P8' tmpl args c eq_refl).
           apply list_elem_of_In, in_flat_map in Hc as ([c'|] & Hin & Hc');
             [|by destruct Hc'].
           destruct Hc' as [->|[]]. by apply list_elem_of_In.
      * destruct E8 as (_ & Hsub & _). apply Hsub. by apply P7.
Qed.

End Body.

(** The walk, with enough depth, finishes every type it sees. *)
Lemma insertReferenceToTypeSeen_finishes (T : gset TypePtr) (f : Decl) :
  (∀ t c, t ∈ T → Some c ∈ components ctx t → c ∈ T) →
  ∀ depth to st,
    (∀ t, to = Some t → t ∈ T) →
    size (T ∖ st.2) < depth →
    let st' := DependenciesCollector.insertReferenceToTypeSeen ctx depth (Some f) to st in
    walkContinues ctx f st st' ∧ ∀ t, to = Some t → t ∈ st'.2.
Proof.
  intros Hclosed. induction depth as [|depth IH]; intros to st Hto Hsize; [lia|].
  cbv zeta. destruct to as [t|];
    [|split; [apply walkContinues_refl|done]].
  rewrite insertReferenceToTypeSeen_S.
  destruct (bool_decide (t ∈ st.2)) eqn:Hseen.
  { apply bool_decide_eq_true in Hseen.
    split; [apply walkContinues_refl|]. by intros t' [= <-]. }
  apply bool_decide_eq_false in Hseen.
  assert (Ht : t ∈ T) by (by apply Hto).
  assert (Hwalked : ∀ c, Some c ∈ walkedTypes ctx t → Some c ∈ components ctx t).
  { intros c. unfold walkedTypes, components.
    destruct (getTypeClass (typeInfo ctx t)); cbn [classOperands]; set_solver. }
  destruct (body_finishes f t ({[t]} ∪ st.2)
              (DependenciesCollector.insertReferenceToTypeSeen ctx depth (Some f)))
    with (st := (st.1, {[t]} ∪ st.2)) as [HE HF].
  - intros s. by destruct depth.
  - intros c s Hc Hs.
    destruct (IH (Some c) s) as [H1 H2].
    + intros t' [= <-]. apply (Hclosed t); [done|by apply Hwalked].
    + assert (size (T ∖ s.2) < size (T ∖ st.2)); [|lia].
      apply subset_size. split; [set_solver|].
      intros Hsub. assert (t ∈ T ∖ s.2) by (apply Hsub; set_solver). set_solver.
    + split; [done|]. by apply H2.
  - done.
  - set (st' := DependenciesCollector.insertReferenceToTypeBody _ _ _ _ _) in *.
    clearbody st'. destruct HE as (He & Hs & Hfin). cbn [fst snd] in He, Hs, Hfin.
    split; [split; [done|split]|].
    + set_solver.
    + intros t' Ht' Hnt'. destruct (decide (t' = t)) as [->|Hne]; [done|].
      apply Hfin; [done|set_solver].
    + intros t' [= <-]. apply Hs. set_solver.
Qed.

(** With the depth it is given, the walk leaves no type unfinished, so the
    graph has an edge for every declaration that the type mentions. *)
Lemma insertReferenceToType_mentioned_edge
    (T : gset TypePtr) (f : Decl) (t : TypePtr) (d : Decl) (si : SourceInfo) :
  typesOfContext ctx T → t ∈ T → typeMentions ctx t d →
  hasEdge (uses (DependenciesCollector.insertReferenceToType ctx (Some f) (Some t) si))
    (endpoint ctx f) (endpoint ctx d).
Proof.
  intros [Hsize Hclosed] Ht Hm.
  unfold DependenciesCollector.insertReferenceToType.
  destruct (insertReferenceToTypeSeen_finishes T f Hclosed (S (numTypes ctx))
              (Some t) (si, ∅)) as [(_ & _ & Hfin) Hin].
  { by intros t' [= <-]. }
  { cbn [snd]. assert (size (T ∖ ∅) ≤ size T) by (apply subseteq_size; set_solver).
    lia. }
  set (st' := DependenciesCollector.insertReferenceToTypeSeen _ _ _ _ _) in *.
  clearbody st'. specialize (Hin t eq_refl).
  assert (Hall : ∀ t', t' ∈ st'.2 → walkFinished ctx f st' t').
  { intros t' Ht'. apply Hfin; [done|]. cbn [snd]. set_solver. }
  clear Hfin Ht. induction Hm as [t d Hn|t c d Hc _ IH].
  - by apply (Hall t Hin).
  - apply IH. by apply (Hall t Hin).
Qed.

(** X8. The walk over a type reaches every declaration that the type
    mentions: its tag declaration, the declaration of a typedef type, the
    template of a specialization, and the same for the pointee, element,
    referenced, named or parenthesized type, for the type arguments and for
    the bases of the class; for each of them the graph gets the edge from
    the declaration the walk was called for.  The types of the context
    being finitely many, the depth the walk is given is enough. *)
Theorem insertReferenceToType_reaches_mentioned
    (T : gset TypePtr) (f : Decl) (t : TypePtr) (d : Decl) (si : SourceInfo) :
  typesOfContext ctx T → t ∈ T → typeMentions ctx t d →
  hasEdge (uses (DependenciesCollector.insertReferenceToType ctx (Some f) (Some t) si))
    (endpoint ctx f) (endpoint ctx d).
Proof. apply insertReferenceToType_mentioned_edge. Qed.

End TypeWalk.

(** ** What the collector hands over besides the graph *)

Lemma filter_flat_map {A} (p : A → bool) (l : list A) :
  List.filter p l = flat_map (fun a => if p a then [a] else []) l.
Proof.
  induction l as [|a l IH]; cbn [List.filter flat_map]; [done|].
  rewrite IH. by destruct (p a).
Qed.

Lemma visits_flat_map {B} (g : Decl → list B) (n : Node) (stack : list Decl) :
  flat_map (fun v => match v with VisitedDecl d => g d | VisitedStmt _ _ => [] end)
    (visits n stack)
  = flat_map g (visitOrder n).
Proof.
  revert stack.
  induction n as [d children IH|s children IH] using Node_forall_ind;
    intros stack; cbn [visits visitOrder flat_map].
  - f_equal. induction IH as [|c cs Hc _ IHcs]; cbn [flat_map]; [done|].
    by rewrite !flat_map_app, Hc, IHcs.
  - cbn [app]. induction IH as [|c cs Hc _ IHcs]; cbn [flat_map]; [done|].
    by rewrite !flat_map_app, Hc, IHcs.
Qed.

Section Collections.
Context (sm : SourceManager) (ctx : ASTContext).

Lemma whenIsa_frame {A} (g : SourceInfo → A) cls visit d si :
  (∀ s, g (visit d s) = g s) →
  g (DependenciesCollector.whenIsa ctx cls visit d si) = g si.
Proof.
  intros Hv. unfold DependenciesCollector.whenIsa. by destruct (isa ctx cls d).
Qed.

Ltac frame_rest :=
  intros;
  unfold DependenciesCollector.VisitTemplateTypeParmDecl,
    DependenciesCollector.VisitClassTemplateSpecializationDecl,
    DependenciesCollector.VisitCXXRecordDecl,
    DependenciesCollector.VisitClassTemplateDecl,
    DependenciesCollector.VisitFunctionTemplateDecl,
    DependenciesCollector.VisitCXXMethodDecl,
    DependenciesCollector.VisitFieldDecl,
    DependenciesCollector.VisitValueDecl,
    DependenciesCollector.VisitTypeAliasTemplateDecl,
    DependenciesCollector.VisitTypeAliasDecl,
    DependenciesCollector.VisitTypedefNameDecl;
  cbv zeta; repeat case_match;
  repeat first [ rewrite insertReference_delayedParsedFunctions
               | rewrite insertReferenceToType_delayedParsedFunctions
               | rewrite insertReference_staticVariables
               | rewrite insertReferenceToType_staticVariables ];
  done.

Lemma VisitDecl_delayedParsedFunctions d si :
  delayedParsedFunctions (DependenciesCollector.VisitDecl sm ctx d si)
  = delayedParsedFunctions si.
Proof.
  rewrite VisitDecl_commentText. cbv zeta.
  repeat case_match; cbn [delayedParsedFunctions];
    by rewrite ?insertReference_delayedParsedFunctions.
Qed.

Lemma VisitDecl_staticVariables d si :
  staticVariables (DependenciesCollector.VisitDecl sm ctx d si)
  = staticVariables si.
Proof.
  rewrite VisitDecl_commentText. cbv zeta.
  repeat case_match; cbn [staticVariables];
    by rewrite ?insertReference_staticVariables.
Qed.

Lemma VisitVarDecl_delayedParsedFunctions d si :
  delayedParsedFunctions (DependenciesCollector.VisitVarDecl sm ctx d si)
  = delayedParsedFunctions si.
Proof. unfold DependenciesCollector.VisitVarDecl. cbv zeta. by case_match. Qed.

Lemma VisitFunctionDecl_staticVariables f si :
  staticVariables (DependenciesCollector.VisitFunctionDecl sm ctx f si)
  = staticVariables si.
Proof.
  unfold DependenciesCollector.VisitFunctionDecl. cbv zeta.
  repeat case_match; cbn [staticVariables];
    repeat first [ rewrite insertReference_staticVariables
                 | rewrite insertReferenceToType_staticVariables ];
    done.
Qed.

Lemma VisitFunctionDecl_delayedParsedFunctions f si :
  delayedParsedFunctions (DependenciesCollector.VisitFunctionDecl sm ctx f si)
  = delayedParsedFunctions si
    ++ (if isInMainFile sm (getLocStart (declInfo ctx f))
           && isLateTemplateParsed (asFunction (declInfo ctx f))
        then [f] else []).
Proof.
  unfold DependenciesCollector.VisitFunctionDecl. cbv zeta.
  destruct (isInMainFile sm (getLocStart (declInfo ctx f))
            && isLateTemplateParsed (asFunction (declInfo ctx f)));
    repeat case_match; cbn [delayedParsedFunctions];
    repeat first [ rewrite insertReference_delayedParsedFunctions
                 | rewrite insertReferenceToType_delayedParsedFunctions ];
    cbn [delayedParsedFunctions]; by rewrite ?app_nil_r.
Qed.

Lemma WalkUpFromDecl_delayedParsedFunctions d si :
  delayedParsedFunctions (DependenciesCollector.WalkUpFromDecl sm ctx d si)
  = delayedParsedFunctions si ++ (if isDelayedParsed sm ctx d then [d] else []).
Proof.
  unfold DependenciesCollector.WalkUpFromDecl, isDelayedParsed.
  rewrite !(whenIsa_frame delayedParsedFunctions) by frame_rest.
  unfold DependenciesCollector.whenIsa at 1.
  destruct (isa ctx FunctionDecl d); cbn [andb].
  - rewrite VisitFunctionDecl_delayedParsedFunctions.
    rewrite (whenIsa_frame delayedParsedFunctions) by frame_rest.
    rewrite (whenIsa_frame delayedParsedFunctions)
      by (intros; apply VisitVarDecl_delayedParsedFunctions).
    rewrite !(whenIsa_frame delayedParsedFunctions) by frame_rest.
    by rewrite VisitDecl_delayedParsedFunctions.
  - rewrite (whenIsa_frame delayedParsedFunctions) by frame_rest.
    rewrite (whenIsa_frame delayedParsedFunctions)
      by (intros; apply VisitVarDecl_delayedParsedFunctions).
    rewrite !(whenIsa_frame delayedParsedFunctions) by frame_rest.
    by rewrite VisitDecl_delayedParsedFunctions, app_nil_r.
Qed.

Lemma VisitStmt_delayedParsedFunctions s current si :
  delayedParsedFunctions (DependenciesCollector.VisitStmt ctx s current si)
  = delayedParsedFunctions si.
Proof.
  apply (VisitStmt_invariant ctx
           (fun s => delayedParsedFunctions s = delayedParsedFunctions si)); [|done].
  intros f t s0 Hs. by rewrite insertReference_delayedParsedFunctions.
Qed.

Lemma VisitStmt_staticVariables s current si :
  staticVariables (DependenciesCollector.VisitStmt ctx s current si)
  = staticVariables si.
Proof.
  apply (VisitStmt_invariant ctx
           (fun s => staticVariables s = staticVariables si)); [|done].
  intros f t s0 Hs. by rewrite insertReference_staticVariables.
Qed.

(** X9. The functions whose parsing the next stage forces are exactly the
    visited functions that start in the main file and are parsed late, in
    the order of the traversal, once for every visit. *)
Theorem delayedParsedFunctions_exactly_late_parsed (tree : Node) :
  delayedParsedFunctions (DependenciesCollector.collect sm ctx tree)
  = List.filter (isDelayedParsed sm ctx) (visitOrder tree).
Proof.
  rewrite collect_visits, filter_flat_map, <- (visits_flat_map _ tree []).
  assert (Hfold : ∀ vs si,
    delayedParsedFunctions (fold_left (fun si v => applyVisit sm ctx v si) vs si)
    = delayedParsedFunctions si
      ++ flat_map (fun v => match v with
                            | VisitedDecl d => if isDelayedParsed sm ctx d then [d] else []
                            | VisitedStmt _ _ => []
                            end) vs).
  { induction vs as [|v vs IH]; intros si; cbn [fold_left flat_map].
    - by rewrite app_nil_r.
    - rewrite IH. destruct v as [d|s current]; cbn [applyVisit].
      + by rewrite WalkUpFromDecl_delayedParsedFunctions, <- app_assoc.
      + by rewrite VisitStmt_delayedParsedFunctions. }
  by rewrite Hfold.
Qed.

Lemma VisitVarDecl_groupAt d si start :
  groupAt (DependenciesCollector.VisitVarDecl sm ctx d si) start
  = groupAt si start
    ++ (if negb (isLocalVarDeclOrParm (asValue (declInfo ctx d)))
           && isInMainFile sm (getExpansionStart (declInfo ctx d))
           && bool_decide (getExpansionStart (declInfo ctx d) = start)
        then [d] else []).
Proof.
  unfold DependenciesCollector.VisitVarDecl, groupAt. cbv zeta.
  destruct (negb (isLocalVarDeclOrParm (asValue (declInfo ctx d)))
            && isInMainFile sm (getExpansionStart (declInfo ctx d)));
    cbn [andb staticVariables]; [|by rewrite app_nil_r].
  case_bool_decide as Hk.
  - subst start. by rewrite lookup_insert_eq.
  - rewrite lookup_insert_ne by done. by rewrite app_nil_r.
Qed.

Lemma VisitVarDecl_noEmptyGroup d si :
  (∀ k, staticVariables si !! k ≠ Some []) →
  ∀ k, staticVariables (DependenciesCollector.VisitVarDecl sm ctx d si) !! k ≠ Some [].
Proof.
  intros Hsi k. unfold DependenciesCollector.VisitVarDecl. cbv zeta.
  case_match; [|apply Hsi]. cbn [staticVariables].
  destruct (decide (getExpansionStart (declInfo ctx d) = k)) as [->|Hne].
  - rewrite lookup_insert_eq. intros [= Hnil]. by apply app_eq_nil in Hnil as [_ ?].
  - rewrite lookup_insert_ne by done. apply Hsi.
Qed.

Lemma WalkUpFromDecl_staticVariables d si :
  staticVariables (DependenciesCollector.WalkUpFromDecl sm ctx d si)
  = if isa ctx VarDecl d
    then staticVariables
           (DependenciesCollector.VisitVarDecl sm ctx d
              (mkSourceInfo ∅ ∅ [] (staticVariables si)))
    else staticVariables si.
Proof.
  unfold DependenciesCollector.WalkUpFromDecl.
  rewrite !(whenIsa_frame staticVariables) by frame_rest.
  rewrite (whenIsa_frame staticVariables)
    by (intros; apply VisitFunctionDecl_staticVariables).
  rewrite (whenIsa_frame staticVariables) by frame_rest.
  unfold DependenciesCollector.whenIsa at 1.
  destruct (isa ctx VarDecl d).
  - unfold DependenciesCollector.VisitVarDecl. cbv zeta.
    case_match; cbn [staticVariables];
      rewrite !(whenIsa_frame staticVariables) by frame_rest;
      by rewrite VisitDecl_staticVariables.
  - rewrite !(whenIsa_frame staticVariables) by frame_rest.
    by rewrite VisitDecl_staticVariables.
Qed.

Lemma applyVisit_groupAt v si start :
  groupAt (applyVisit sm ctx v si) start
  = groupAt si start
    ++ match v with
       | VisitedDecl d => if isStaticVariableAt sm ctx start d then [d] else []
       | VisitedStmt _ _ => []
       end.
Proof.
  destruct v as [d|s current]; cbn [applyVisit].
  - unfold groupAt at 1. rewrite WalkUpFromDecl_staticVariables.
    unfold isStaticVariableAt. destruct (isa ctx VarDecl d); cbn [andb].
    + fold (groupAt (DependenciesCollector.VisitVarDecl sm ctx d
                       (mkSourceInfo ∅ ∅ [] (staticVariables si))) start).
      by rewrite VisitVarDecl_groupAt.
    + by rewrite app_nil_r.
  - unfold groupAt. by rewrite VisitStmt_staticVariables, app_nil_r.
Qed.

Lemma applyVisit_noEmptyGroup v si :
  (∀ k, staticVariables si !! k ≠ Some []) →
  ∀ k, staticVariables (applyVisit sm ctx v si) !! k ≠ Some [].
Proof.
  intros Hsi. destruct v as [d|s current]; cbn [applyVisit].
  - rewrite WalkUpFromDecl_staticVariables. destruct (isa ctx VarDecl d); [|done].
    by apply VisitVarDecl_noEmptyGroup.
  - by rewrite VisitStmt_staticVariables.
Qed.

(** X10. The group that the collector keeps for a start location holds
    exactly the visited variables that are neither local nor parameters and
    whose expansion starts there, in the main file, in the order of the
    traversal; a group is never empty, so the pruner's [vars.back()] always
    has a variable to return. *)
Theorem staticVariables_groups_by_start
    (tree : Node) (start : SourceLocation) (vars : list Decl) :
  staticVariables (DependenciesCollector.collect sm ctx tree) !! start = Some vars
  ↔ vars ≠ []
    ∧ vars = List.filter (isStaticVariableAt sm ctx start) (visitOrder tree).
Proof.
  rewrite collect_visits, filter_flat_map, <- (visits_flat_map _ tree []).
  assert (Hfold : ∀ vs si,
    (∀ k, staticVariables si !! k ≠ Some []) →
    let si' := fold_left (fun si v => applyVisit sm ctx v si) vs si in
    (∀ k, staticVariables si' !! k ≠ Some [])
    ∧ groupAt si' start
      = groupAt si start
        ++ flat_map (fun v => match v with
                              | VisitedDecl d =>
                                  if isStaticVariableAt sm ctx start d then [d] else []
                              | VisitedStmt _ _ => []
                              end) vs).
  { induction vs as [|v vs IH]; intros si Hsi; cbn [fold_left flat_map].
    - split; [done|by rewrite app_nil_r].
    - destruct (IH (applyVisit sm ctx v si)) as [H1 H2];
        [by apply applyVisit_noEmptyGroup|].
      split; [done|]. by rewrite H2, applyVisit_groupAt, <- app_assoc. }
  destruct (Hfold (visits tree []) emptySourceInfo) as [Hne Hgroup].
  { intros k. cbn [emptySourceInfo staticVariables]. by rewrite lookup_empty. }
  cbv zeta in Hne, Hgroup.
  set (si' := fold_left _ _ _) in *. clearbody si'.
  unfold groupAt in Hgroup. cbn [emptySourceInfo staticVariables] in Hgroup.
  rewrite lookup_empty in Hgroup. cbn [default from_option id app] in Hgroup.
  rewrite <- Hgroup. split.
  - intros Hvars. rewrite Hvars. cbn [default from_option id]. split; [|done].
    intros ->. by apply (Hne start).
  - intros [Hnil ->]. destruct (staticVariables si' !! start); [done|].
    by destruct Hnil.
Qed.

End Collections.

(** * Further properties of the reachability loop *)

Lemma hasEdge_default (u : gmap Decl (gset Decl)) (a b : Decl) :
  hasEdge u a b ↔ b ∈ default ∅ (u !! a).
Proof.
  unfold hasEdge. destruct (u !! a) as [s|]; cbn [default from_option id].
  - split; [by intros (s' & [= <-] & ?)|by exists s].
  - split; [by intros (s' & ? & _)|]. intros H. by apply not_elem_of_empty in H.
Qed.

Section Closure.
Context (sm : SourceManager) (ctx : ASTContext) (srcInfo : SourceInfo).

Lemma initialQueue_endpoint d :
  d ∈ OptimizerConsumer.initialQueue ctx srcInfo
  ↔ ∃ r, r ∈ declsToKeep srcInfo ∧ d = endpoint ctx r.
Proof.
  unfold OptimizerConsumer.initialQueue. rewrite elem_of_map.
  unfold endpoint. naive_solver.
Qed.

Lemma startSearch_searchInvariant :
  searchInvariant sm ctx srcInfo (OptimizerConsumer.startSearch ctx srcInfo).
Proof.
  unfold searchInvariant, OptimizerConsumer.startSearch.
  cbn [OptimizerConsumer.used OptimizerConsumer.queue OptimizerConsumer.uses'
       OptimizerConsumer.usageInfo UsageInfo.create UsageInfo.usedDecls].
  split; [|split; [|split; [|split]]].
  - intros d Hd. apply elem_of_union in Hd as [Hd|Hd]; [by apply not_elem_of_empty in Hd|].
    apply initialQueue_endpoint in Hd as (r & Hr & ->). by constructor.
  - set_solver.
  - intros a b Ha. by apply not_elem_of_empty in Ha.
  - done.
  - intros d. split; [intros Hd|intros [Hd _]]; by apply not_elem_of_empty in Hd.
Qed.

Lemma visitQueued_searchInvariant decl s :
  searchInvariant sm ctx srcInfo s →
  decl ∈ OptimizerConsumer.queue s →
  searchInvariant sm ctx srcInfo (OptimizerConsumer.visitQueued sm ctx decl s).
Proof.
  intros (Hreach & Hroots & Hclosed & Huses & Husage) Hdecl.
  assert (Hrd : reachable ctx srcInfo decl) by (apply Hreach; set_solver).
  destruct (decide (decl ∈ OptimizerConsumer.used s)) as [Hold|Hnew].
  - rewrite visitQueued_old by done. unfold searchInvariant.
    cbn [OptimizerConsumer.used OptimizerConsumer.queue OptimizerConsumer.uses'
         OptimizerConsumer.usageInfo].
    split; [|split; [|split; [|split]]]; [| | |done|done].
    + intros d Hd. apply Hreach. set_solver.
    + intros d Hd. apply Hroots in Hd.
      destruct (decide (d = decl)) as [->|Hne]; set_solver.
    + intros a b Ha Hab. specialize (Hclosed a b Ha Hab).
      destruct (decide (b = decl)) as [->|Hne]; set_solver.
  - destruct (visitQueued_new sm ctx decl s Hnew) as (Hu & Hq & Hm & Hi).
    set (s' := OptimizerConsumer.visitQueued sm ctx decl s) in *. clearbody s'.
    set (succ := default ∅ (OptimizerConsumer.uses' s !! decl)) in *.
    assert (Hsucc : ∀ b, b ∈ succ ↔ hasEdge (uses srcInfo) decl b).
    { intros b. subst succ. by rewrite Huses, hasEdge_default. }
    assert (Hq' : ∀ x, x ∈ OptimizerConsumer.queue s'
                       ↔ destructorOfRecord ctx decl = Some x
                         ∨ (x ∈ OptimizerConsumer.queue s ∧ x ≠ decl) ∨ x ∈ succ).
    { intros x. rewrite Hq. destruct (destructorOfRecord ctx decl) as [dtor|].
      - rewrite !elem_of_union, elem_of_difference, !elem_of_singleton. naive_solver.
      - rewrite !elem_of_union, elem_of_difference, !elem_of_singleton. naive_solver. }
    clear Hq. unfold searchInvariant. rewrite Hu.
    split; [|split; [|split; [|split]]].
    + intros d Hd. rewrite !elem_of_union, elem_of_singleton, Hq' in Hd.
      destruct Hd as [[->|Hd]|[Hd|[[Hd _]|Hd]]].
      * done.
      * apply Hreach. set_solver.
      * by apply (reachable_destructor _ _ decl).
      * apply Hreach. set_solver.
      * apply (reachable_use _ _ decl); [done|]. by apply Hsucc.
    + intros d Hd. apply Hroots in Hd.
      rewrite !elem_of_union, elem_of_singleton, Hq'.
      destruct (decide (d = decl)) as [->|Hne]; [by left; left|].
      apply elem_of_union in Hd as [Hd|Hd]; [by left; right|by right; right; left].
    + intros a b Ha Hab. rewrite !elem_of_union, elem_of_singleton, Hq'.
      apply elem_of_union in Ha as [Ha|Ha].
      * apply elem_of_singleton in Ha as ->. right; right; right. by apply Hsucc.
      * specialize (Hclosed a b Ha Hab).
        destruct (decide (b = decl)) as [->|Hne]; [by left; left|].
        apply elem_of_union in Hclosed as [Hb|Hb]; [by left; right|by right; right; left].
    + intros a. rewrite Hm. destruct (decide (a = decl)) as [->|Hne].
      * rewrite lookup_insert_eq. cbn [default from_option id]. apply Huses.
      * rewrite lookup_insert_ne by done. apply Huses.
    + intros d. rewrite Hi, addIfInMainFile_usedDecls, Husage.
      rewrite elem_of_union, elem_of_singleton. naive_solver.
Qed.

(** When the loop has ended, the used set holds the roots and is closed
    under the edges of the graph and under the step from a class record to
    its destructor; everything in it is reachable. *)
Lemma findUsedDecls_closed fuel s :
  OptimizerConsumer.findUsedDecls sm ctx fuel srcInfo = Some s →
  (∀ d, d ∈ OptimizerConsumer.used s → reachable ctx srcInfo d)
  ∧ (∀ r, r ∈ declsToKeep srcInfo → endpoint ctx r ∈ OptimizerConsumer.used s)
  ∧ (∀ a b, a ∈ OptimizerConsumer.used s → hasEdge (uses srcInfo) a b →
            b ∈ OptimizerConsumer.used s)
  ∧ (∀ r x, r ∈ OptimizerConsumer.used s → destructorOfRecord ctx r = Some x →
            x ∈ OptimizerConsumer.used s)
  ∧ (∀ a b, hasEdge (OptimizerConsumer.uses' s) a b ↔ hasEdge (uses srcInfo) a b)
  ∧ (∀ d, d ∈ UsageInfo.usedDecls (OptimizerConsumer.usageInfo s)
          ↔ d ∈ OptimizerConsumer.used s
            ∧ isInMainFile sm (getExpansionStart (declInfo ctx d)) = true).
Proof.
  intros Hloop. unfold OptimizerConsumer.findUsedDecls in Hloop.
  destruct (searchLoop_invariant sm ctx
              (fun s => searchInvariant sm ctx srcInfo s ∧ destructorsFollow ctx s)
              fuel (OptimizerConsumer.startSearch ctx srcInfo) s)
    as (((Hreach & Hroots & Hclosed & Huses & Husage) & Hdtor) & Hq).
  - intros decl s0 [? ?] Hdecl. split;
      [by apply visitQueued_searchInvariant|by apply visitQueued_destructorsFollow].
  - done.
  - split; [apply startSearch_searchInvariant|].
    intros d x Hd. by apply not_elem_of_empty in Hd.
  - rewrite Hq in Hreach, Hroots, Hclosed.
    split; [|split; [|split; [|split; [|split]]]].
    + intros d Hd. apply Hreach. set_solver.
    + intros r Hr.
      assert (endpoint ctx r ∈ OptimizerConsumer.initialQueue ctx srcInfo)
        by (apply initialQueue_endpoint; eauto).
      set_solver.
    + intros a b Ha Hab. specialize (Hclosed a b Ha Hab). set_solver.
    + intros r x Hr Hx. specialize (Hdtor r x Hr Hx). rewrite Hq in Hdtor. set_solver.
    + intros a b. by rewrite !hasEdge_default, Huses.
    + done.
Qed.

Lemma findUsedDecls_used_reachable fuel s d :
  OptimizerConsumer.findUsedDecls sm ctx fuel srcInfo = Some s →
  d ∈ OptimizerConsumer.used s ↔ reachable ctx srcInfo d.
Proof.
  intros Hloop.
  destruct (findUsedDecls_closed fuel s Hloop)
    as (Hsound & Hroots & Hclosed & Hdtor & _ & _).
  split; [apply Hsound|].
  induction 1 as [r Hr|a b _ IH Hab|r x _ IH Hx].
  - by apply Hroots.
  - by apply (Hclosed a b).
  - by apply (Hdtor r x).
Qed.

(** X11. When the loop ends, the used set is exactly what can be reached
    from the roots, along the edges of the graph and from a class record to
    its destructor; and the loop has added no edge to the graph. *)
Theorem findUsedDecls_exactly_reachable (fuel : nat) (s : OptimizerConsumer.Search) :
  OptimizerConsumer.findUsedDecls sm ctx fuel srcInfo = Some s →
  (∀ d, d ∈ OptimizerConsumer.used s ↔ reachable ctx srcInfo d)
  ∧ (∀ a b, hasEdge (OptimizerConsumer.uses' s) a b ↔ hasEdge (uses srcInfo) a b).
Proof.
  intros Hloop.
  destruct (findUsedDecls_closed fuel s Hloop) as (_ & _ & _ & _ & Hedges & _).
  split; [|done]. intros d. by apply (findUsedDecls_used_reachable fuel).
Qed.

(** X12. When the loop ends, the usage info holds exactly the reachable
    declarations whose range starts in the main file; [isUsed] is true of
    each of them, and of nothing that is unreachable and shares its range
    with no recorded declaration. *)
Theorem usageInfo_exactly_reachable_in_main_file
    (fuel : nat) (s : OptimizerConsumer.Search) :
  OptimizerConsumer.findUsedDecls sm ctx fuel srcInfo = Some s →
  (∀ d, d ∈ UsageInfo.usedDecls (OptimizerConsumer.usageInfo s)
        ↔ reachable ctx srcInfo d
          ∧ isInMainFile sm (getExpansionStart (declInfo ctx d)) = true)
  ∧ (∀ d, reachable ctx srcInfo d →
          isInMainFile sm (getExpansionStart (declInfo ctx d)) = true →
          UsageInfo.isUsed sm ctx (OptimizerConsumer.usageInfo s) d = true)
  ∧ (∀ d, UsageInfo.isUsed sm ctx (OptimizerConsumer.usageInfo s) d = true →
          ¬ reachable ctx srcInfo d →
          UsageInfo.findRange sm (UsageInfo.getSourceRange ctx d)
            (UsageInfo.locationsOfUsedDecls (OptimizerConsumer.usageInfo s)) = true).
Proof.
  intros Hloop.
  destruct (findUsedDecls_closed fuel s Hloop) as (_ & _ & _ & _ & _ & Husage).
  assert (Hused : ∀ d, d ∈ OptimizerConsumer.used s ↔ reachable ctx srcInfo d)
    by (intros d; by apply (findUsedDecls_used_reachable fuel)).
  assert (Hexact : ∀ d, d ∈ UsageInfo.usedDecls (OptimizerConsumer.usageInfo s)
                        ↔ reachable ctx srcInfo d
                          ∧ isInMainFile sm (getExpansionStart (declInfo ctx d)) = true).
  { intros d. by rewrite Husage, Hused. }
  split; [done|]. split.
  - intros d Hd Hmain. apply isUsed_usedDecls. by apply Hexact.
  - intros d Hd Hnot. unfold UsageInfo.isUsed in Hd.
    case_bool_decide as Hin; [|done]. apply Hexact in Hin as [? _]. done.
Qed.

End Closure.

Section CollectorAndLoop.
Context (sm : SourceManager) (ctx : ASTContext).

(** X13. A virtual method of a used class is used: the collector makes the
    class depend on the method, and the loop follows that edge. *)
Theorem virtual_method_of_used_class_is_used
    (tree : Node) (fuel : nat) (s : OptimizerConsumer.Search) (m p : Decl) :
  m ∈ visitOrder tree →
  isa ctx CXXMethodDecl m = true →
  isVirtual (asFunction (declInfo ctx m)) = true →
  getParent (asFunction (declInfo ctx m)) = Some p →
  OptimizerConsumer.findUsedDecls sm ctx fuel
    (DependenciesCollector.collect sm ctx tree) = Some s →
  endpoint ctx p ∈ OptimizerConsumer.used s →
  endpoint ctx m ∈ OptimizerConsumer.used s.
Proof.
  intros Hm Hisa Hvirtual Hp Hloop Hused.
  destruct (findUsedDecls_closed sm ctx _ fuel s Hloop) as (_ & _ & Hclosed & _).
  apply (Hclosed (endpoint ctx p)); [done|].
  assert (Hv : VisitedDecl m ∈ visits tree []) by (by apply visits_visitOrder).
  apply (collect_after_visit sm ctx tree (VisitedDecl m) _ _ Hv). intros si.
  cbn [applyVisit].
  destruct (WalkUpFromDecl_method_edges sm ctx m p si Hisa Hp) as [_ H]. by apply H.
Qed.

End CollectorAndLoop.

(** * Further properties of the optimizer visitor *)

Lemma classof_FunctionDecl_only (k : DeclClass) :
  classof FunctionDecl k = true →
  classof EmptyDecl k = false ∧ classof NamespaceDecl k = false
  ∧ classof FunctionTemplateDecl k = false ∧ classof CXXRecordDecl k = false
  ∧ classof ClassTemplateDecl k = false ∧ classof TypedefDecl k = false
  ∧ classof TypeAliasDecl k = false ∧ classof TypeAliasTemplateDecl k = false
  ∧ classof UsingDirectiveDecl k = false.
Proof. destruct k; cbn; intros H; try discriminate; repeat split. Qed.

Section VisitorKeeps.
Context (sm : SourceManager) (ctx : ASTContext) (usageInfo : UsageInfo.t).

#[local] Abbreviation removeDecl := (OptimizerVisitor.removeDecl sm ctx).
#[local] Abbreviation WalkUpFromDecl := (OptimizerVisitor.WalkUpFromDecl sm ctx usageInfo).
#[local] Abbreviation visitAll := (OptimizerVisitor.visitAll sm ctx usageInfo).

Ltac unfold_hooks :=
  unfold OptimizerVisitor.VisitEmptyDecl, OptimizerVisitor.VisitNamespaceDecl,
    OptimizerVisitor.VisitFunctionDecl, OptimizerVisitor.VisitFunctionTemplateDecl,
    OptimizerVisitor.VisitCXXRecordDecl, OptimizerVisitor.VisitClassTemplateDecl,
    OptimizerVisitor.VisitTypedefDecl, OptimizerVisitor.VisitTypeAliasDecl,
    OptimizerVisitor.VisitTypeAliasTemplateDecl,
    OptimizerVisitor.VisitUsingDirectiveDecl.

Lemma WalkUpFromDecl_function d v :
  isa ctx FunctionDecl d = true →
  WalkUpFromDecl d v = OptimizerVisitor.VisitFunctionDecl sm ctx usageInfo d v.
Proof.
  intros Hd.
  destruct (classof_FunctionDecl_only _ Hd)
    as (H1 & H2 & H3 & H4 & H5 & H6 & H7 & H8 & H9).
  fold (isa ctx EmptyDecl d) in H1. fold (isa ctx NamespaceDecl d) in H2.
  fold (isa ctx FunctionTemplateDecl d) in H3. fold (isa ctx CXXRecordDecl d) in H4.
  fold (isa ctx ClassTemplateDecl d) in H5. fold (isa ctx TypedefDecl d) in H6.
  fold (isa ctx TypeAliasDecl d) in H7. fold (isa ctx TypeAliasTemplateDecl d) in H8.
  fold (isa ctx UsingDirectiveDecl d) in H9.
  unfold OptimizerVisitor.WalkUpFromDecl.
  rewrite !(whenIsa_other ctx) by assumption.
  unfold OptimizerVisitor.whenIsa at 1. rewrite Hd.
  by rewrite !(whenIsa_other ctx) by assumption.
Qed.

Lemma needToRemoveFunction_kept d v :
  OptimizerVisitor.needToRemoveFunction sm ctx usageInfo d v = false
  ↔ functionIsKept sm ctx usageInfo (OptimizerVisitor.declared v) d.
Proof.
  unfold OptimizerVisitor.needToRemoveFunction, functionIsKept. cbv zeta.
  destruct (isExplicitlyDefaulted (asFunction (declInfo ctx d)));
    [split; [by left|done]|].
  destruct (isDeleted (asFunction (declInfo ctx d)));
    [split; [by right; left|done]|].
  cbn [orb].
  destruct (UsageInfo.isUsed sm ctx usageInfo (canonical ctx d)); cbn [negb orb];
    [|split; [done|by intros [?|[?|[? _]]]]].
  destruct (doesThisDeclarationHaveABody (asFunction (declInfo ctx d)));
    cbn [negb andb].
  - split; [|done]. intros _. right; right. split; [done|by left].
  - case_bool_decide as Hin.
    + split; [done|]. intros [?|[?|[_ [?|?]]]]; done.
    + split; [|done]. intros _. right; right. split; [done|by right].
Qed.

Lemma WalkUpFromDecl_outside_main_file (d : Decl) (v : OptimizerVisitor.t) :
  isInMainFile sm (getLocStart (declInfo ctx d)) = false →
  WalkUpFromDecl d v = v.
Proof.
  intros Hout.
  assert (Hnoop : ∀ cls visit v0,
            (∀ v1, visit d v1 = v1) → OptimizerVisitor.whenIsa ctx cls visit d v0 = v0).
  { intros cls visit v0 Hv. unfold OptimizerVisitor.whenIsa. by destruct (isa ctx cls d). }
  unfold OptimizerVisitor.WalkUpFromDecl.
  by rewrite !Hnoop by (intros v1; unfold_hooks; by rewrite Hout).
Qed.

(** X14. The visitor leaves a declaration that starts outside the main
    file alone: nothing is submitted for it, and it is not remembered as
    declared. *)
Theorem visitor_leaves_other_files_alone (d : Decl) (v : OptimizerVisitor.t) :
  isInMainFile sm (getLocStart (declInfo ctx d)) = false →
  WalkUpFromDecl d v = v.
Proof. apply WalkUpFromDecl_outside_main_file. Qed.

Lemma WalkUpFromDecl_function_cases (d : Decl) (v : OptimizerVisitor.t) :
  isa ctx FunctionDecl d = true →
  isInMainFile sm (getLocStart (declInfo ctx d)) = true →
  (functionIsKept sm ctx usageInfo (OptimizerVisitor.declared v) d →
   WalkUpFromDecl d v = OptimizerVisitor.declare (canonical ctx d) v)
  ∧ (¬ functionIsKept sm ctx usageInfo (OptimizerVisitor.declared v) d →
     WalkUpFromDecl d v
     = OptimizerVisitor.declare (canonical ctx d) (removeDecl (Some d) v))
  ∧ canonical ctx d ∈ OptimizerVisitor.declared (WalkUpFromDecl d v).
Proof.
  intros Hd Hmain. rewrite WalkUpFromDecl_function by done.
  unfold OptimizerVisitor.VisitFunctionDecl. rewrite Hmain. cbn [negb]. cbv zeta.
  split; [|split].
  - intros Hkept. apply needToRemoveFunction_kept in Hkept. by rewrite Hkept.
  - intros Hnot.
    destruct (OptimizerVisitor.needToRemoveFunction sm ctx usageInfo d v) eqn:E; [done|].
    by apply needToRemoveFunction_kept in E.
  - unfold OptimizerVisitor.declare. cbn [OptimizerVisitor.declared]. set_solver.
Qed.

(** X15. A function declaration of the main file is left in place exactly
    when it is explicitly defaulted or deleted, or when its canonical
    declaration is used and it either has a body or is the first
    declaration of that function the visitor meets; otherwise its removal
    is submitted.  Either way the function counts as declared from then
    on. *)
Theorem function_removed_unless_kept (d : Decl) (v : OptimizerVisitor.t) :
  isa ctx FunctionDecl d = true →
  isInMainFile sm (getLocStart (declInfo ctx d)) = true →
  (functionIsKept sm ctx usageInfo (OptimizerVisitor.declared v) d →
   WalkUpFromDecl d v = OptimizerVisitor.declare (canonical ctx d) v)
  ∧ (¬ functionIsKept sm ctx usageInfo (OptimizerVisitor.declared v) d →
     WalkUpFromDecl d v
     = OptimizerVisitor.declare (canonical ctx d) (removeDecl (Some d) v))
  ∧ canonical ctx d ∈ OptimizerVisitor.declared (WalkUpFromDecl d v).
Proof. apply WalkUpFromDecl_function_cases. Qed.

Lemma removeDecl_declared decl v :
  OptimizerVisitor.declared (removeDecl decl v) = OptimizerVisitor.declared v.
Proof. destruct decl; [|done]. by rewrite removeDecl_removeRanges. Qed.

Lemma WalkUpFromDecl_declared_mono d v :
  OptimizerVisitor.declared v ⊆ OptimizerVisitor.declared (WalkUpFromDecl d v).
Proof.
  unfold OptimizerVisitor.WalkUpFromDecl.
  assert (Hstep : ∀ cls visit v0,
            (∀ v1, OptimizerVisitor.declared v1 ⊆ OptimizerVisitor.declared (visit d v1)) →
            OptimizerVisitor.declared v ⊆ OptimizerVisitor.declared v0 →
            OptimizerVisitor.declared v
            ⊆ OptimizerVisitor.declared (OptimizerVisitor.whenIsa ctx cls visit d v0)).
  { intros cls visit v0 Hv Hv0. unfold OptimizerVisitor.whenIsa.
    destruct (isa ctx cls d); [|done]. etrans; [exact Hv0|apply Hv]. }
  repeat (apply Hstep;
          [intros v1; unfold_hooks; unfold OptimizerVisitor.declare;
           repeat case_match; cbn [OptimizerVisitor.declared];
           rewrite ?removeDecl_declared; set_solver|]).
  done.
Qed.

Lemma visitAll_declared_mono decls v :
  OptimizerVisitor.declared v ⊆ OptimizerVisitor.declared (visitAll decls v).
Proof.
  revert v. induction decls as [|d decls IH]; intros v;
    unfold OptimizerVisitor.visitAll; cbn [fold_left]; [done|].
  fold (visitAll decls (WalkUpFromDecl d v)).
  etrans; [apply (WalkUpFromDecl_declared_mono d)|apply IH].
Qed.

Lemma visitAll_declares_function decls d v :
  d ∈ decls → isa ctx FunctionDecl d = true →
  isInMainFile sm (getLocStart (declInfo ctx d)) = true →
  canonical ctx d ∈ OptimizerVisitor.declared (visitAll decls v).
Proof.
  intros Hin Hd Hmain. apply list_elem_of_split in Hin as (l1 & l2 & ->).
  unfold OptimizerVisitor.visitAll. rewrite fold_left_app. cbn [fold_left].
  apply (visitAll_declared_mono l2).
  by destruct (WalkUpFromDecl_function_cases d (visitAll l1 v) Hd Hmain) as (_ & _ & ?).
Qed.

(** X16. A declaration without a body of a function that the visitor has
    already met in the main file is submitted for removal, whether the
    function is used or not, unless it is explicitly defaulted or
    deleted. *)
Theorem function_redeclaration_removed
    (decls : list Decl) (i : nat) (first again : Decl) (v : OptimizerVisitor.t) :
  decls !! i = Some again →
  first ∈ take i decls →
  isa ctx FunctionDecl first = true →
  isInMainFile sm (getLocStart (declInfo ctx first)) = true →
  isa ctx FunctionDecl again = true →
  isInMainFile sm (getLocStart (declInfo ctx again)) = true →
  canonical ctx first = canonical ctx again →
  doesThisDeclarationHaveABody (asFunction (declInfo ctx again)) = false →
  isExplicitlyDefaulted (asFunction (declInfo ctx again)) = false →
  isDeleted (asFunction (declInfo ctx again)) = false →
  let before := visitAll (take i decls) v in
  visitAll (take (S i) decls) v
  = OptimizerVisitor.declare (canonical ctx again) (removeDecl (Some again) before).
Proof.
  intros Hi Hfirst Hf1 Hm1 Hf2 Hm2 Hcanon Hbody Hdef Hdel before.
  rewrite (take_S_r _ _ _ Hi). unfold OptimizerVisitor.visitAll at 1.
  rewrite fold_left_app. cbn [fold_left]. fold (visitAll (take i decls) v). fold before.
  destruct (WalkUpFromDecl_function_cases again before Hf2 Hm2) as (_ & Hremoved & _).
  apply Hremoved. unfold functionIsKept. cbv zeta. rewrite Hbody, Hdef, Hdel.
  intros [?|[?|[_ [?|Hnew]]]]; try done.
  apply Hnew. rewrite <- Hcanon. by apply visitAll_declares_function.
Qed.

(** Every request that a hook of the visitor submits asks for the line to
    be removed if it ends up empty, and no earlier request is withdrawn. *)
Lemma removeDecl_requests decl v :
  ∃ added,
    SmartRewriter.requested (OptimizerVisitor.rewriter (removeDecl decl v))
    = SmartRewriter.requested (OptimizerVisitor.rewriter v) ++ added
    ∧ Forall (fun it => RemoveLineIfEmpty (opts it) = true) added.
Proof.
  destruct decl as [d|]; [|exists []; by rewrite app_nil_r].
  exists (removalRequests ctx d). rewrite removeDecl_removeRanges.
  cbn [OptimizerVisitor.rewriter]. rewrite removeRanges_requested. split; [done|].
  unfold removalRequests.
  destruct (getRawCommentForDeclNoCache (declInfo ctx d)); repeat constructor.
Qed.

Lemma WalkUpFromDecl_requests d v :
  ∃ added,
    SmartRewriter.requested (OptimizerVisitor.rewriter (WalkUpFromDecl d v))
    = SmartRewriter.requested (OptimizerVisitor.rewriter v) ++ added
    ∧ Forall (fun it => RemoveLineIfEmpty (opts it) = true) added.
Proof.
  unfold OptimizerVisitor.WalkUpFromDecl.
  assert (Hstep : ∀ cls visit v0,
    (∀ v1, ∃ added,
       SmartRewriter.requested (OptimizerVisitor.rewriter (visit d v1))
       = SmartRewriter.requested (OptimizerVisitor.rewriter v1) ++ added
       ∧ Forall (fun it => RemoveLineIfEmpty (opts it) = true) added) →
    (∃ added,
       SmartRewriter.requested (OptimizerVisitor.rewriter v0)
       = SmartRewriter.requested (OptimizerVisitor.rewriter v) ++ added
       ∧ Forall (fun it => RemoveLineIfEmpty (opts it) = true) added) →
    ∃ added,
      SmartRewriter.requested
        (OptimizerVisitor.rewriter (OptimizerVisitor.whenIsa ctx cls visit d v0))
      = SmartRewriter.requested (OptimizerVisitor.rewriter v) ++ added
      ∧ Forall (fun it => RemoveLineIfEmpty (opts it) = true) added).
  { intros cls visit v0 Hv (a0 & E0 & F0). unfold OptimizerVisitor.whenIsa.
    destruct (isa ctx cls d); [|by exists a0].
    destruct (Hv v0) as (a1 & E1 & F1). exists (a0 ++ a1).
    rewrite E1, E0, app_assoc. split; [done|by apply Forall_app]. }
  repeat (apply Hstep;
          [intros v1; unfold_hooks; unfold OptimizerVisitor.declare;
           repeat case_match; cbn [OptimizerVisitor.rewriter];
           first [apply removeDecl_requests | exists []; by rewrite app_nil_r]|]).
  exists []. by rewrite app_nil_r.
Qed.

(** X17. Whatever the visitor and the pruner of variable groups submit to
    the rewriter, they submit with remove-empty-lines set, and they only
    add to what was submitted before. *)
Theorem every_request_removes_empty_lines
    (tree : Node) (srcInfo : SourceInfo) (v : OptimizerVisitor.t) :
  ∃ added,
    SmartRewriter.requested
      (OptimizerConsumer.removeUnusedVariables sm ctx srcInfo usageInfo
         (OptimizerVisitor.rewriter
            (OptimizerVisitor.Traverse sm ctx usageInfo tree v)))
    = SmartRewriter.requested (OptimizerVisitor.rewriter v) ++ added
    ∧ Forall (fun it => RemoveLineIfEmpty (opts it) = true) added.
Proof.
  rewrite removeUnusedVariables_submits_group_by_group, Traverse_visitAll.
  assert (Hall : ∀ decls v0, ∃ added,
            SmartRewriter.requested (OptimizerVisitor.rewriter (visitAll decls v0))
            = SmartRewriter.requested (OptimizerVisitor.rewriter v0) ++ added
            ∧ Forall (fun it => RemoveLineIfEmpty (opts it) = true) added).
  { induction decls as [|d decls IH]; intros v0;
      unfold OptimizerVisitor.visitAll; cbn [fold_left].
    - exists []. by rewrite app_nil_r.
    - fold (visitAll decls (WalkUpFromDecl d v0)).
      destruct (IH (WalkUpFromDecl d v0)) as (a1 & E1 & F1).
      destruct (WalkUpFromDecl_requests d v0) as (a0 & E0 & F0).
      exists (a0 ++ a1). rewrite E1, E0, app_assoc. split; [done|by apply Forall_app]. }
  destruct (Hall (visitOrder tree) v) as (a & E & F).
  eexists. rewrite E, <- app_assoc. split; [done|].
  apply Forall_app. split; [done|].
  apply Forall_forall. intros it Hit.
  apply list_elem_of_In, in_flat_map in Hit as (kv & _ & Hit).
  unfold asRemovals in Hit. apply in_map_iff in Hit as (r & <- & _). done.
Qed.

End VisitorKeeps.

(** * Further properties of the pruner, of the usage info and of the forcing
      step *)

Section PrunerGroups.
Context (sm : SourceManager) (ctx : ASTContext) (u : UsageInfo.t).

(** X18. A group in which every variable is used is left as it is: the
    pruner submits nothing for it. *)
Theorem group_of_used_variables_untouched
    (startOfType : SourceLocation) (vars : list Decl) (rw : SmartRewriter.t) :
  (∀ var, var ∈ vars → variableUsed sm ctx u var = true) →
  OptimizerConsumer.removeUnusedGroup sm ctx u startOfType vars rw = rw.
Proof.
  intros Hall. unfold OptimizerConsumer.removeUnusedGroup.
  rewrite markUsage_spec. cbv zeta.
  destruct (last vars) as [lastVar|] eqn:Hlast; [|done].
  assert (Hin : lastVar ∈ vars).
  { rewrite last_lookup in Hlast. by apply list_elem_of_lookup_2 in Hlast. }
  destruct (lastUsedIndex_spec sm ctx u vars) as [[_ Hnone]|(Hlt & _ & Hlater)].
  { specialize (Hnone _ Hin). rewrite (Hall _ Hin) in Hnone. done. }
  assert (Hk : lastUsedIndex sm ctx u vars + 1 = length vars).
  { destruct (decide (lastUsedIndex sm ctx u vars + 1 = length vars)) as [?|Hne]; [done|].
    destruct (lookup_lt_is_Some_2 vars (S (lastUsedIndex sm ctx u vars))) as [var Hvar];
      [lia|].
    assert (variableUsed sm ctx u var = false) by (apply (Hlater _ _ (Nat.lt_succ_diag_r _) Hvar)).
    rewrite Hall in H; [done|]. by apply list_elem_of_lookup_2 in Hvar. }
  rewrite bool_decide_eq_false_2 by lia.
  rewrite (bool_decide_eq_false_2 (_ ≠ _)) by (intros Hne; by apply Hne).
  apply (fold_left_invariant (fun r => r = rw)); [|done].
  intros r i ->. rewrite list_lookup_fmap.
  destruct (vars !! i) as [var|] eqn:Hvar; cbn [fmap option_fmap option_map]; [|done].
  change (UsageInfo.isUsed sm ctx u (canonical ctx var)) with (variableUsed sm ctx u var).
  rewrite Hall; [done|]. by apply list_elem_of_lookup_2 in Hvar.
Qed.

(** X19. For a group in which no variable is used the pruner submits one
    removal, of the whole declaration: from the start of the type to the
    semicolon after the last variable. *)
Theorem group_of_unused_variables_removed_whole
    (startOfType : SourceLocation) (vars : list Decl) (lastVar : Decl)
    (rw : SmartRewriter.t) :
  last vars = Some lastVar →
  (∀ var, var ∈ vars → variableUsed sm ctx u var = false) →
  OptimizerConsumer.removeUnusedGroup sm ctx u startOfType vars rw
  = (SmartRewriter.removeRange sm rw
       (mkSourceRange startOfType
          (findSemiAfterLocation ctx (getExpansionEnd (declInfo ctx lastVar))))
       (setRemoveLineIfEmpty true defaultRewriteOptions)).2.
Proof.
  intros Hlast Hnone. unfold OptimizerConsumer.removeUnusedGroup.
  rewrite markUsage_spec, Hlast. cbv zeta.
  destruct (lastUsedIndex_spec sm ctx u vars) as [[-> _]|(_ & (var & Hvar & Hused) & _)].
  - by rewrite bool_decide_eq_true_2.
  - apply list_elem_of_lookup_2 in Hvar. rewrite (Hnone _ Hvar) in Hused. done.
Qed.

End PrunerGroups.

Section UsageInfoFacts.
Context (sm : SourceManager) (ctx : ASTContext).

Lemma findRange_app r l1 l2 :
  UsageInfo.findRange sm r l1 = true → UsageInfo.findRange sm r (l1 ++ l2) = true.
Proof.
  unfold UsageInfo.findRange. rewrite existsb_app. by intros ->.
Qed.

(** X20. Recording a declaration in the usage info makes it used if its
    range starts in the main file and changes nothing otherwise; and it
    never makes a declaration unused that was used before. *)
Theorem addIfInMainFile_records_and_keeps (decl : Decl) (u : UsageInfo.t) :
  (if isInMainFile sm (getExpansionStart (declInfo ctx decl))
   then UsageInfo.isUsed sm ctx (UsageInfo.addIfInMainFile sm ctx decl u) decl = true
   else UsageInfo.addIfInMainFile sm ctx decl u = u)
  ∧ ∀ d, UsageInfo.isUsed sm ctx u d = true →
         UsageInfo.isUsed sm ctx (UsageInfo.addIfInMainFile sm ctx decl u) d = true.
Proof.
  split.
  - unfold UsageInfo.addIfInMainFile, UsageInfo.getSourceRange, getExpansionRange.
    cbv zeta. cbn [getBegin].
    destruct (isInMainFile sm (getExpansionStart (declInfo ctx decl))); [|done].
    apply isUsed_usedDecls. cbn [UsageInfo.usedDecls]. set_solver.
  - intros d. unfold UsageInfo.isUsed.
    case_bool_decide as Hin.
    + intros _. rewrite bool_decide_eq_true_2; [done|].
      apply addIfInMainFile_usedDecls. by left.
    + intros Hfound. case_bool_decide; [done|].
      unfold UsageInfo.addIfInMainFile. cbv zeta.
      destruct (isInMainFile sm _); [|done]. cbn [UsageInfo.locationsOfUsedDecls].
      destruct (UsageInfo.findRange sm (UsageInfo.getSourceRange ctx decl) _); [done|].
      by apply findRange_app.
Qed.

End UsageInfoFacts.

Section RootsKept.
Context (sm : SourceManager) (ctx : ASTContext).

(** X21. A root function is never removed: for a function of the main
    file that the collector made a root, the visitor submits nothing,
    provided this declaration has a body or is the first one of the
    function that the visitor meets. *)
Theorem root_function_is_kept
    (tree : Node) (fuel : nat) (s : OptimizerConsumer.Search) (d : Decl)
    (v : OptimizerVisitor.t) :
  OptimizerConsumer.findUsedDecls sm ctx fuel
    (DependenciesCollector.collect sm ctx tree) = Some s →
  d ∈ declsToKeep (DependenciesCollector.collect sm ctx tree) →
  isa ctx FunctionDecl d = true →
  isInMainFile sm (getExpansionStart (declInfo ctx (canonical ctx d))) = true →
  doesThisDeclarationHaveABody (asFunction (declInfo ctx d)) = true
  ∨ canonical ctx d ∉ OptimizerVisitor.declared v →
  OptimizerVisitor.rewriter
    (OptimizerVisitor.WalkUpFromDecl sm ctx (OptimizerConsumer.usageInfo s) d v)
  = OptimizerVisitor.rewriter v.
Proof.
  intros Hloop Hroot Hd Hmain Hfirst.
  destruct (findUsedDecls_closed sm ctx _ fuel s Hloop)
    as (_ & Hroots & _ & _ & _ & Husage).
  assert (Hep : endpoint ctx d = canonical ctx d).
  { unfold endpoint. destruct (classof_FunctionDecl_only _ Hd) as (_ & Hns & _).
    fold (isa ctx NamespaceDecl d) in Hns. by rewrite Hns. }
  assert (Hused : UsageInfo.isUsed sm ctx (OptimizerConsumer.usageInfo s)
                    (canonical ctx d) = true).
  { apply isUsed_usedDecls, Husage. split; [|done]. rewrite <- Hep. by apply Hroots. }
  assert (Hkept : functionIsKept sm ctx (OptimizerConsumer.usageInfo s)
                    (OptimizerVisitor.declared v) d).
  { right; right. by split. }
  destruct (isInMainFile sm (getLocStart (declInfo ctx d))) eqn:Hstart.
  - destruct (WalkUpFromDecl_function_cases sm ctx (OptimizerConsumer.usageInfo s)
                d v Hd Hstart) as (Hk & _).
    by rewrite (Hk Hkept).
  - by rewrite WalkUpFromDecl_outside_main_file.
Qed.

End RootsKept.

Lemma forEachDelayed_Returns parser fs sema :
  (∀ f s, ∃ s', parser f s = Returns s') →
  OptimizerConsumer.forEachDelayed parser fs sema
  = Returns (fold_left (fun s f => stateOf (parser f s)) fs sema).
Proof.
  intros Hret. revert sema. induction fs as [|f fs IH]; intros sema;
    cbn [OptimizerConsumer.forEachDelayed fold_left]; [done|].
  destruct (Hret f sema) as [s' Hs']. rewrite Hs'. cbn [stateOf]. apply IH.
Qed.

(** X22. With a parser that always returns, the forcing step hands the
    parser every delayed function once, in the order the collector stored
    them, each time in the state the previous call left; the first call
    finds diagnostics suppressed, and the step returns with diagnostics
    enabled. *)
Theorem forceDelayedParsing_parses_all_in_order
    (LateTemplateParser : Decl → Sema.t → Completion Sema.t)
    (srcInfo : SourceInfo) (sema : Sema.t) :
  (∀ f s, ∃ s', LateTemplateParser f s = Returns s') →
  OptimizerConsumer.forceDelayedParsing LateTemplateParser srcInfo sema
  = Returns
      (Sema.setSuppressAllDiagnostics false
         (fold_left (fun s f => stateOf (LateTemplateParser f s))
            (delayedParsedFunctions srcInfo)
            (Sema.setSuppressAllDiagnostics true sema))).
Proof.
  intros Hret. unfold OptimizerConsumer.forceDelayedParsing. cbv zeta.
  by rewrite forEachDelayed_Returns.
Qed.

(** * Further properties across the stages *)

Section UsedIsKept.
Context (sm : SourceManager) (ctx : ASTContext) (usageInfo : UsageInfo.t).

Lemma whenIsa_true cls visit d v :
  isa ctx cls d = true → OptimizerVisitor.whenIsa ctx cls visit d v = visit d v.
Proof. intros H. unfold OptimizerVisitor.whenIsa. by rewrite H. Qed.

(** X23. The visitor submits nothing for a declaration that is used and
    whose canonical declaration is used and not declared before, unless it
    is an empty declaration, a function template (judged by its templated
    function) or a using-directive (judged by its namespace). *)
Theorem used_declaration_is_not_removed (d : Decl) (v : OptimizerVisitor.t) :
  UsageInfo.isUsed sm ctx usageInfo d = true →
  UsageInfo.isUsed sm ctx usageInfo (canonical ctx d) = true →
  canonical ctx d ∉ OptimizerVisitor.declared v →
  isa ctx EmptyDecl d = false →
  isa ctx FunctionTemplateDecl d = false →
  isa ctx UsingDirectiveDecl d = false →
  OptimizerVisitor.rewriter (OptimizerVisitor.WalkUpFromDecl sm ctx usageInfo d v)
  = OptimizerVisitor.rewriter v.
Proof.
  intros Hd Hc Hnew HE HT HU.
  unfold OptimizerVisitor.WalkUpFromDecl.
  destruct (kindOf ctx d) eqn:K;
    try (unfold isa in HE, HT, HU; rewrite K in HE, HT, HU; discriminate);
    repeat first
      [ rewrite (whenIsa_other ctx) by (unfold isa; rewrite K; reflexivity)
      | rewrite whenIsa_true by (unfold isa; rewrite K; reflexivity) ];
    try reflexivity;
    unfold OptimizerVisitor.VisitNamespaceDecl, OptimizerVisitor.VisitFunctionDecl,
      OptimizerVisitor.VisitCXXRecordDecl, OptimizerVisitor.VisitClassTemplateDecl,
      OptimizerVisitor.VisitTypedefDecl, OptimizerVisitor.VisitTypeAliasDecl,
      OptimizerVisitor.VisitTypeAliasTemplateDecl,
      OptimizerVisitor.needToRemoveFunction, OptimizerVisitor.declare;
    cbv zeta; rewrite ?Hd, ?Hc, ?(bool_decide_eq_false_2 _ Hnew), ?andb_false_r;
    cbn [negb orb andb];
    repeat case_match; done.
Qed.

End UsedIsKept.

Section UnusedIsRemoved.
Context (sm : SourceManager) (ctx : ASTContext).

(** X24. A function of the main file that cannot be reached from the
    roots, and whose range is not the range of a declaration that can, is
    submitted for removal, unless it is explicitly defaulted or deleted. *)
Theorem unreachable_function_is_removed
    (tree : Node) (fuel : nat) (s : OptimizerConsumer.Search) (d : Decl)
    (v : OptimizerVisitor.t) :
  OptimizerConsumer.findUsedDecls sm ctx fuel
    (DependenciesCollector.collect sm ctx tree) = Some s →
  isa ctx FunctionDecl d = true →
  isInMainFile sm (getLocStart (declInfo ctx d)) = true →
  isExplicitlyDefaulted (asFunction (declInfo ctx d)) = false →
  isDeleted (asFunction (declInfo ctx d)) = false →
  ¬ reachable ctx (DependenciesCollector.collect sm ctx tree) (canonical ctx d) →
  UsageInfo.findRange sm (UsageInfo.getSourceRange ctx (canonical ctx d))
    (UsageInfo.locationsOfUsedDecls (OptimizerConsumer.usageInfo s)) = false →
  OptimizerVisitor.WalkUpFromDecl sm ctx (OptimizerConsumer.usageInfo s) d v
  = OptimizerVisitor.declare (canonical ctx d)
      (OptimizerVisitor.removeDecl sm ctx (Some d) v).
Proof.
  intros Hloop Hd Hmain Hdef Hdel Hunreachable Hrange.
  destruct (WalkUpFromDecl_function_cases sm ctx (OptimizerConsumer.usageInfo s)
              d v Hd Hmain) as (_ & Hremoved & _).
  apply Hremoved. unfold functionIsKept. cbv zeta. rewrite Hdef, Hdel.
  intros [?|[?|[Hused _]]]; try done.
  unfold UsageInfo.isUsed in Hused. rewrite Hrange in Hused.
  case_bool_decide as Hin; [|done].
  destruct (findUsedDecls_closed sm ctx _ fuel s Hloop) as (_ & _ & _ & _ & _ & Husage).
  apply Husage in Hin as [Hin _].
  by apply (findUsedDecls_used_reachable sm ctx _ fuel s _ Hloop) in Hin.
Qed.

(** X25. A visited value declaration (a variable, a field, a function, a
    parameter) depends on every declaration that its type mentions, and
    the function it is lexically declared in depends on it. *)
Theorem value_depends_on_its_type
    (T : gset TypePtr) (tree : Node) (d : Decl) (t : TypePtr) :
  d ∈ visitOrder tree →
  isa ctx ValueDecl d = true →
  getType (asValue (declInfo ctx d)) = Some t →
  typesOfContext ctx T → t ∈ T →
  (∀ x, typeMentions ctx t x →
        hasEdge (uses (DependenciesCollector.collect sm ctx tree))
          (endpoint ctx d) (endpoint ctx x))
  ∧ (∀ fn, getLexicalDeclContext (declInfo ctx d) = Some fn →
           isa ctx FunctionDecl fn = true →
           hasEdge (uses (DependenciesCollector.collect sm ctx tree))
             (endpoint ctx fn) (endpoint ctx d)).
Proof.
  intros Hd Hisa Hty HT Ht.
  assert (Hv : VisitedDecl d ∈ visits tree []) by (by apply visits_visitOrder).
  split.
  - intros x Hx. apply (collect_after_visit sm ctx tree _ _ _ Hv). intros si.
    cbn [applyVisit]. unfold DependenciesCollector.WalkUpFromDecl.
    do 9 after_hook ctx (endpoint ctx d) (endpoint ctx x).
    unfold DependenciesCollector.whenIsa at 1. rewrite Hisa.
    unfold DependenciesCollector.VisitValueDecl. cbv zeta. rewrite Hty.
    by apply (insertReferenceToType_mentioned_edge ctx T).
  - intros fn Hfn Hfun. apply (collect_after_visit sm ctx tree _ _ _ Hv). intros si.
    cbn [applyVisit]. unfold DependenciesCollector.WalkUpFromDecl.
    do 9 after_hook ctx (endpoint ctx fn) (endpoint ctx d).
    unfold DependenciesCollector.whenIsa at 1. rewrite Hisa.
    unfold DependenciesCollector.VisitValueDecl, DependenciesCollector.getCurrentFunction,
      dyn_cast_or_null.
    cbv zeta. rewrite Hfn, Hfun.
    apply insertReferenceToType_keeps_edge, insertReference_adds_edge.
Qed.

End UnusedIsRemoved.

(** * Instances of the further properties on the two examples *)

Lemma example_search :
  OptimizerConsumer.findUsedDecls Demo.sourceManager Demo.ctx
    (OptimizerConsumer.searchBound Demo.ctx Demo.srcInfo)
    (DependenciesCollector.collect Demo.sourceManager Demo.ctx Demo.translationUnit)
  = Some (default (OptimizerConsumer.startSearch Demo.ctx Demo.srcInfo) Demo.search).
Proof. vm_compute. reflexivity. Qed.

Lemma example_virtual_search :
  OptimizerConsumer.findUsedDecls VirtualDemo.sourceManager VirtualDemo.ctx
    (OptimizerConsumer.searchBound VirtualDemo.ctx VirtualDemo.srcInfo)
    (DependenciesCollector.collect VirtualDemo.sourceManager VirtualDemo.ctx
       VirtualDemo.translationUnit)
  = Some (default (OptimizerConsumer.startSearch VirtualDemo.ctx VirtualDemo.srcInfo)
            VirtualDemo.search).
Proof. vm_compute. reflexivity. Qed.

(** The four types of the second example are all its types, and each is
    made from types among them. *)
Lemma example_virtual_types :
  typesOfContext VirtualDemo.ctx (list_to_set [1; 2; 3; 4]%positive).
Proof.
  split; [vm_compute; lia|].
  intros t c Ht Hc. rewrite elem_of_list_to_set in Ht.
  apply list_elem_of_In in Ht. apply list_elem_of_In in Hc.
  destruct Ht as [<-|[<-|[<-|[<-|[]]]]]; vm_compute in Hc;
    try (by destruct Hc).
  destruct Hc as [[= <-]|[]]. rewrite elem_of_list_to_set. apply list_elem_of_In.
  by left.
Qed.

(** The type [B*] mentions the class [B]. *)
Lemma example_pointer_mentions :
  typeMentions VirtualDemo.ctx 4%positive 2%positive.
Proof.
  apply (mentions_inside _ _ 1%positive).
  - apply list_elem_of_In. by left.
  - apply mentions_here, names_tag; [by intros named|reflexivity].
Qed.

Lemma example_main_uses_b :
  hasEdge (uses Demo.srcInfo) 15%positive 11%positive.
Proof. apply hasEdgeb_true. vm_compute. reflexivity. Qed.

Lemma example_class_used :
  endpoint VirtualDemo.ctx 2%positive
  ∈ OptimizerConsumer.used
      (default (OptimizerConsumer.startSearch VirtualDemo.ctx VirtualDemo.srcInfo)
         VirtualDemo.search).
Proof. apply (bool_decide_unpack _). vm_compute. exact I. Qed.

Lemma example_main_is_root :
  15%positive ∈ declsToKeep (DependenciesCollector.collect Demo.sourceManager
                               Demo.ctx Demo.translationUnit).
Proof. apply (bool_decide_unpack _). vm_compute. exact I. Qed.

Lemma example_main_kept :
  functionIsKept Demo.sourceManager Demo.ctx Demo.usageInfo
    (OptimizerVisitor.declared (OptimizerVisitor.create SmartRewriter.create))
    15%positive.
Proof. right; right. split; [vm_compute; reflexivity|left; reflexivity]. Qed.

Lemma example_macro_pair_used (var : Decl) :
  var ∈ [13; 14]%positive →
  variableUsed Demo.sourceManager Demo.ctx Demo.usageInfo var = true.
Proof.
  intros Hvar. apply list_elem_of_In in Hvar.
  destruct Hvar as [<-|[<-|[]]]; vm_compute; reflexivity.
Qed.

Lemma example_nothing_used (var : Decl) :
  var ∈ [10; 11; 12]%positive →
  variableUsed Demo.sourceManager Demo.ctx UsageInfo.create var = false.
Proof.
  intros Hvar. apply list_elem_of_In in Hvar.
  destruct Hvar as [<-|[<-|[<-|[]]]]; vm_compute; reflexivity.
Qed.

Lemma Traverse_keeps_edges_witness :
  hasEdge (uses (DependenciesCollector.srcInfo (DependenciesCollector.mk Demo.srcInfo [])))
    15%positive 11%positive
  ∧ hasEdge
      (uses (DependenciesCollector.srcInfo
               (DependenciesCollector.Traverse Demo.sourceManager Demo.ctx
                  Demo.translationUnit (DependenciesCollector.mk Demo.srcInfo []))))
      15%positive 11%positive.
Proof.
  split; [exact example_main_uses_b|].
  exact (Traverse_keeps_edges Demo.sourceManager Demo.ctx Demo.translationUnit
           (DependenciesCollector.mk Demo.srcInfo []) 15%positive 11%positive
           example_main_uses_b).
Defined.

Lemma member_depends_on_enclosing_context_witness :
  9%positive ∈ visitOrder Demo.translationUnit
  ∧ getDeclContext (declInfo Demo.ctx 9%positive) = Some 8%positive
  ∧ isa Demo.ctx FunctionDecl 8%positive = false
  ∧ hasEdge (uses (DependenciesCollector.collect Demo.sourceManager Demo.ctx
                     Demo.translationUnit))
      (endpoint Demo.ctx 9%positive) (endpoint Demo.ctx 8%positive).
Proof.
  assert (H9 : 9%positive ∈ visitOrder Demo.translationUnit)
    by (apply list_elem_of_lookup; exists 8; reflexivity).
  split; [exact H9|]. split; [reflexivity|]. split; [reflexivity|].
  exact (member_depends_on_enclosing_context Demo.sourceManager Demo.ctx
           Demo.translationUnit 9%positive 8%positive H9 eq_refl eq_refl).
Defined.

Lemma method_and_class_edges_witness :
  3%positive ∈ visitOrder VirtualDemo.translationUnit
  ∧ isa VirtualDemo.ctx CXXMethodDecl 3%positive = true
  ∧ getParent (asFunction (declInfo VirtualDemo.ctx 3%positive)) = Some 2%positive
  ∧ isVirtual (asFunction (declInfo VirtualDemo.ctx 3%positive)) = true
  ∧ hasEdge (uses (DependenciesCollector.collect VirtualDemo.sourceManager
                     VirtualDemo.ctx VirtualDemo.translationUnit))
      (endpoint VirtualDemo.ctx 2%positive) (endpoint VirtualDemo.ctx 3%positive).
Proof.
  assert (H3 : 3%positive ∈ visitOrder VirtualDemo.translationUnit)
    by (apply list_elem_of_lookup; exists 2; reflexivity).
  split; [exact H3|]. split; [reflexivity|]. split; [reflexivity|].
  split; [reflexivity|].
  exact (proj2 (method_and_class_edges VirtualDemo.sourceManager VirtualDemo.ctx
                  VirtualDemo.translationUnit 3%positive 2%positive H3 eq_refl eq_refl)
           eq_refl).
Defined.

Lemma statement_reference_edge_witness :
  VisitedStmt (DeclRefExpr (Some 11%positive) []) (Some 15%positive)
    ∈ visits Demo.translationUnit []
  ∧ referencedDecl (DeclRefExpr (Some 11%positive) []) = Some 11%positive
  ∧ hasEdge (uses (DependenciesCollector.collect Demo.sourceManager Demo.ctx
                     Demo.translationUnit))
      (endpoint Demo.ctx 15%positive) (endpoint Demo.ctx 11%positive).
Proof.
  assert (Hs : VisitedStmt (DeclRefExpr (Some 11%positive) []) (Some 15%positive)
               ∈ visits Demo.translationUnit [])
    by (apply list_elem_of_lookup; exists 21; reflexivity).
  split; [exact Hs|]. split; [reflexivity|].
  exact (statement_reference_edge Demo.sourceManager Demo.ctx Demo.translationUnit
           (DeclRefExpr (Some 11%positive) []) 15%positive 11%positive Hs eq_refl).
Defined.

Lemma insertReferenceToType_reaches_mentioned_witness :
  typesOfContext VirtualDemo.ctx (list_to_set [1; 2; 3; 4]%positive)
  ∧ 4%positive ∈ (list_to_set [1; 2; 3; 4]%positive : gset TypePtr)
  ∧ typeMentions VirtualDemo.ctx 4%positive 2%positive
  ∧ hasEdge
      (uses (DependenciesCollector.insertReferenceToType VirtualDemo.ctx
               (Some 5%positive) (Some 4%positive) emptySourceInfo))
      (endpoint VirtualDemo.ctx 5%positive) (endpoint VirtualDemo.ctx 2%positive).
Proof.
  assert (H4 : 4%positive ∈ (list_to_set [1; 2; 3; 4]%positive : gset TypePtr))
    by (apply (bool_decide_unpack _); vm_compute; exact I).
  split; [exact example_virtual_types|]. split; [exact H4|].
  split; [exact example_pointer_mentions|].
  exact (insertReferenceToType_reaches_mentioned VirtualDemo.ctx
           (list_to_set [1; 2; 3; 4]%positive) 5%positive 4%positive 2%positive
           emptySourceInfo example_virtual_types H4 example_pointer_mentions).
Defined.

Lemma findUsedDecls_exactly_reachable_witness :
  OptimizerConsumer.findUsedDecls Demo.sourceManager Demo.ctx
    (OptimizerConsumer.searchBound Demo.ctx Demo.srcInfo)
    (DependenciesCollector.collect Demo.sourceManager Demo.ctx Demo.translationUnit)
  = Some (default (OptimizerConsumer.startSearch Demo.ctx Demo.srcInfo) Demo.search)
  ∧ ∀ d, d ∈ OptimizerConsumer.used
               (default (OptimizerConsumer.startSearch Demo.ctx Demo.srcInfo) Demo.search)
         ↔ reachable Demo.ctx
             (DependenciesCollector.collect Demo.sourceManager Demo.ctx
                Demo.translationUnit) d.
Proof.
  split; [exact example_search|].
  exact (proj1 (findUsedDecls_exactly_reachable Demo.sourceManager Demo.ctx
                  (DependenciesCollector.collect Demo.sourceManager Demo.ctx
                     Demo.translationUnit)
                  (OptimizerConsumer.searchBound Demo.ctx Demo.srcInfo)
                  (default (OptimizerConsumer.startSearch Demo.ctx Demo.srcInfo)
                     Demo.search)
                  example_search)).
Defined.

Lemma usageInfo_exactly_reachable_in_main_file_witness :
  OptimizerConsumer.findUsedDecls Demo.sourceManager Demo.ctx
    (OptimizerConsumer.searchBound Demo.ctx Demo.srcInfo)
    (DependenciesCollector.collect Demo.sourceManager Demo.ctx Demo.translationUnit)
  = Some (default (OptimizerConsumer.startSearch Demo.ctx Demo.srcInfo) Demo.search)
  ∧ ∀ d, d ∈ UsageInfo.usedDecls
               (OptimizerConsumer.usageInfo
                  (default (OptimizerConsumer.startSearch Demo.ctx Demo.srcInfo)
                     Demo.search))
         ↔ reachable Demo.ctx
             (DependenciesCollector.collect Demo.sourceManager Demo.ctx
                Demo.translationUnit) d
           ∧ isInMainFile Demo.sourceManager
               (getExpansionStart (declInfo Demo.ctx d)) = true.
Proof.
  split; [exact example_search|].
  exact (proj1 (usageInfo_exactly_reachable_in_main_file Demo.sourceManager Demo.ctx
                  (DependenciesCollector.collect Demo.sourceManager Demo.ctx
                     Demo.translationUnit)
                  (OptimizerConsumer.searchBound Demo.ctx Demo.srcInfo)
                  (default (OptimizerConsumer.startSearch Demo.ctx Demo.srcInfo)
                     Demo.search)
                  example_search)).
Defined.

Lemma virtual_method_of_used_class_is_used_witness :
  3%positive ∈ visitOrder VirtualDemo.translationUnit
  ∧ isa VirtualDemo.ctx CXXMethodDecl 3%positive = true
  ∧ isVirtual (asFunction (declInfo VirtualDemo.ctx 3%positive)) = true
  ∧ getParent (asFunction (declInfo VirtualDemo.ctx 3%positive)) = Some 2%positive
  ∧ endpoint VirtualDemo.ctx 3%positive
    ∈ OptimizerConsumer.used
        (default (OptimizerConsumer.startSearch VirtualDemo.ctx VirtualDemo.srcInfo)
           VirtualDemo.search).
Proof.
  assert (H3 : 3%positive ∈ visitOrder VirtualDemo.translationUnit)
    by (apply list_elem_of_lookup; exists 2; reflexivity).
  split; [exact H3|]. split; [reflexivity|]. split; [reflexivity|].
  split; [reflexivity|].
  exact (virtual_method_of_used_class_is_used VirtualDemo.sourceManager
           VirtualDemo.ctx VirtualDemo.translationUnit
           (OptimizerConsumer.searchBound VirtualDemo.ctx VirtualDemo.srcInfo)
           (default (OptimizerConsumer.startSearch VirtualDemo.ctx VirtualDemo.srcInfo)
              VirtualDemo.search)
           3%positive 2%positive H3 eq_refl eq_refl eq_refl
           example_virtual_search example_class_used).
Defined.

Lemma visitor_leaves_other_files_alone_witness :
  isInMainFile Demo.sourceManager (getLocStart (declInfo Demo.ctx 1%positive)) = false
  ∧ OptimizerVisitor.WalkUpFromDecl Demo.sourceManager Demo.ctx Demo.usageInfo
      1%positive (OptimizerVisitor.create SmartRewriter.create)
    = OptimizerVisitor.create SmartRewriter.create.
Proof.
  split; [reflexivity|].
  exact (visitor_leaves_other_files_alone Demo.sourceManager Demo.ctx Demo.usageInfo
           1%positive (OptimizerVisitor.create SmartRewriter.create) eq_refl).
Defined.

Lemma function_removed_unless_kept_witness :
  isa Demo.ctx FunctionDecl 15%positive = true
  ∧ isInMainFile Demo.sourceManager (getLocStart (declInfo Demo.ctx 15%positive)) = true
  ∧ OptimizerVisitor.WalkUpFromDecl Demo.sourceManager Demo.ctx Demo.usageInfo
      15%positive (OptimizerVisitor.create SmartRewriter.create)
    = OptimizerVisitor.declare (canonical Demo.ctx 15%positive)
        (OptimizerVisitor.create SmartRewriter.create).
Proof.
  split; [reflexivity|]. split; [reflexivity|].
  exact (proj1 (function_removed_unless_kept Demo.sourceManager Demo.ctx
                  Demo.usageInfo 15%positive
                  (OptimizerVisitor.create SmartRewriter.create) eq_refl eq_refl)
           example_main_kept).
Defined.

Lemma function_redeclaration_removed_witness :
  visitOrder Demo.translationUnit !! 2 = Some 3%positive
  ∧ 2%positive ∈ take 2 (visitOrder Demo.translationUnit)
  ∧ canonical Demo.ctx 2%positive = canonical Demo.ctx 3%positive
  ∧ doesThisDeclarationHaveABody (asFunction (declInfo Demo.ctx 3%positive)) = false
  ∧ OptimizerVisitor.visitAll Demo.sourceManager Demo.ctx Demo.usageInfo
      (take 3 (visitOrder Demo.translationUnit))
      (OptimizerVisitor.create SmartRewriter.create)
    = OptimizerVisitor.declare (canonical Demo.ctx 3%positive)
        (OptimizerVisitor.removeDecl Demo.sourceManager Demo.ctx (Some 3%positive)
           (OptimizerVisitor.visitAll Demo.sourceManager Demo.ctx Demo.usageInfo
              (take 2 (visitOrder Demo.translationUnit))
              (OptimizerVisitor.create SmartRewriter.create))).
Proof.
  assert (H2 : 2%positive ∈ take 2 (visitOrder Demo.translationUnit))
    by (apply list_elem_of_lookup; exists 1; reflexivity).
  split; [reflexivity|]. split; [exact H2|]. split; [reflexivity|].
  split; [reflexivity|].
  exact (function_redeclaration_removed Demo.sourceManager Demo.ctx Demo.usageInfo
           (visitOrder Demo.translationUnit) 2 2%positive 3%positive
           (OptimizerVisitor.create SmartRewriter.create)
           eq_refl H2 eq_refl eq_refl eq_refl eq_refl eq_refl eq_refl eq_refl eq_refl).
Defined.

Lemma group_of_used_variables_untouched_witness :
  (∀ var, var ∈ [13; 14]%positive →
          variableUsed Demo.sourceManager Demo.ctx Demo.usageInfo var = true)
  ∧ OptimizerConsumer.removeUnusedGroup Demo.sourceManager Demo.ctx Demo.usageInfo
      197 [13; 14]%positive SmartRewriter.create
    = SmartRewriter.create.
Proof.
  split; [exact example_macro_pair_used|].
  exact (group_of_used_variables_untouched Demo.sourceManager Demo.ctx Demo.usageInfo
           197 [13; 14]%positive SmartRewriter.create example_macro_pair_used).
Defined.

Lemma group_of_unused_variables_removed_whole_witness :
  last [10; 11; 12]%positive = Some 12%positive
  ∧ (∀ var, var ∈ [10; 11; 12]%positive →
            variableUsed Demo.sourceManager Demo.ctx UsageInfo.create var = false)
  ∧ OptimizerConsumer.removeUnusedGroup Demo.sourceManager Demo.ctx UsageInfo.create
      154 [10; 11; 12]%positive SmartRewriter.create
    = (SmartRewriter.removeRange Demo.sourceManager SmartRewriter.create
         (mkSourceRange 154
            (findSemiAfterLocation Demo.ctx
               (getExpansionEnd (declInfo Demo.ctx 12%positive))))
         (setRemoveLineIfEmpty true defaultRewriteOptions)).2.
Proof.
  split; [reflexivity|]. split; [exact example_nothing_used|].
  exact (group_of_unused_variables_removed_whole Demo.sourceManager Demo.ctx
           UsageInfo.create 154 [10; 11; 12]%positive 12%positive
           SmartRewriter.create eq_refl example_nothing_used).
Defined.

Lemma root_function_is_kept_witness :
  15%positive ∈ declsToKeep (DependenciesCollector.collect Demo.sourceManager
                               Demo.ctx Demo.translationUnit)
  ∧ isa Demo.ctx FunctionDecl 15%positive = true
  ∧ isInMainFile Demo.sourceManager
      (getExpansionStart (declInfo Demo.ctx (canonical Demo.ctx 15%positive))) = true
  ∧ doesThisDeclarationHaveABody (asFunction (declInfo Demo.ctx 15%positive)) = true
  ∧ OptimizerVisitor.rewriter
      (OptimizerVisitor.WalkUpFromDecl Demo.sourceManager Demo.ctx
         (OptimizerConsumer.usageInfo
            (default (OptimizerConsumer.startSearch Demo.ctx Demo.srcInfo) Demo.search))
         15%positive (OptimizerVisitor.create SmartRewriter.create))
    = OptimizerVisitor.rewriter (OptimizerVisitor.create SmartRewriter.create).
Proof.
  split; [exact example_main_is_root|]. split; [reflexivity|].
  split; [reflexivity|]. split; [reflexivity|].
  exact (root_function_is_kept Demo.sourceManager Demo.ctx Demo.translationUnit
           (OptimizerConsumer.searchBound Demo.ctx Demo.srcInfo)
           (default (OptimizerConsumer.startSearch Demo.ctx Demo.srcInfo) Demo.search)
           15%positive (OptimizerVisitor.create SmartRewriter.create)
           example_search example_main_is_root eq_refl eq_refl (or_introl eq_refl)).
Defined.

Lemma forceDelayedParsing_parses_all_in_order_witness :
  (∀ f s, ∃ s', (fun (f : Decl) (s : Sema.t) =>
                   Returns (Sema.mk (Sema.suppressAllDiagnostics s)
                              (Sema.parsedLateTemplates s ++ [f]))) f s
                = Returns s')
  ∧ OptimizerConsumer.forceDelayedParsing
      (fun f s => Returns (Sema.mk (Sema.suppressAllDiagnostics s)
                             (Sema.parsedLateTemplates s ++ [f])))
      Demo.srcInfo Demo.sema
    = Returns
        (Sema.setSuppressAllDiagnostics false
           (fold_left
              (fun s f =>
                 stateOf (Returns (Sema.mk (Sema.suppressAllDiagnostics s)
                                     (Sema.parsedLateTemplates s ++ [f]))))
              (delayedParsedFunctions Demo.srcInfo)
              (Sema.setSuppressAllDiagnostics true Demo.sema))).
Proof.
  assert (H : ∀ f s, ∃ s', (fun (f : Decl) (s : Sema.t) =>
                   Returns (Sema.mk (Sema.suppressAllDiagnostics s)
                              (Sema.parsedLateTemplates s ++ [f]))) f s
                = Returns s')
    by (intros f s; eexists; reflexivity).
  split; [exact H|].
  exact (forceDelayedParsing_parses_all_in_order
           (fun f s => Returns (Sema.mk (Sema.suppressAllDiagnostics s)
                                  (Sema.parsedLateTemplates s ++ [f])))
           Demo.srcInfo Demo.sema H).
Defined.

Lemma example_unused_unreachable :
  ¬ reachable Demo.ctx
      (DependenciesCollector.collect Demo.sourceManager Demo.ctx Demo.translationUnit)
      (canonical Demo.ctx 4%positive).
Proof.
  intros Hr.
  apply (findUsedDecls_used_reachable Demo.sourceManager Demo.ctx _ _ _ _ example_search)
    in Hr.
  revert Hr. apply (bool_decide_unpack _). vm_compute. exact I.
Qed.

Lemma example_class_is_used :
  UsageInfo.isUsed Demo.sourceManager Demo.ctx Demo.usageInfo 8%positive = true.
Proof. vm_compute. reflexivity. Qed.

Lemma used_declaration_is_not_removed_witness :
  UsageInfo.isUsed Demo.sourceManager Demo.ctx Demo.usageInfo 8%positive = true
  ∧ UsageInfo.isUsed Demo.sourceManager Demo.ctx Demo.usageInfo
      (canonical Demo.ctx 8%positive) = true
  ∧ (canonical Demo.ctx 8%positive
     ∉ OptimizerVisitor.declared (OptimizerVisitor.create SmartRewriter.create))
  ∧ OptimizerVisitor.rewriter
      (OptimizerVisitor.WalkUpFromDecl Demo.sourceManager Demo.ctx Demo.usageInfo
         8%positive (OptimizerVisitor.create SmartRewriter.create))
    = OptimizerVisitor.rewriter (OptimizerVisitor.create SmartRewriter.create).
Proof.
  assert (Hnew : canonical Demo.ctx 8%positive
                 ∉ OptimizerVisitor.declared (OptimizerVisitor.create SmartRewriter.create))
    by apply not_elem_of_empty.
  split; [exact example_class_is_used|]. split; [exact example_class_is_used|].
  split; [exact Hnew|].
  exact (used_declaration_is_not_removed Demo.sourceManager Demo.ctx Demo.usageInfo
           8%positive (OptimizerVisitor.create SmartRewriter.create)
           example_class_is_used example_class_is_used Hnew eq_refl eq_refl eq_refl).
Defined.

Lemma unreachable_function_is_removed_witness :
  isa Demo.ctx FunctionDecl 4%positive = true
  ∧ isInMainFile Demo.sourceManager (getLocStart (declInfo Demo.ctx 4%positive)) = true
  ∧ ¬ reachable Demo.ctx
        (DependenciesCollector.collect Demo.sourceManager Demo.ctx Demo.translationUnit)
        (canonical Demo.ctx 4%positive)
  ∧ UsageInfo.findRange Demo.sourceManager
      (UsageInfo.getSourceRange Demo.ctx (canonical Demo.ctx 4%positive))
      (UsageInfo.locationsOfUsedDecls
         (OptimizerConsumer.usageInfo
            (default (OptimizerConsumer.startSearch Demo.ctx Demo.srcInfo) Demo.search)))
    = false
  ∧ OptimizerVisitor.WalkUpFromDecl Demo.sourceManager Demo.ctx
      (OptimizerConsumer.usageInfo
         (default (OptimizerConsumer.startSearch Demo.ctx Demo.srcInfo) Demo.search))
      4%positive (OptimizerVisitor.create SmartRewriter.create)
    = OptimizerVisitor.declare (canonical Demo.ctx 4%positive)
        (OptimizerVisitor.removeDecl Demo.sourceManager Demo.ctx (Some 4%positive)
           (OptimizerVisitor.create SmartRewriter.create)).
Proof.
  assert (Hrange : UsageInfo.findRange Demo.sourceManager
      (UsageInfo.getSourceRange Demo.ctx (canonical Demo.ctx 4%positive))
      (UsageInfo.locationsOfUsedDecls
         (OptimizerConsumer.usageInfo
            (default (OptimizerConsumer.startSearch Demo.ctx Demo.srcInfo) Demo.search)))
    = false) by (vm_compute; reflexivity).
  split; [reflexivity|]. split; [reflexivity|].
  split; [exact example_unused_unreachable|]. split; [exact Hrange|].
  exact (unreachable_function_is_removed Demo.sourceManager Demo.ctx
           Demo.translationUnit
           (OptimizerConsumer.searchBound Demo.ctx Demo.srcInfo)
           (default (OptimizerConsumer.startSearch Demo.ctx Demo.srcInfo) Demo.search)
           4%positive (OptimizerVisitor.create SmartRewriter.create)
           example_search eq_refl eq_refl eq_refl eq_refl
           example_unused_unreachable Hrange).
Defined.

Lemma value_depends_on_its_type_witness :
  5%positive ∈ visitOrder VirtualDemo.translationUnit
  ∧ isa VirtualDemo.ctx ValueDecl 5%positive = true
  ∧ getType (asValue (declInfo VirtualDemo.ctx 5%positive)) = Some 4%positive
  ∧ typeMentions VirtualDemo.ctx 4%positive 2%positive
  ∧ hasEdge (uses (DependenciesCollector.collect VirtualDemo.sourceManager
                     VirtualDemo.ctx VirtualDemo.translationUnit))
      (endpoint VirtualDemo.ctx 5%positive) (endpoint VirtualDemo.ctx 2%positive).
Proof.
  assert (H5 : 5%positive ∈ visitOrder VirtualDemo.translationUnit)
    by (apply list_elem_of_lookup; exists 4; reflexivity).
  assert (H4 : 4%positive ∈ (list_to_set [1; 2; 3; 4]%positive : gset TypePtr))
    by (apply (bool_decide_unpack _); vm_compute; exact I).
  split; [exact H5|]. split; [reflexivity|]. split; [reflexivity|].
  split; [exact example_pointer_mentions|].
  exact (proj1 (value_depends_on_its_type VirtualDemo.sourceManager VirtualDemo.ctx
                  (list_to_set [1; 2; 3; 4]%positive) VirtualDemo.translationUnit
                  5%positive 4%positive H5 eq_refl eq_refl example_virtual_types H4)
           2%positive example_pointer_mentions).
Defined.
